(** * The super-chunk engine of c-blosc2 (blosc/schunk.c)

    A shallow embedding of the functions of [schunk.c] and the properties
    of the super-chunk container: the filter descriptor, the live
    (pointer based) form, the packed image and the conversions between
    the two.

    Conventions.
    - A C integer is a [Z]; the conversions [uint16], [int32], [int64],
      [uint64] and [size_t] write out the wrap-around of each store.
    - A heap buffer is a [list byte].  [load] and [store] are the
      accesses through a pointer into a buffer; an access outside the
      buffer is undefined in C and is [None] here, and every function
      that dereferences a pointer runs in the option monad.
    - A pointer into a packed image is its byte offset from the start of
      the image; the address of the image is carried along only where
      the code compares such a pointer with [NULL].
    - The block codec and the delta codec are outside [schunk.c]; they
      are the operations of the class [Codec]. *)

From Stdlib Require Import ZArith List Lia Bool.
From coqutil Require Import Byte Word.LittleEndianList Z.PushPullMod.
Import ListNotations.
Local Open Scope Z_scope.

(** ** C integers *)

Definition uint (w : Z) (z : Z) : Z := z mod 2 ^ w.
Definition sint (w : Z) (z : Z) : Z := (z + 2 ^ (w - 1)) mod 2 ^ w - 2 ^ (w - 1).

Definition uint8 := uint 8.
Definition uint16 := uint 16.
Definition uint32 := uint 32.
Definition uint64 := uint 64.
Definition int16 := sint 16.
Definition int32 := sint 32.
Definition int64 := sint 64.
(** [int] is 32 bits wide and [size_t] 64 bits wide on the platforms the
    packed format (8-byte offsets) is written for. *)
Definition int := sint 32.
Definition size_t := uint 64.
Definition INT_MAX : Z := 2 ^ 31 - 1.

(** [i++] on an [int] loop counter: the overflow is undefined. *)
Definition next_int (i : Z) : option Z :=
  if INT_MAX <=? i then None else Some (i + 1).

(** ** The option monad of defined behaviour *)

Notation "x <- a ;; b" :=
  (match a with Some x => b | None => None end)
  (at level 61, a at next level, right associativity).
Notation "' p <- a ;; b" :=
  (match a with Some p => b | None => None end)
  (at level 61, p pattern, a at next level, right associativity).

(** ** Buffers *)

Definition buffer := list byte.

(** The [n] bytes at offset [off]: the source of a [memcpy]. *)
Definition load (m : buffer) (off n : Z) : option buffer :=
  if (0 <=? off) && (0 <=? n) && (off + n <=? Z.of_nat (length m))
  then Some (firstn (Z.to_nat n) (skipn (Z.to_nat off) m))
  else None.

(** [bs] written at offset [off]: the destination of a [memcpy]. *)
Definition store (m : buffer) (off : Z) (bs : buffer) : option buffer :=
  if (0 <=? off) && (off + Z.of_nat (length bs) <=? Z.of_nat (length m))
  then Some (firstn (Z.to_nat off) m ++ bs
             ++ skipn (Z.to_nat off + length bs) m)
  else None.

(** [*(uintN_t* )(m + off)] and [*(intN_t* )(m + off)], little-endian. *)
Definition load_uint (nbytes : nat) (m : buffer) (off : Z) : option Z :=
  bs <- load m off (Z.of_nat nbytes) ;; Some (le_combine bs).
Definition load_sint (nbytes : nat) (m : buffer) (off : Z) : option Z :=
  v <- load_uint nbytes m off ;; Some (sint (Z.of_nat nbytes * 8) v).
Definition store_int (nbytes : nat) (m : buffer) (off : Z) (v : Z)
  : option buffer :=
  store m off (le_split nbytes v).

Definition load_u16 := load_uint 2.
Definition load_i16 := load_sint 2.
Definition load_u32 := load_uint 4.
Definition load_i32 := load_sint 4.
Definition load_u64 := load_uint 8.
Definition load_i64 := load_sint 8.
Definition store_i64 := store_int 8.

(** The memory from a pointer to the end of its buffer: what a callee
    that is handed the pointer can read. *)
Definition from_ptr (m : buffer) (off : Z) : option buffer :=
  if (0 <=? off) && (off <=? Z.of_nat (length m))
  then Some (skipn (Z.to_nat off) m) else None.

(** ** blosc.h

    The header [blosc.h] is not part of the sources: its constants are
    the fields of this class, and an instance with the values of a 64-bit
    build is given with the examples. *)
Class BloscH := {
  BLOSC_MAX_FILTERS : nat;
  BLOSC_DELTA : Z;
  BLOSC_MAX_OVERHEAD : Z;
  BLOSC_HEADER_PACKED_LENGTH : Z;
  (** [sizeof(schunk_header)] and [sizeof(void* )] *)
  sizeof_schunk_header : Z;
  sizeof_pointer : Z;
  (** the content of memory handed out by [malloc] (indeterminate in C) *)
  malloc_fill : byte
}.

(** [schunk_params]: [filters] is an array of [BLOSC_MAX_FILTERS]
    [uint8_t]. *)
Record schunk_params := {
  p_filters : list Z;
  p_filters_meta : Z;
  p_compressor : Z;
  p_clevel : Z
}.

Section Filters.
Context `{BloscH}.

(** [encode_filters]: the loop adds [filters[i] << (i * 3)] into a
    [uint16_t]. *)
Definition encode_filters (params : schunk_params) : Z :=
  fold_left
    (fun enc_filters i =>
       uint16 (enc_filters
               + Z.shiftl (nth i (p_filters params) 0) (Z.of_nat i * 3)))
    (seq 0 BLOSC_MAX_FILTERS) 0.

Fixpoint decode_filters_loop (n : nat) (enc_filters : Z) : list Z :=
  match n with
  | O => []
  | S n' => uint8 (Z.land enc_filters 3)
            :: decode_filters_loop n' (uint16 (Z.shiftr enc_filters 3))
  end.

(** [decode_filters]: [filters[i] = enc_filters & 0x3; enc_filters >>= 3]. *)
Definition decode_filters (enc_filters : Z) : list Z :=
  decode_filters_loop BLOSC_MAX_FILTERS enc_filters.

End Filters.

(** ** The live super-chunk

    [schunk_header] as [schunk.c] uses it.  An ancillary chunk pointer is
    [None] when it is [NULL] and owns its buffer otherwise; [data] is the
    array of chunk pointers ([None] when [NULL]).  A slot of [data] that
    was never assigned holds a pointer to nothing, the empty buffer. *)
Record schunk_header := {
  version : Z;
  compressor : Z;
  clevel : Z;
  filters : Z;
  filters_meta : Z;
  nchunks : Z;
  nbytes : Z;
  cbytes : Z;
  filters_chunk : option buffer;
  codec_chunk : option buffer;
  metadata_chunk : option buffer;
  userdata_chunk : option buffer;
  data : option (list buffer)
}.

Definition set_nchunks (v : Z) (sc : schunk_header) : schunk_header :=
  {| version := version sc; compressor := compressor sc; clevel := clevel sc;
     filters := filters sc; filters_meta := filters_meta sc;
     nchunks := v; nbytes := nbytes sc; cbytes := cbytes sc;
     filters_chunk := filters_chunk sc; codec_chunk := codec_chunk sc;
     metadata_chunk := metadata_chunk sc; userdata_chunk := userdata_chunk sc;
     data := data sc |}.

Definition set_nbytes (v : Z) (sc : schunk_header) : schunk_header :=
  {| version := version sc; compressor := compressor sc; clevel := clevel sc;
     filters := filters sc; filters_meta := filters_meta sc;
     nchunks := nchunks sc; nbytes := v; cbytes := cbytes sc;
     filters_chunk := filters_chunk sc; codec_chunk := codec_chunk sc;
     metadata_chunk := metadata_chunk sc; userdata_chunk := userdata_chunk sc;
     data := data sc |}.

Definition set_cbytes (v : Z) (sc : schunk_header) : schunk_header :=
  {| version := version sc; compressor := compressor sc; clevel := clevel sc;
     filters := filters sc; filters_meta := filters_meta sc;
     nchunks := nchunks sc; nbytes := nbytes sc; cbytes := v;
     filters_chunk := filters_chunk sc; codec_chunk := codec_chunk sc;
     metadata_chunk := metadata_chunk sc; userdata_chunk := userdata_chunk sc;
     data := data sc |}.

Definition set_filters_chunk (c : option buffer) (sc : schunk_header)
  : schunk_header :=
  {| version := version sc; compressor := compressor sc; clevel := clevel sc;
     filters := filters sc; filters_meta := filters_meta sc;
     nchunks := nchunks sc; nbytes := nbytes sc; cbytes := cbytes sc;
     filters_chunk := c; codec_chunk := codec_chunk sc;
     metadata_chunk := metadata_chunk sc; userdata_chunk := userdata_chunk sc;
     data := data sc |}.

Definition set_codec_chunk (c : option buffer) (sc : schunk_header)
  : schunk_header :=
  {| version := version sc; compressor := compressor sc; clevel := clevel sc;
     filters := filters sc; filters_meta := filters_meta sc;
     nchunks := nchunks sc; nbytes := nbytes sc; cbytes := cbytes sc;
     filters_chunk := filters_chunk sc; codec_chunk := c;
     metadata_chunk := metadata_chunk sc; userdata_chunk := userdata_chunk sc;
     data := data sc |}.

Definition set_metadata_chunk (c : option buffer) (sc : schunk_header)
  : schunk_header :=
  {| version := version sc; compressor := compressor sc; clevel := clevel sc;
     filters := filters sc; filters_meta := filters_meta sc;
     nchunks := nchunks sc; nbytes := nbytes sc; cbytes := cbytes sc;
     filters_chunk := filters_chunk sc; codec_chunk := codec_chunk sc;
     metadata_chunk := c; userdata_chunk := userdata_chunk sc;
     data := data sc |}.

Definition set_userdata_chunk (c : option buffer) (sc : schunk_header)
  : schunk_header :=
  {| version := version sc; compressor := compressor sc; clevel := clevel sc;
     filters := filters sc; filters_meta := filters_meta sc;
     nchunks := nchunks sc; nbytes := nbytes sc; cbytes := cbytes sc;
     filters_chunk := filters_chunk sc; codec_chunk := codec_chunk sc;
     metadata_chunk := metadata_chunk sc; userdata_chunk := c;
     data := data sc |}.

Definition set_data (d : option (list buffer)) (sc : schunk_header)
  : schunk_header :=
  {| version := version sc; compressor := compressor sc; clevel := clevel sc;
     filters := filters sc; filters_meta := filters_meta sc;
     nchunks := nchunks sc; nbytes := nbytes sc; cbytes := cbytes sc;
     filters_chunk := filters_chunk sc; codec_chunk := codec_chunk sc;
     metadata_chunk := metadata_chunk sc; userdata_chunk := userdata_chunk sc;
     data := d |}.

(** The two fields of the chunk prefix that the engine reads, as total
    functions for the statements ([0] where the buffer is too short for
    the field). *)
Definition chunk_nbytes (chunk : buffer) : Z :=
  match load_i32 chunk 4 with Some v => v | None => 0 end.
Definition chunk_cbytes (chunk : buffer) : Z :=
  match load_i32 chunk 12 with Some v => v | None => 0 end.

(** ** The codecs

    The block codec ([blosc_compress], [blosc_decompress], its
    process-wide settings) and the delta codec are not part of
    [schunk.c].  A codec call that writes through [dest] takes the
    destination buffer and returns its new content next to the C result,
    which is an [int]. *)
Class Codec := {
  (** the settings behind [blosc_set_compressor] and [blosc_set_schunk] *)
  codec_state : Type;
  compname : Type;
  blosc_compcode_to_compname : Z -> compname;
  blosc_set_compressor : compname -> codec_state -> codec_state;
  blosc_set_schunk : schunk_header -> codec_state -> codec_state;
  (** [blosc_compress(clevel, doshuffle, typesize, nbytes, src, dest,
      destsize)] *)
  blosc_compress :
    codec_state -> Z -> Z -> Z -> Z -> buffer -> buffer -> Z -> Z * buffer;
  (** [blosc_decompress(src, dest, destsize)] *)
  blosc_decompress : codec_state -> buffer -> buffer -> Z -> Z * buffer;
  (** [delta_encoder8(filters_chunk, offset, nbytes, src, dest)] *)
  delta_encoder8 : buffer -> Z -> Z -> buffer -> buffer -> buffer;
  (** [delta_decoder8(filters_chunk, offset, nbytes, dest)] *)
  delta_decoder8 : buffer -> Z -> Z -> buffer -> buffer
}.

(** The state of the process outside the super-chunk: the codec's
    settings and the number of heap blocks that are allocated. *)
Record process `{Codec} := {
  codec : codec_state;
  heap_blocks : Z
}.

Section Engine.
Context `{BloscH} `{Codec}.

(** *** The heap

    [malloc] hands out a block of [n] bytes and never fails; the process
    counts the blocks that are allocated. *)
Definition malloc (n : Z) : buffer := repeat malloc_fill (Z.to_nat n).

Definition malloc_block (ps : process) : process :=
  {| codec := codec ps; heap_blocks := heap_blocks ps + 1 |}.
Definition free_block (ps : process) : process :=
  {| codec := codec ps; heap_blocks := heap_blocks ps - 1 |}.
(** [free(p)] for a pointer that may be [NULL]. *)
Definition free_chunk (p : option buffer) (ps : process) : process :=
  match p with Some _ => free_block ps | None => ps end.
Definition set_codec (c : codec_state) (ps : process) : process :=
  {| codec := c; heap_blocks := heap_blocks ps |}.

(** [realloc(data, n * sizeof(void* ))]: the first [n] slots are kept, new
    slots are not initialised. *)
Definition realloc_data (data_ : option (list buffer)) (n : Z) : list buffer :=
  let d := match data_ with Some d => d | None => [] end in
  firstn (Z.to_nat n) d ++ repeat [] (Z.to_nat n - length d).

(** *** Create a new super-chunk *)
Definition blosc2_new_schunk (params : schunk_params) (ps : process)
  : schunk_header * process :=
  ({| version := 0;
      compressor := p_compressor params;
      clevel := p_clevel params;
      filters := encode_filters params;
      filters_meta := p_filters_meta params;
      nchunks := 0; nbytes := 0;
      cbytes := sizeof_schunk_header;
      filters_chunk := None; codec_chunk := None;
      metadata_chunk := None; userdata_chunk := None;
      data := None |},
   malloc_block ps).

(** *** Append an existing chunk into a super-chunk

    The result is the returned [size_t], the header and the process. *)
Definition blosc2_append_chunk (sc : schunk_header) (chunk : buffer)
    (copy : bool) (ps : process) : option (Z * schunk_header * process) :=
  let nchunks_ := nchunks sc in
  nbytes_ <- load_i32 chunk 4 ;;
  cbytes_ <- load_i32 chunk 12 ;;
  '(chunk, ps) <-
    (if copy then
       chunk_copy <- load chunk 0 (size_t cbytes_) ;;
       Some (chunk_copy, malloc_block ps)
     else Some (chunk, ps)) ;;
  if nchunks_ <? 0 then None else
  let ps := match data sc with Some _ => ps | None => malloc_block ps end in
  let sc := set_data (Some (realloc_data (data sc) nchunks_ ++ [chunk])) sc in
  let sc := set_nchunks (int64 (nchunks_ + 1)) sc in
  let sc := set_nbytes (int64 (nbytes sc + nbytes_)) sc in
  let sc := set_cbytes (int64 (cbytes sc + cbytes_ + sizeof_pointer)) sc in
  Some (size_t (nchunks_ + 1), sc, ps).

(** *** Set a delta reference for the super-chunk

    The result is the returned [int].  When the codec fails after an old
    reference was freed, the C field keeps the stale pointer; the model
    keeps the old buffer in the field. *)
Definition blosc2_set_delta_ref (sc : schunk_header) (nbytes_ : Z)
    (ref : buffer) (ps : process) : option (Z * schunk_header * process) :=
  let dec_filters := decode_filters (filters sc) in
  let ps := malloc_block ps in
  f0 <- nth_error dec_filters 0 ;;
  if f0 =? BLOSC_DELTA then
    '(sc, ps) <-
      match filters_chunk sc with
      | Some fc =>
          v <- load_u32 fc 4 ;;
          Some (set_cbytes (int64 (cbytes sc - v)) sc, free_block ps)
      | None => Some (sc, ps)
      end ;;
    let ps := free_block ps in
    let destsize := size_t (nbytes_ + BLOSC_MAX_OVERHEAD) in
    let filters_chunk_ := malloc destsize in
    let ps := malloc_block ps in
    let '(cbytes_, filters_chunk_) :=
      blosc_compress (codec ps) 0 0 1 nbytes_ ref filters_chunk_ destsize in
    if cbytes_ <? 0 then Some (cbytes_, sc, free_block ps)
    else
      let sc := set_filters_chunk (Some filters_chunk_) sc in
      let sc := set_cbytes (int64 (cbytes sc + cbytes_)) sc in
      Some (cbytes_, sc, ps)
  else Some (-1, sc, ps).

(** *** Append a data buffer to a super-chunk *)

(** "Apply filters prior to compress": [inl] is the early [return] of
    [(size_t)ret], [inr] carries [doshuffle] on to the compression. *)
Definition append_buffer_filters (sc : schunk_header) (nbytes_ : Z)
    (src : buffer) (dec_filters : list Z) (ps : process)
  : option (Z * schunk_header * process + Z * schunk_header * process) :=
  f0 <- nth_error dec_filters 0 ;;
  if f0 =? BLOSC_DELTA then
    doshuffle <- nth_error dec_filters 1 ;;
    match filters_chunk sc with
    | None =>
        '(ret, sc, ps) <- blosc2_set_delta_ref sc nbytes_ src ps ;;
        if ret <? 0 then Some (inl (size_t ret, sc, ps))
        else Some (inr (doshuffle, sc, ps))
    | Some _ => Some (inr (doshuffle, sc, ps))
    end
  else Some (inr (f0, sc, ps)).

(** The settings the codec sees at the compression of
    [blosc2_append_buffer]. *)
Definition append_buffer_codec (sc : schunk_header) (ps : process)
  : codec_state :=
  blosc_set_schunk sc
    (blosc_set_compressor (blosc_compcode_to_compname (compressor sc))
       (codec ps)).

Definition blosc2_append_buffer (sc : schunk_header) (typesize nbytes_ : Z)
    (src : buffer) (ps : process) : option (Z * schunk_header * process) :=
  let destsize := size_t (nbytes_ + BLOSC_MAX_OVERHEAD) in
  let chunk := malloc destsize in
  let ps := malloc_block ps in
  let dec_filters := decode_filters (filters sc) in
  let ps := malloc_block ps in
  let clevel_ := clevel sc in
  r <- append_buffer_filters sc nbytes_ src dec_filters ps ;;
  match r with
  | inl early => Some early
  | inr (doshuffle, sc, ps) =>
      let ps := free_block ps in
      let ps := set_codec (append_buffer_codec sc ps) ps in
      let '(cbytes_, chunk) :=
        blosc_compress (codec ps) clevel_ doshuffle typesize nbytes_ src
          chunk destsize in
      if cbytes_ <? 0 then Some (size_t cbytes_, sc, free_block ps)
      else blosc2_append_chunk sc chunk false ps
  end.

(** *** Decompress and return a chunk that is part of a super-chunk *)

(** The bounds test of both retrieve functions: [nchunk >= nchunks]. *)
Definition index_guard (nchunk nchunks_ : Z) : bool := nchunks_ <=? nchunk.

(** [data[nchunk]] *)
Definition data_at (d : list buffer) (nchunk : Z) : option buffer :=
  if nchunk <? 0 then None else nth_error d (Z.to_nat nchunk).

(** The result is the returned [int], the header, the destination buffer
    and the process. *)
Definition blosc2_decompress_chunk (sc : schunk_header) (nchunk : Z)
    (dest : buffer) (nbytes_ : Z) (ps : process)
  : option (Z * schunk_header * buffer * process) :=
  let nchunks_ := nchunks sc in
  let ps := malloc_block ps in   (* filters = decode_filters(...) *)
  if index_guard nchunk nchunks_ then Some (-10, sc, dest, ps) else
  d <- data sc ;;
  src <- data_at d nchunk ;;
  nbytes__ <- load_i32 src 4 ;;
  if nbytes_ <? nbytes__ then Some (-11, sc, dest, ps) else
  let ps := set_codec (blosc_set_schunk sc (codec ps)) ps in
  let '(chunksize, dest) :=
    blosc_decompress (codec ps) src dest (size_t nbytes_) in
  let ps := free_block ps in
  Some (chunksize, sc, dest, ps).

(** *** Free all memory from a super-chunk *)
Definition blosc2_destroy_schunk (sc : schunk_header) (ps : process)
  : option (Z * process) :=
  let ps := free_chunk (filters_chunk sc) ps in
  let ps := free_chunk (codec_chunk sc) ps in
  let ps := free_chunk (metadata_chunk sc) ps in
  let ps := free_chunk (userdata_chunk sc) ps in
  ps <- match data sc with
        | Some d =>
            if (Z.of_nat (length d) <? nchunks sc)
               || (INT_MAX <? nchunks sc) then None
            else Some (free_block
                         (fold_left (fun ps _ => free_block ps)
                            (firstn (Z.to_nat (nchunks sc)) d) ps))
        | None => Some ps
        end ;;
  Some (0, free_block ps).

(** *** Compute the final length of a packed super-chunk *)
Definition add_chunk_cbytes (chunk : option buffer) (length_ : Z) : option Z :=
  match chunk with
  | Some c => cb <- load_i32 c 12 ;; Some (int64 (length_ + cb))
  | None => Some length_
  end.

(** The loop over [data]: [n] iterations are left and [i] is the index. *)
Fixpoint packed_length_loop (d : list buffer) (n : nat) (i : Z) (length_ : Z)
  : option Z :=
  match n with
  | O => Some length_
  | S n' =>
      let length_ := int64 (length_ + 8) in
      c <- data_at d i ;;
      cb <- load_i32 c 12 ;;
      i' <- next_int i ;;
      packed_length_loop d n' i' (int64 (length_ + cb))
  end.

Definition blosc2_get_packed_length (sc : schunk_header) : option Z :=
  let length_ := BLOSC_HEADER_PACKED_LENGTH in
  length_ <- add_chunk_cbytes (filters_chunk sc) length_ ;;
  length_ <- add_chunk_cbytes (codec_chunk sc) length_ ;;
  length_ <- add_chunk_cbytes (metadata_chunk sc) length_ ;;
  length_ <- add_chunk_cbytes (userdata_chunk sc) length_ ;;
  match data sc with
  | Some d => packed_length_loop d (Z.to_nat (nchunks sc)) 0 length_
  | None => Some length_
  end.

(** *** The first 40 bytes of the header *)

(** Modelled from the spec: the layout of the first 40 bytes of
    [schunk_header], whose declaration ([blosc.h]) is not part of the
    sources.  Bytes 0 to 3 are the byte fields [version], [compressor],
    [clevel] and [filters_meta]; bytes 4, 6 and 8 start the 16-bit
    compressor code, level and filters word; [nchunks], [nbytes] and
    [cbytes] are the 64-bit fields at 16, 24 and 32. *)
Definition header_prefix (sc : schunk_header) : buffer :=
  [byte.of_Z (version sc); byte.of_Z (compressor sc);
   byte.of_Z (clevel sc); byte.of_Z (filters_meta sc)]
  ++ le_split 2 (compressor sc) ++ le_split 2 (clevel sc)
  ++ le_split 2 (filters sc) ++ repeat Byte.x00 6
  ++ le_split 8 (nchunks sc) ++ le_split 8 (nbytes sc)
  ++ le_split 8 (cbytes sc).

(** Modelled from the spec: a zeroed [schunk_header] whose first 40 bytes
    are [hdr], read with the layout of [header_prefix]. *)
Definition header_of_prefix (hdr : buffer) : schunk_header :=
  {| version := le_combine (firstn 1 hdr);
     compressor := le_combine (firstn 1 (skipn 1 hdr));
     clevel := le_combine (firstn 1 (skipn 2 hdr));
     filters_meta := le_combine (firstn 1 (skipn 3 hdr));
     filters := le_combine (firstn 2 (skipn 8 hdr));
     nchunks := int64 (le_combine (firstn 8 (skipn 16 hdr)));
     nbytes := int64 (le_combine (firstn 8 (skipn 24 hdr)));
     cbytes := int64 (le_combine (firstn 8 (skipn 32 hdr)));
     filters_chunk := None; codec_chunk := None;
     metadata_chunk := None; userdata_chunk := None;
     data := None |}.

(** *** Copy a chunk into a packed super-chunk

    The result is the image and the counters [*cbytes] and [*nbytes]. *)
Definition pack_copy_chunk (chunk : option buffer) (packed : buffer)
    (offset : Z) (cbytes_ nbytes_ : Z) : option (buffer * Z * Z) :=
  match chunk with
  | Some c =>
      nb <- load_i32 c 4 ;;
      cb <- load_i32 c 12 ;;
      bs <- load c 0 (size_t cb) ;;
      packed <- store packed (size_t cbytes_) bs ;;
      packed <- store_i64 packed offset cbytes_ ;;
      Some (packed, int64 (cbytes_ + cb), int64 (nbytes_ + nb))
  | None =>
      packed <- store_i64 packed offset 0 ;;
      Some (packed, cbytes_, nbytes_)
  end.

(** "Fill the actual data chunks": [data_pointers] is the offset of the
    table in the image. *)
Fixpoint pack_data_loop (d : list buffer) (data_pointers : Z) (n : nat)
    (i : Z) (packed : buffer) (cbytes_ nbytes_ : Z)
  : option (buffer * Z * Z) :=
  match n with
  | O => Some (packed, cbytes_, nbytes_)
  | S n' =>
      data_chunk <- data_at d i ;;
      nb <- load_i32 data_chunk 4 ;;
      cb <- load_i32 data_chunk 12 ;;
      bs <- load data_chunk 0 (size_t cb) ;;
      packed <- store packed cbytes_ bs ;;
      packed <- store_int 8 packed (data_pointers + 8 * i) cbytes_ ;;
      i' <- next_int i ;;
      pack_data_loop d data_pointers n' i' packed
        (int64 (cbytes_ + cb)) (int64 (nbytes_ + nb))
  end.

(** *** Create a packed super-chunk

    A failed [assert] aborts the program: no result. *)
Definition blosc2_pack_schunk (sc : schunk_header) (ps : process)
  : option (buffer * process) :=
  let cbytes_ := BLOSC_HEADER_PACKED_LENGTH in
  let nbytes_ := BLOSC_HEADER_PACKED_LENGTH in
  let nchunks_ := nchunks sc in
  packed_len <- blosc2_get_packed_length sc ;;
  let packed := malloc (size_t packed_len) in
  let ps := malloc_block ps in
  packed <- store packed 0 (header_prefix sc) ;;
  '(packed, cbytes_, nbytes_) <-
    pack_copy_chunk (filters_chunk sc) packed 40 cbytes_ nbytes_ ;;
  '(packed, cbytes_, nbytes_) <-
    pack_copy_chunk (codec_chunk sc) packed 48 cbytes_ nbytes_ ;;
  '(packed, cbytes_, nbytes_) <-
    pack_copy_chunk (metadata_chunk sc) packed 56 cbytes_ nbytes_ ;;
  '(packed, cbytes_, nbytes_) <-
    pack_copy_chunk (userdata_chunk sc) packed 64 cbytes_ nbytes_ ;;
  let data_offsets_len := uint64 (nchunks_ * 8) in
  let data_pointers := packed_len - data_offsets_len in
  packed <- store_int 8 packed 72 (uint64 (packed_len - data_offsets_len)) ;;
  '(packed, cbytes_, nbytes_) <-
    match data sc with
    | Some d =>
        pack_data_loop d data_pointers (Z.to_nat nchunks_) 0 packed
          cbytes_ nbytes_
    | None => Some (packed, cbytes_, nbytes_)
    end ;;
  let cbytes_ := int64 (cbytes_ + data_offsets_len) in
  let nbytes_ := int64 (nbytes_ + data_offsets_len) in
  if negb (cbytes_ =? packed_len) then None else
  packed <- store_i64 packed 16 nchunks_ ;;
  packed <- store_i64 packed 24 nbytes_ ;;
  packed <- store_i64 packed 32 cbytes_ ;;
  Some (packed, ps).

(** *** Copy a chunk out of a packed super-chunk

    The result is the new chunk ([NULL] when the offset field is 0), the
    header and the counters [*nbytes] and [*cbytes]. *)
Definition unpack_copy_chunk (packed : buffer) (offset : Z)
    (sc : schunk_header) (nbytes_ cbytes_ : Z) (ps : process)
  : option (option buffer * schunk_header * Z * Z * process) :=
  off <- load_i64 packed offset ;;
  if off =? 0 then Some (None, sc, nbytes_, cbytes_, ps) else
  nb <- load_i32 packed (off + 4) ;;
  cb <- load_i32 packed (off + 12) ;;
  dst_chunk <- load packed off (size_t cb) ;;
  let ps := malloc_block ps in
  let sc := set_nbytes (int64 (nbytes sc + nb)) sc in
  let sc := set_cbytes (int64 (cbytes sc + cb)) sc in
  Some (Some dst_chunk, sc, int64 (nbytes_ + nb), int64 (cbytes_ + cb), ps).

(** [a[i] = x] on an array of pointers *)
Definition set_slot (a : list buffer) (i : Z) (x : buffer)
  : option (list buffer) :=
  if (0 <=? i) && (i <? Z.of_nat (length a))
  then Some (firstn (Z.to_nat i) a ++ x :: skipn (Z.to_nat i + 1) a)
  else None.

(** "Create the actual data chunks": [data_] is the offset of the table
    in the image and [slots] the array [sc_header->data]. *)
Fixpoint unpack_data_loop (packed : buffer) (data_ : Z) (n : nat) (i : Z)
    (slots : list buffer) (nbytes_ cbytes_ : Z) (ps : process)
  : option (list buffer * Z * Z * process) :=
  match n with
  | O => Some (slots, nbytes_, cbytes_, ps)
  | S n' =>
      off <- load_i64 packed (data_ + 8 * i) ;;
      chunk_size <- load_i32 packed (off + 12) ;;
      new_chunk <- load packed off (size_t chunk_size) ;;
      let ps := malloc_block ps in
      slots <- set_slot slots i new_chunk ;;
      let cbytes_ := int64 (cbytes_ + chunk_size) in
      nb <- load_i32 packed (off + 4) ;;
      i' <- next_int i ;;
      unpack_data_loop packed data_ n' i' slots
        (int64 (nbytes_ + nb)) cbytes_ ps
  end.

(** A pointer [packed + off] compared with [NULL], for the image at
    address [packed_addr]. *)
Definition is_null (packed_addr off : Z) : bool :=
  uint64 (packed_addr + off) =? 0.

(** *** Unpack a packed super-chunk

    [malloc(0)] is taken to return a block. *)
Definition blosc2_unpack_schunk (packed_addr : Z) (packed : buffer)
    (ps : process) : option (schunk_header * process) :=
  let ps := malloc_block ps in
  let nbytes_ := BLOSC_HEADER_PACKED_LENGTH in
  let cbytes_ := BLOSC_HEADER_PACKED_LENGTH in
  hdr <- load packed 0 40 ;;
  let sc := header_of_prefix hdr in
  '(c, sc, nbytes_, cbytes_, ps) <-
    unpack_copy_chunk packed 40 sc nbytes_ cbytes_ ps ;;
  let sc := set_filters_chunk c sc in
  '(c, sc, nbytes_, cbytes_, ps) <-
    unpack_copy_chunk packed 48 sc nbytes_ cbytes_ ps ;;
  let sc := set_codec_chunk c sc in
  '(c, sc, nbytes_, cbytes_, ps) <-
    unpack_copy_chunk packed 56 sc nbytes_ cbytes_ ps ;;
  let sc := set_metadata_chunk c sc in
  '(c, sc, nbytes_, cbytes_, ps) <-
    unpack_copy_chunk packed 64 sc nbytes_ cbytes_ ps ;;
  let sc := set_userdata_chunk c sc in
  data_ <- load_i64 packed 72 ;;
  nchunks_ <- load_i64 packed 16 ;;
  let slots := repeat [] (Z.to_nat nchunks_) in
  let ps := malloc_block ps in
  let nbytes_ := int64 (nbytes_ + nchunks_ * 8) in
  let cbytes_ := int64 (cbytes_ + nchunks_ * 8) in
  '(slots, nbytes_, cbytes_, ps) <-
    (if is_null packed_addr data_ then Some (slots, nbytes_, cbytes_, ps)
     else unpack_data_loop packed data_ (Z.to_nat nchunks_) 0 slots
            nbytes_ cbytes_ ps) ;;
  let sc := set_data (Some slots) sc in
  let sc := set_nbytes nbytes_ sc in
  let sc := set_cbytes cbytes_ sc in
  v24 <- load_i64 packed 24 ;;
  v32 <- load_i64 packed 32 ;;
  if negb (v24 =? nbytes_) || negb (v32 =? cbytes_) then None
  else Some (sc, ps).

(** *** Append an existing chunk into a packed super-chunk *)

(** [realloc(packed, n)] on an image. *)
Definition realloc (m : buffer) (n : Z) : buffer :=
  firstn (Z.to_nat n) m ++ repeat malloc_fill (Z.to_nat n - length m).

Definition blosc2_packed_append_chunk (packed chunk : buffer)
  : option buffer :=
  nchunks_ <- load_i64 packed 16 ;;
  packed_len <- load_i64 packed 32 ;;
  data_offsets <- load_i64 packed 72 ;;
  let chunk_offset := uint64 (packed_len - nchunks_ * 8) in
  nbytes_ <- load_i32 chunk 4 ;;
  cbytes_ <- load_i32 chunk 12 ;;
  let packed := realloc packed (size_t (packed_len + cbytes_ + 8)) in
  let data_ := data_offsets in
  let new_data := data_ + cbytes_ in
  (* memmove *)
  table <- load packed data_ (size_t (nchunks_ * 8)) ;;
  packed <- store packed new_data table ;;
  packed <- store_int 8 packed (new_data + 8 * nchunks_) chunk_offset ;;
  bs <- load chunk 0 (size_t cbytes_) ;;
  packed <- store packed chunk_offset bs ;;
  v16 <- load_i64 packed 16 ;;
  packed <- store_int 8 packed 16 (v16 + 1) ;;
  v24 <- load_u64 packed 24 ;;
  packed <- store_int 8 packed 24 (v24 + (nbytes_ + 8)) ;;
  v32 <- load_u64 packed 32 ;;
  packed <- store_int 8 packed 32 (v32 + (cbytes_ + 8)) ;;
  v72 <- load_u64 packed 72 ;;
  packed <- store_int 8 packed 72 (v72 + cbytes_) ;;
  Some packed.

(** *** Append a data buffer to a packed super-chunk

    The result is the returned pointer: [None] is [NULL], and the image
    the caller passed is then as it was. *)
Definition blosc2_packed_append_buffer (packed_addr : Z) (packed : buffer)
    (typesize nbytes_ : Z) (src : buffer) (ps : process)
  : option (option buffer * process) :=
  cname <- load_i16 packed 4 ;;
  clevel_ <- load_i16 packed 6 ;;
  filters_chunk_ <- load_u64 packed 40 ;;
  enc_filters <- load_u16 packed 8 ;;
  let filters_ := decode_filters enc_filters in
  let ps := malloc_block ps in
  let destsize := size_t (nbytes_ + BLOSC_MAX_OVERHEAD) in
  let chunk := malloc destsize in
  let ps := malloc_block ps in
  let dest := malloc (size_t nbytes_) in
  let ps := malloc_block ps in
  f0 <- nth_error filters_ 0 ;;
  r <- (if f0 =? BLOSC_DELTA then
          doshuffle <- nth_error filters_ 1 ;;
          if is_null packed_addr filters_chunk_ then Some None
          else
            fc <- from_ptr packed filters_chunk_ ;;
            let dest := delta_encoder8 fc 0 (int nbytes_) src dest in
            Some (Some (doshuffle, dest))
        else Some (Some (f0, src))) ;;
  match r with
  | None => Some (None, ps)
  | Some (doshuffle, src) =>
      let ps :=
        set_codec (blosc_set_compressor (blosc_compcode_to_compname cname)
                     (codec ps)) ps in
      let '(cbytes_, chunk) :=
        blosc_compress (codec ps) clevel_ doshuffle typesize nbytes_ src
          chunk destsize in
      if cbytes_ <? 0 then
        Some (None, free_block (free_block (free_block ps)))
      else
        let ps := free_block (free_block ps) in
        new_packed <- blosc2_packed_append_chunk packed chunk ;;
        Some (Some new_packed, free_block ps)
  end.

(** *** Decompress and return a chunk that is part of a packed super-chunk

    The result is the returned [int], the buffer left in [*dest] ([None]
    when [*dest] was not assigned) and the process. *)
Definition blosc2_packed_decompress_chunk (packed : buffer) (nchunk : Z)
    (ps : process) : option (Z * option buffer * process) :=
  nchunks_ <- load_i64 packed 16 ;;
  enc_filters <- load_u16 packed 8 ;;
  let filters_ := decode_filters enc_filters in
  let ps := malloc_block ps in
  filters_chunk_ <- load_u64 packed 40 ;;
  data_ <- load_i64 packed 72 ;;
  if index_guard nchunk nchunks_ then Some (-10, None, ps) else
  off <- load_i64 packed (data_ + 8 * nchunk) ;;
  src <- from_ptr packed off ;;
  nbytes_ <- load_i32 packed (off + 4) ;;
  let dest := malloc (size_t nbytes_) in
  let ps := malloc_block ps in
  let '(chunksize, dest) :=
    blosc_decompress (codec ps) src dest (size_t nbytes_) in
  if chunksize <? 0 then Some (chunksize, Some dest, ps) else
  if negb (chunksize =? nbytes_) then Some (-11, Some dest, ps) else
  f0 <- nth_error filters_ 0 ;;
  dest <- (if f0 =? BLOSC_DELTA then
             fc <- from_ptr packed filters_chunk_ ;;
             Some (delta_decoder8 fc 0 nbytes_ dest)
           else Some dest) ;;
  Some (chunksize, Some dest, free_block ps).

End Engine.

(** * The vocabulary of the properties *)

(** The chunks of a super-chunk, and the sums of their prefix fields. *)
Definition chunks (sc : schunk_header) : list buffer :=
  match data sc with Some d => d | None => [] end.

Definition sum_nbytes (l : list buffer) : Z :=
  fold_right (fun c s => chunk_nbytes c + s) 0 l.
Definition sum_cbytes (l : list buffer) : Z :=
  fold_right (fun c s => chunk_cbytes c + s) 0 l.

(** The ancillary chunks that are present. *)
Definition ancillary (sc : schunk_header) : list buffer :=
  let present (c : option buffer) :=
    match c with Some b => [b] | None => [] end in
  present (filters_chunk sc) ++ present (codec_chunk sc)
  ++ present (metadata_chunk sc) ++ present (userdata_chunk sc).

(** [sc'] differs from [sc] at most in [filters_chunk] and [cbytes]. *)
Definition reference_only (sc sc' : schunk_header) : Prop :=
  sc' = set_cbytes (cbytes sc') (set_filters_chunk (filters_chunk sc') sc).

(** A chunk of the codec in a buffer: the [cbytes] of its prefix covers
    the prefix and lies within the buffer.  The chunk proper is the first
    [cbytes] bytes. *)
Definition wf_chunk (c : buffer) : Prop :=
  16 <= chunk_cbytes c <= Z.of_nat (length c).

Definition chunk_bytes (c : buffer) : buffer :=
  firstn (Z.to_nat (chunk_cbytes c)) c.

Definition opt_cbytes (c : option buffer) : Z :=
  match c with Some c => chunk_cbytes c | None => 0 end.
Definition opt_nbytes (c : option buffer) : Z :=
  match c with Some c => chunk_nbytes c | None => 0 end.

(** The word of a pipeline: slot [i] weighs [8 ^ i]. *)
Fixpoint filters_word (l : list Z) : Z :=
  match l with
  | [] => 0
  | f :: l' => f + 8 * filters_word l'
  end.

(** The heap blocks a super-chunk owns: the header, the ancillary chunks
    that are present, and the array of chunk pointers with its chunks. *)
Definition owned_blocks (sc : schunk_header) : Z :=
  1 + Z.of_nat (length (ancillary sc))
  + match data sc with
    | Some d => 1 + Z.of_nat (length d)
    | None => 0
    end.

(** [sc] with one more chunk at the end of its vector. *)
Definition snoc_chunk (sc : schunk_header) (chunk : buffer) : schunk_header :=
  set_nchunks (nchunks sc + 1) (set_data (Some (chunks sc ++ [chunk])) sc).

Section Vocabulary.
Context {blosc_h : BloscH} {codec_ops : Codec}.

(** The super-chunks made by [blosc2_new_schunk] and grown by the append
    operations and [blosc2_set_delta_ref].  A chunk handed to
    [blosc2_append_chunk] is a chunk of the codec: its [cbytes] covers the
    16-byte prefix. *)
Inductive reachable : schunk_header -> Prop :=
| reach_new params ps :
    reachable (fst (blosc2_new_schunk params ps))
| reach_append_chunk sc chunk copy ps r sc' ps' :
    reachable sc ->
    16 <= chunk_cbytes chunk ->
    blosc2_append_chunk sc chunk copy ps = Some (r, sc', ps') ->
    reachable sc'
| reach_set_delta_ref sc nbytes_ ref ps r sc' ps' :
    reachable sc ->
    blosc2_set_delta_ref sc nbytes_ ref ps = Some (r, sc', ps') ->
    reachable sc'
| reach_append_buffer sc typesize nbytes_ src ps r sc' ps' :
    reachable sc ->
    blosc2_append_buffer sc typesize nbytes_ src ps = Some (r, sc', ps') ->
    reachable sc'.

(** The counters of the chunk vector. *)
Definition data_counted (sc : schunk_header) : Prop :=
  nchunks sc = int64 (Z.of_nat (length (chunks sc)))
  /\ Z.of_nat (length (chunks sc)) <= 2 ^ 63
  /\ nbytes sc = int64 (sum_nbytes (chunks sc)).

(** The length of the image of a super-chunk, and the [nbytes] that
    [blosc2_pack_schunk] writes into it. *)
Definition packed_size (sc : schunk_header) : Z :=
  BLOSC_HEADER_PACKED_LENGTH + sum_cbytes (ancillary sc)
  + sum_cbytes (chunks sc) + nchunks sc * 8.

Definition packed_nbytes (sc : schunk_header) : Z :=
  BLOSC_HEADER_PACKED_LENGTH + sum_nbytes (ancillary sc)
  + sum_nbytes (chunks sc) + nchunks sc * 8.

(** A super-chunk whose chunks are chunks, whose count is the length of
    its vector and fits the [int] counter of the loops, and whose image
    fits a 64-bit size; the header of the image has room for the fields
    up to byte 80. *)
Definition wf_schunk (sc : schunk_header) : Prop :=
  Forall wf_chunk (ancillary sc)
  /\ Forall wf_chunk (chunks sc)
  /\ nchunks sc = Z.of_nat (length (chunks sc))
  /\ nchunks sc <= INT_MAX
  /\ 80 <= BLOSC_HEADER_PACKED_LENGTH
  /\ packed_size sc < 2 ^ 63.

(** The field at [field] holds the offset [o] of the ancillary chunk, and
    the chunk is at [o]; the field is 0 for no chunk. *)
Definition anc_at (packed : buffer) (field : Z) (chunk : option buffer)
    (o : Z) : Prop :=
  load_i64 packed field
  = Some (match chunk with Some _ => o | None => 0 end)
  /\ forall c, chunk = Some c ->
               load packed o (chunk_cbytes c) = Some (chunk_bytes c).

(** The layout of the image of [sc]. *)
Definition image_of (sc : schunk_header) (packed : buffer) : Prop :=
  let o1 := BLOSC_HEADER_PACKED_LENGTH in
  let o2 := o1 + opt_cbytes (filters_chunk sc) in
  let o3 := o2 + opt_cbytes (codec_chunk sc) in
  let o4 := o3 + opt_cbytes (metadata_chunk sc) in
  let o5 := o4 + opt_cbytes (userdata_chunk sc) in
  let table := o5 + sum_cbytes (chunks sc) in
  Z.of_nat (length packed) = packed_size sc
  /\ load_i64 packed 16 = Some (nchunks sc)
  /\ load_i64 packed 24 = Some (int64 (packed_nbytes sc))
  /\ load_i64 packed 32 = Some (packed_size sc)
  /\ anc_at packed 40 (filters_chunk sc) o1
  /\ anc_at packed 48 (codec_chunk sc) o2
  /\ anc_at packed 56 (metadata_chunk sc) o3
  /\ anc_at packed 64 (userdata_chunk sc) o4
  /\ load_i64 packed 72 = Some table
  /\ forall j c,
       nth_error (chunks sc) j = Some c ->
       let o := o5 + sum_cbytes (firstn j (chunks sc)) in
       load_i64 packed (table + 8 * Z.of_nat j) = Some o
       /\ load packed o (chunk_cbytes c) = Some (chunk_bytes c).

(** The header after [unpack_copy_chunk]. *)
Definition count_chunk (chunk : option buffer) (sc : schunk_header)
  : schunk_header :=
  match chunk with
  | Some c =>
      let sc := set_nbytes (int64 (nbytes sc + chunk_nbytes c)) sc in
      set_cbytes (int64 (cbytes sc + chunk_cbytes c)) sc
  | None => sc
  end.

(** [cbytes] counts the header, the data chunks and one pointer for each
    of them. *)
Definition cbytes_counted (sc : schunk_header) : Prop :=
  cbytes sc
  = int64 (sizeof_schunk_header + sum_cbytes (chunks sc)
           + Z.of_nat (length (chunks sc)) * sizeof_pointer).

(** A super-chunk made at the process state [ps0] and grown, call after
    call, by the operations that succeed: appends of copied chunks,
    installations of the reference and appends of buffers.  The process
    is the one each call returns. *)
Inductive grown (ps0 : process) : schunk_header -> process -> Prop :=
| grown_new params :
    grown ps0 (fst (blosc2_new_schunk params ps0))
      (snd (blosc2_new_schunk params ps0))
| grown_append_chunk sc ps chunk r sc' ps' :
    grown ps0 sc ps ->
    (16 <= length chunk)%nat ->
    0 <= chunk_cbytes chunk <= Z.of_nat (length chunk) ->
    nchunks sc < INT_MAX ->
    blosc2_append_chunk sc chunk true ps = Some (r, sc', ps') ->
    grown ps0 sc' ps'
| grown_set_delta_ref sc ps nbytes_ ref r sc' ps' :
    grown ps0 sc ps ->
    blosc2_set_delta_ref sc nbytes_ ref ps = Some (r, sc', ps') ->
    0 <= r ->
    grown ps0 sc' ps'
| grown_append_buffer sc ps typesize nbytes_ src r sc' ps' :
    grown ps0 sc ps ->
    nchunks sc < INT_MAX ->
    blosc2_append_buffer sc typesize nbytes_ src ps = Some (r, sc', ps') ->
    nchunks sc' <> nchunks sc ->
    grown ps0 sc' ps'.

End Vocabulary.

(** * Instances for the examples *)

(** The constants of a 64-bit build. *)
#[export] Instance blosc_h_64 : BloscH := {|
  BLOSC_MAX_FILTERS := 5;
  BLOSC_DELTA := 3;
  BLOSC_MAX_OVERHEAD := 16;
  BLOSC_HEADER_PACKED_LENGTH := 96;
  sizeof_schunk_header := 96;
  sizeof_pointer := 8;
  malloc_fill := Byte.x00
|}.

(** A codec that stores: a chunk is the 16-byte prefix ([nbytes] at 4,
    [cbytes] at 12) followed by the source bytes.  Like the block codec
    it answers [-10] to a compression level outside [0..9] and [0] when
    the destination is too small. *)
Definition store_compress (st : unit) (clevel_ doshuffle typesize nbytes_ : Z)
    (src dest : buffer) (destsize : Z) : Z * buffer :=
  if (clevel_ <? 0) || (9 <? clevel_) then (-10, dest)
  else if destsize <? nbytes_ + 16 then (0, dest)
  else
    let chunk :=
      [byte.of_Z 2; byte.of_Z 1; byte.of_Z 2; byte.of_Z typesize]
      ++ le_split 4 nbytes_ ++ le_split 4 nbytes_
      ++ le_split 4 (nbytes_ + 16) ++ firstn (Z.to_nat nbytes_) src in
    (nbytes_ + 16, chunk ++ skipn (length chunk) dest).

Definition store_decompress (st : unit) (src dest : buffer) (destsize : Z)
  : Z * buffer :=
  let nbytes_ := le_combine (firstn 4 (skipn 4 src)) in
  if destsize <? nbytes_ then (-1, dest)
  else (nbytes_,
        firstn (Z.to_nat nbytes_) (skipn 16 src)
        ++ skipn (Z.to_nat nbytes_) dest).

Definition byte_xor (a b : byte) : byte :=
  byte.of_Z (Z.lxor (byte.unsigned a) (byte.unsigned b)).

(** The delta codec of the examples: the first [nbytes] bytes are
    combined with the payload of the reference chunk. *)
Definition xor_delta (fc : buffer) (offset nbytes_ : Z) (src dest : buffer)
  : buffer :=
  let out :=
    map (fun p => byte_xor (fst p) (snd p))
      (combine (firstn (Z.to_nat nbytes_) src)
         (skipn (16 + Z.to_nat offset) fc)) in
  out ++ skipn (length out) dest.

#[export] Instance store_codec : Codec := {|
  codec_state := unit;
  compname := Z;
  blosc_compcode_to_compname := fun code => code;
  blosc_set_compressor := fun _ st => st;
  blosc_set_schunk := fun _ st => st;
  blosc_compress := store_compress;
  blosc_decompress := store_decompress;
  delta_encoder8 := xor_delta;
  delta_decoder8 := fun fc offset nbytes_ dest =>
                      xor_delta fc offset nbytes_ dest dest
|}.

Definition ps0 : process := {| codec := tt; heap_blocks := 0 |}.

(** Bytes from their values. *)
Definition bytes (l : list Z) : buffer := map byte.of_Z l.

(** A pipeline whose slot 0 is [BLOSC_DELTA], on the 64-bit build. *)
Definition delta_params (clevel_ : Z) : schunk_params :=
  {| p_filters := [3; 1; 0; 0; 0]; p_filters_meta := 0;
     p_compressor := 1; p_clevel := clevel_ |}.

Definition delta_schunk (clevel_ : Z) : schunk_header :=
  fst (blosc2_new_schunk (delta_params clevel_) ps0).

(** Two calls of [blosc2_set_delta_ref], the second on the result of the
    first. *)
Definition set_delta_ref_twice (sc : schunk_header) (n1 : Z) (ref1 : buffer)
    (n2 : Z) (ref2 : buffer) (ps : process)
  : option (schunk_header * schunk_header) :=
  '(_, sc1, ps1) <- blosc2_set_delta_ref sc n1 ref1 ps ;;
  '(_, sc2, _) <- blosc2_set_delta_ref sc1 n2 ref2 ps1 ;;
  Some (sc1, sc2).

(** The image of a fresh super-chunk under DELTA: no reference chunk. *)
Definition delta_image : buffer :=
  match blosc2_pack_schunk (delta_schunk 5) ps0 with
  | Some (packed, _) => packed
  | None => []
  end.

(** One buffer of four bytes appended to a fresh super-chunk under
    DELTA. *)
Definition delta_appended : schunk_header :=
  match blosc2_append_buffer (delta_schunk 5) 1 4 (bytes [1; 2; 3; 4]) ps0 with
  | Some (_, sc, _) => sc
  | None => delta_schunk 5
  end.

(** A super-chunk under DELTA whose level the codec rejects, and the
    state in which its first append reaches the compression. *)
Definition rejected_filters_stage
  : option (Z * schunk_header * process + Z * schunk_header * process) :=
  append_buffer_filters (delta_schunk 10) 4 (bytes [1; 2; 3; 4])
    (decode_filters (filters (delta_schunk 10)))
    (malloc_block (malloc_block ps0)).

Definition rejected_header : schunk_header :=
  match rejected_filters_stage with
  | Some (inr (_, sc, _)) => sc
  | _ => delta_schunk 10
  end.

Definition rejected_process : process :=
  match rejected_filters_stage with
  | Some (inr (_, _, ps)) => ps
  | _ => ps0
  end.

(** The image of [delta_appended]. *)
Definition delta_appended_image : buffer :=
  match blosc2_pack_schunk delta_appended ps0 with
  | Some (packed, _) => packed
  | None => []
  end.

(** Packing and unpacking at address 4096. *)
Definition unpack_pack (sc : schunk_header) : option schunk_header :=
  '(packed, _) <- blosc2_pack_schunk sc ps0 ;;
  '(sc', _) <- blosc2_unpack_schunk 4096 packed ps0 ;;
  Some sc'.

(** A chunk of 18 bytes: 2 bytes behind the prefix. *)
Definition small_chunk : buffer :=
  bytes [2; 1; 2; 1; 2; 0; 0; 0; 2; 0; 0; 0; 18; 0; 0; 0; 7; 7].

(** A pipeline without DELTA: the byte shuffle only. *)
Definition plain_params : schunk_params :=
  {| p_filters := [1; 0; 0; 0; 0]; p_filters_meta := 0;
     p_compressor := 1; p_clevel := 5 |}.

Definition plain_schunk : schunk_header :=
  fst (blosc2_new_schunk plain_params ps0).

(** One buffer of four bytes appended to it, and the image of the
    result. *)
Definition plain_appended : schunk_header :=
  match blosc2_append_buffer plain_schunk 1 4 (bytes [1; 2; 3; 4]) ps0 with
  | Some (_, sc, _) => sc
  | None => plain_schunk
  end.

Definition plain_image : buffer :=
  match blosc2_pack_schunk plain_appended ps0 with
  | Some (packed, _) => packed
  | None => []
  end.

(** A codec that rejects every buffer. *)
Definition reject_codec : Codec := {|
  codec_state := unit;
  compname := Z;
  blosc_compcode_to_compname := fun code => code;
  blosc_set_compressor := fun _ st => st;
  blosc_set_schunk := fun _ st => st;
  blosc_compress := fun _ _ _ _ _ _ dest _ => (-1, dest);
  blosc_decompress := fun _ _ dest _ => (-1, dest);
  delta_encoder8 := fun _ _ _ _ dest => dest;
  delta_decoder8 := fun _ _ _ dest => dest
|}.

Definition reject_ps0 : @process reject_codec :=
  @Build_process reject_codec tt 0.

(** The reference chunk and the data chunk of [delta_appended]. *)
Definition delta_reference : buffer :=
  match filters_chunk delta_appended with Some c => c | None => [] end.
Definition delta_chunk0 : buffer := nth 0 (chunks delta_appended) [].

(** The process after the append that made [delta_appended], started at
    [ps0] and started where [blosc2_new_schunk] left the process. *)
Definition delta_appended_process : process :=
  match blosc2_append_buffer (delta_schunk 5) 1 4 (bytes [1; 2; 3; 4]) ps0 with
  | Some (_, _, ps) => ps
  | None => ps0
  end.

Definition delta_lifecycle_process : process :=
  match blosc2_append_buffer (delta_schunk 5) 1 4 (bytes [1; 2; 3; 4])
          (snd (blosc2_new_schunk (delta_params 5) ps0)) with
  | Some (_, _, ps) => ps
  | None => ps0
  end.

(** The image of [delta_appended] with the table pointer made [NULL]
    for the address 4096, and the counters at bytes 24 and 32 set to
    what the unpacking then sums up (no data chunk is read). *)
Definition null_table_image : buffer :=
  match
    (m <- store_i64 delta_appended_image 72 (-4096) ;;
     m <- store_i64 m 24 (96 + 4 + 8) ;;
     store_i64 m 32 (96 + 20 + 8))
  with
  | Some m => m
  | None => []
  end.

(** * Properties *)

(** ** C integers: facts *)

Lemma sint_small w z :
  0 < w -> - 2 ^ (w - 1) <= z < 2 ^ (w - 1) -> sint w z = z.
Proof.
  intros Hw Hz. unfold sint.
  assert (E : 2 ^ w = 2 * 2 ^ (w - 1)).
  { replace w with (1 + (w - 1)) at 1 by lia.
    rewrite Z.pow_add_r by lia. reflexivity. }
  rewrite Z.mod_small by lia. lia.
Qed.

Lemma sint_add_l w a b : 0 < w -> sint w (sint w a + b) = sint w (a + b).
Proof.
  intros Hw. unfold sint. f_equal.
  replace ((a + 2 ^ (w - 1)) mod 2 ^ w - 2 ^ (w - 1) + b + 2 ^ (w - 1))
    with ((a + 2 ^ (w - 1)) mod 2 ^ w + b) by lia.
  rewrite Z.add_mod_idemp_l by (apply Z.pow_nonzero; lia).
  f_equal. lia.
Qed.

Lemma int64_small z : - 2 ^ 63 <= z < 2 ^ 63 -> int64 z = z.
Proof. intros; apply sint_small; simpl; lia. Qed.

Lemma int64_add_l a b : int64 (int64 a + b) = int64 (a + b).
Proof. apply sint_add_l; lia. Qed.

Lemma int64_range z : - 2 ^ 63 <= int64 z < 2 ^ 63.
Proof.
  unfold int64, sint.
  pose proof (Z.mod_pos_bound (z + 2 ^ (64 - 1)) (2 ^ 64) eq_refl).
  change (2 ^ (64 - 1)) with (2 ^ 63) in *.
  change (2 ^ 64) with (2 * 2 ^ 63) in *. lia.
Qed.

Lemma int64_idem a : int64 (int64 a) = int64 a.
Proof. apply int64_small, int64_range. Qed.

Lemma int64_eq a b : (a - b) mod 2 ^ 64 = 0 -> int64 a = int64 b.
Proof.
  intros E. unfold int64, sint. f_equal.
  replace (a + 2 ^ (64 - 1)) with ((a - b) + (b + 2 ^ (64 - 1))) by lia.
  rewrite Z.add_mod, E, Z.add_0_l, Z.mod_mod by (apply Z.pow_nonzero; lia).
  reflexivity.
Qed.

(** Equations between 64-bit sums that wrap at different places. *)
Ltac int64_solve :=
  apply int64_eq; unfold int64, sint; Z.push_pull_mod;
  match goal with |- ?x mod _ = 0 => replace x with 0 by lia end;
  reflexivity.

Lemma uint64_small z : 0 <= z < 2 ^ 64 -> uint64 z = z.
Proof. intros; apply Z.mod_small; assumption. Qed.

(** ** Buffers: facts *)

Lemma load_Some m off n :
  0 <= off -> 0 <= n -> off + n <= Z.of_nat (length m) ->
  load m off n = Some (firstn (Z.to_nat n) (skipn (Z.to_nat off) m)).
Proof.
  intros H0 H1 H2. unfold load.
  destruct (Z.leb_spec 0 off); [ | lia ].
  destruct (Z.leb_spec 0 n); [ | lia ].
  destruct (Z.leb_spec (off + n) (Z.of_nat (length m))); [ | lia ].
  reflexivity.
Qed.

Lemma load_inv m off n bs :
  load m off n = Some bs ->
  0 <= off /\ 0 <= n /\ off + n <= Z.of_nat (length m)
  /\ bs = firstn (Z.to_nat n) (skipn (Z.to_nat off) m).
Proof.
  unfold load.
  destruct (Z.leb_spec 0 off); simpl; [ | discriminate ].
  destruct (Z.leb_spec 0 n); simpl; [ | discriminate ].
  destruct (Z.leb_spec (off + n) (Z.of_nat (length m))); [ | discriminate ].
  intros [= <-]. auto.
Qed.

Lemma load_length m off n bs :
  load m off n = Some bs -> length bs = Z.to_nat n.
Proof.
  intros L. apply load_inv in L. destruct L as (? & ? & ? & ->).
  rewrite length_firstn, length_skipn. lia.
Qed.

Lemma load_sint_Some k m off :
  0 <= off -> off + Z.of_nat k <= Z.of_nat (length m) ->
  exists v, load_sint k m off = Some v.
Proof.
  intros H0 H1. unfold load_sint, load_uint.
  rewrite load_Some by lia. eauto.
Qed.

Lemma chunk_nbytes_load chunk v : load_i32 chunk 4 = Some v -> chunk_nbytes chunk = v.
Proof. unfold chunk_nbytes. intros ->. reflexivity. Qed.

Lemma chunk_cbytes_load chunk v : load_i32 chunk 12 = Some v -> chunk_cbytes chunk = v.
Proof. unfold chunk_cbytes. intros ->. reflexivity. Qed.

Lemma load_chunk_nbytes chunk :
  (8 <= length chunk)%nat -> load_i32 chunk 4 = Some (chunk_nbytes chunk).
Proof.
  intros L. destruct (load_sint_Some 4 chunk 4) as [v E]; try lia.
  unfold load_i32. rewrite E. f_equal. symmetry. apply chunk_nbytes_load, E.
Qed.

Lemma load_chunk_cbytes chunk :
  (16 <= length chunk)%nat -> load_i32 chunk 12 = Some (chunk_cbytes chunk).
Proof.
  intros L. destruct (load_sint_Some 4 chunk 12) as [v E]; try lia.
  unfold load_i32. rewrite E. f_equal. symmetry. apply chunk_cbytes_load, E.
Qed.

(** ** Buffers: stores *)

Lemma store_Some m off bs :
  0 <= off -> off + Z.of_nat (length bs) <= Z.of_nat (length m) ->
  store m off bs
  = Some (firstn (Z.to_nat off) m ++ bs
          ++ skipn (Z.to_nat off + length bs) m).
Proof.
  intros A B. unfold store.
  destruct (Z.leb_spec 0 off); [ | lia ].
  destruct (Z.leb_spec (off + Z.of_nat (length bs)) (Z.of_nat (length m)));
    [ reflexivity | lia ].
Qed.

Lemma store_inv m off bs m' :
  store m off bs = Some m' ->
  0 <= off /\ off + Z.of_nat (length bs) <= Z.of_nat (length m)
  /\ m' = firstn (Z.to_nat off) m ++ bs
          ++ skipn (Z.to_nat off + length bs) m.
Proof.
  unfold store.
  destruct (Z.leb_spec 0 off); simpl; [ | discriminate ].
  destruct (Z.leb_spec (off + Z.of_nat (length bs)) (Z.of_nat (length m)));
    [ | discriminate ].
  intros [= <-]. auto.
Qed.

Lemma store_length m off bs m' :
  store m off bs = Some m' -> length m' = length m.
Proof.
  intros S. apply store_inv in S. destruct S as (A & B & ->).
  rewrite !length_app, length_firstn, length_skipn. lia.
Qed.

Lemma load_store_same m off bs m' :
  store m off bs = Some m' ->
  load m' off (Z.of_nat (length bs)) = Some bs.
Proof.
  intros S. pose proof (store_length _ _ _ _ S) as L.
  apply store_inv in S. destruct S as (A & B & ->).
  rewrite load_Some by lia. f_equal.
  rewrite skipn_app, length_firstn.
  replace (skipn (Z.to_nat off) (firstn (Z.to_nat off) m)) with (@nil byte)
    by (symmetry; apply skipn_all2; rewrite length_firstn; lia).
  replace (Z.to_nat off - Init.Nat.min (Z.to_nat off) (length m))%nat
    with 0%nat by lia.
  simpl. rewrite Nat2Z.id, firstn_app, Nat.sub_diag, firstn_all.
  simpl. rewrite app_nil_r. reflexivity.
Qed.

Lemma load_store_other m off bs m' off2 n :
  store m off bs = Some m' ->
  off2 + n <= off \/ off + Z.of_nat (length bs) <= off2 ->
  load m' off2 n = load m off2 n.
Proof.
  intros S D. pose proof (store_length _ _ _ _ S) as L.
  apply store_inv in S. destruct S as (A & B & E).
  unfold load. rewrite L.
  destruct ((0 <=? off2) && (0 <=? n) && (off2 + n <=? Z.of_nat (length m)))
    eqn:G; [ | reflexivity ].
  apply andb_prop in G. destruct G as [G G3].
  apply andb_prop in G. destruct G as [G1 G2].
  apply Z.leb_le in G1, G2, G3. f_equal. subst m'.
  destruct D as [D | D].
  - rewrite skipn_app, firstn_app, length_skipn, !length_firstn.
    replace (Z.to_nat n
             - (Init.Nat.min (Z.to_nat off) (length m) - Z.to_nat off2))%nat
      with 0%nat by lia.
    simpl. rewrite app_nil_r, skipn_firstn_comm, firstn_firstn.
    f_equal. lia.
  - rewrite app_assoc, skipn_app.
    replace (skipn (Z.to_nat off2) (firstn (Z.to_nat off) m ++ bs))
      with (@nil byte)
      by (symmetry; apply skipn_all2;
          rewrite length_app, length_firstn; lia).
    simpl. rewrite length_app, length_firstn, skipn_skipn.
    do 2 f_equal. lia.
Qed.

(** Integers in a buffer. *)
Lemma load_uint_store_int k m off v m' :
  store_int k m off v = Some m' ->
  load_uint k m' off = Some (v mod 2 ^ (Z.of_nat k * 8)).
Proof.
  intros S. unfold store_int in S. apply load_store_same in S.
  rewrite length_le_split in S. unfold load_uint. rewrite S.
  rewrite le_combine_split. reflexivity.
Qed.

Lemma sint_mod w z : 0 < w -> sint w (z mod 2 ^ w) = sint w z.
Proof.
  intros W. unfold sint. f_equal.
  rewrite Z.add_mod_idemp_l by (apply Z.pow_nonzero; lia). reflexivity.
Qed.

Lemma load_sint_store_int k m off v m' :
  (0 < k)%nat ->
  store_int k m off v = Some m' ->
  load_sint k m' off = Some (sint (Z.of_nat k * 8) v).
Proof.
  intros K S. unfold load_sint.
  rewrite (load_uint_store_int _ _ _ _ _ S).
  rewrite sint_mod by lia. reflexivity.
Qed.

Lemma load_i64_store m off v m' :
  store_int 8 m off v = Some m' -> - 2 ^ 63 <= v < 2 ^ 63 ->
  load_i64 m' off = Some v.
Proof.
  intros S R. unfold load_i64.
  rewrite (load_sint_store_int 8 _ _ _ _ ltac:(lia) S).
  f_equal. apply int64_small, R.
Qed.

Lemma load_store_int_other k m off v m' off2 n :
  store_int k m off v = Some m' ->
  off2 + n <= off \/ off + Z.of_nat k <= off2 ->
  load m' off2 n = load m off2 n.
Proof.
  intros S D. unfold store_int in S.
  apply (load_store_other _ _ _ _ _ _ S). rewrite length_le_split. exact D.
Qed.

Lemma store_int_Some k m off v :
  0 <= off -> off + Z.of_nat k <= Z.of_nat (length m) ->
  exists m', store_int k m off v = Some m'.
Proof.
  intros A B. unfold store_int. rewrite store_Some; eauto.
  rewrite length_le_split. exact B.
Qed.

(** Loads of integers are loads of bytes: a frame for bytes is a frame
    for integers. *)
Lemma load_sint_frame k m m' off :
  load m' off (Z.of_nat k) = load m off (Z.of_nat k) ->
  load_sint k m' off = load_sint k m off.
Proof. unfold load_sint, load_uint. intros ->. reflexivity. Qed.

Lemma load_uint_frame k m m' off :
  load m' off (Z.of_nat k) = load m off (Z.of_nat k) ->
  load_uint k m' off = load_uint k m off.
Proof. unfold load_uint. intros ->. reflexivity. Qed.

(** ** The filter descriptor *)

Example encode_filters_ex :
  encode_filters {| p_filters := [1; 2; 3; 0; 7]; p_filters_meta := 0;
                    p_compressor := 1; p_clevel := 5 |} = 28881.
Proof. reflexivity. Qed.

Example decode_filters_ex : decode_filters 28881 = [1; 2; 3; 0; 3].
Proof. reflexivity. Qed.

Lemma land_3 x : 0 <= x -> Z.land x 3 = x mod 4.
Proof.
  intros P. change 3 with (Z.ones 2). rewrite Z.land_ones by lia.
  reflexivity.
Qed.

(** With the five slots of the 64-bit build, and slots in [0..7], the
    word is the sum of the slots weighted by powers of 8, and decoding
    returns each slot modulo 4: the pipeline is recovered exactly when
    every slot is below 4. *)
Lemma decode_encode_filters_mod4 (a b c d e meta comp cl : Z) :
  0 <= a <= 7 -> 0 <= b <= 7 -> 0 <= c <= 7 -> 0 <= d <= 7 -> 0 <= e <= 7 ->
  let params := {| p_filters := [a; b; c; d; e]; p_filters_meta := meta;
                   p_compressor := comp; p_clevel := cl |} in
  encode_filters params = a + b * 8 + c * 64 + d * 512 + e * 4096
  /\ decode_filters (encode_filters params)
     = [a mod 4; b mod 4; c mod 4; d mod 4; e mod 4].
Proof.
  intros A B C D E params.
  assert (W : encode_filters params
              = a + b * 8 + c * 64 + d * 512 + e * 4096).
  { unfold encode_filters, params.
    cbn [BLOSC_MAX_FILTERS blosc_h_64 seq fold_left p_filters nth].
    unfold uint16, uint.
    rewrite !Z.shiftl_mul_pow2 by lia.
    change (Z.of_nat 0 * 3) with 0. change (Z.of_nat 1 * 3) with 3.
    change (Z.of_nat 2 * 3) with 6. change (Z.of_nat 3 * 3) with 9.
    change (Z.of_nat 4 * 3) with 12.
    change (2 ^ 0) with 1. change (2 ^ 3) with 8. change (2 ^ 6) with 64.
    change (2 ^ 9) with 512. change (2 ^ 12) with 4096.
    change (2 ^ 16) with 65536.
    rewrite (Z.mod_small (0 + a * 1)) by lia.
    rewrite (Z.mod_small (0 + a * 1 + b * 8)) by lia.
    rewrite (Z.mod_small (0 + a * 1 + b * 8 + c * 64)) by lia.
    rewrite (Z.mod_small (0 + a * 1 + b * 8 + c * 64 + d * 512)) by lia.
    rewrite Z.mod_small by lia. lia. }
  split; [ exact W | ]. rewrite W.
  unfold decode_filters.
  cbn [BLOSC_MAX_FILTERS blosc_h_64 decode_filters_loop].
  unfold uint16, uint8, uint.
  rewrite !Z.shiftr_div_pow2 by lia. change (2 ^ 3) with 8.
  change (2 ^ 16) with 65536. change (2 ^ 8) with 256.
  assert (W1 : (a + b * 8 + c * 64 + d * 512 + e * 4096) / 8
               = b + c * 8 + d * 64 + e * 512)
    by (symmetry; apply Z.div_unique with (r := a); lia).
  rewrite W1. rewrite (Z.mod_small (b + c * 8 + d * 64 + e * 512)) by lia.
  assert (W2 : (b + c * 8 + d * 64 + e * 512) / 8 = c + d * 8 + e * 64)
    by (symmetry; apply Z.div_unique with (r := b); lia).
  rewrite W2. rewrite (Z.mod_small (c + d * 8 + e * 64)) by lia.
  assert (W3 : (c + d * 8 + e * 64) / 8 = d + e * 8)
    by (symmetry; apply Z.div_unique with (r := c); lia).
  rewrite W3. rewrite (Z.mod_small (d + e * 8)) by lia.
  assert (W4 : (d + e * 8) / 8 = e)
    by (symmetry; apply Z.div_unique with (r := d); lia).
  rewrite W4. rewrite (Z.mod_small e 65536) by lia.
  rewrite !land_3 by lia.
  assert (M : forall x, (x mod 4) mod 256 = x mod 4).
  { intros x. apply Z.mod_small.
    pose proof (Z.mod_pos_bound x 4 ltac:(lia)). lia. }
  rewrite !M.
  assert (E1 : (a + b * 8 + c * 64 + d * 512 + e * 4096) mod 4 = a mod 4).
  { replace (a + b * 8 + c * 64 + d * 512 + e * 4096)
      with (a + (b * 2 + c * 16 + d * 128 + e * 1024) * 4) by lia.
    apply Z.mod_add. lia. }
  assert (E2 : (b + c * 8 + d * 64 + e * 512) mod 4 = b mod 4).
  { replace (b + c * 8 + d * 64 + e * 512)
      with (b + (c * 2 + d * 16 + e * 128) * 4) by lia.
    apply Z.mod_add. lia. }
  assert (E3 : (c + d * 8 + e * 64) mod 4 = c mod 4).
  { replace (c + d * 8 + e * 64) with (c + (d * 2 + e * 16) * 4) by lia.
    apply Z.mod_add. lia. }
  assert (E4 : (d + e * 8) mod 4 = d mod 4).
  { replace (d + e * 8) with (d + (e * 2) * 4) by lia.
    apply Z.mod_add. lia. }
  rewrite E1, E2, E3, E4. reflexivity.
Qed.

(** C2: [decode_filters] is not the inverse of [encode_filters] on slots
    in [0..7]: the pipeline [[4; 0; 0; 0; 0]] has every slot in range,
    is encoded as the word [4], and is decoded as [[0; 0; 0; 0; 0]],
    because the decoder masks each slot with [0x3]. *)
Theorem decode_encode_filters_slot4 :
  let params := {| p_filters := [4; 0; 0; 0; 0]; p_filters_meta := 0;
                   p_compressor := 1; p_clevel := 5 |} in
  Forall (fun f => 0 <= f <= 7) (p_filters params)
  /\ length (p_filters params) = BLOSC_MAX_FILTERS
  /\ encode_filters params = 4
  /\ decode_filters (encode_filters params) = [0; 0; 0; 0; 0]
  /\ decode_filters (encode_filters params) <> p_filters params.
Proof.
  cbv zeta. split; [ | split; [ | split; [ | split ] ] ].
  - repeat constructor; lia.
  - reflexivity.
  - reflexivity.
  - reflexivity.
  - discriminate.
Qed.

(** *** The word and its slots *)

Section FilterWord.
Context {blosc_h : BloscH}.

Lemma filters_word_bound l :
  Forall (fun f => 0 <= f <= 7) l -> 0 <= filters_word l < 8 ^ Z.of_nat (length l).
Proof.
  induction 1 as [|f l F _ IH]; cbn [filters_word length].
  - change (8 ^ Z.of_nat 0) with 1. lia.
  - rewrite Nat2Z.inj_succ, Z.pow_succ_r by lia. lia.
Qed.

Lemma pow8_le5 (n : nat) : (n <= 5)%nat -> 8 ^ Z.of_nat n <= 2 ^ 15.
Proof.
  intros L. change (2 ^ 15) with (8 ^ 5).
  apply Z.pow_le_mono_r; lia.
Qed.

Lemma shiftl_slot f (i : nat) : Z.shiftl f (Z.of_nat i * 3) = f * 8 ^ Z.of_nat i.
Proof.
  rewrite Z.shiftl_mul_pow2 by lia. f_equal.
  rewrite Z.mul_comm, Z.pow_mul_r by lia. reflexivity.
Qed.

(** The loop of [encode_filters] from slot [length pre] on, as long as
    the sum fits 16 bits. *)
Lemma encode_filters_loop l :
  forall pre acc,
    Forall (fun f => 0 <= f <= 7) l -> 0 <= acc ->
    acc + 8 ^ Z.of_nat (length pre) * filters_word l < 2 ^ 16 ->
    fold_left
      (fun enc_filters i =>
         uint16 (enc_filters
                 + Z.shiftl (nth i (pre ++ l) 0) (Z.of_nat i * 3)))
      (seq (length pre) (length l)) acc
    = acc + 8 ^ Z.of_nat (length pre) * filters_word l.
Proof.
  induction l as [|f l IH]; intros pre acc F A B.
  - cbn [length seq fold_left filters_word]. lia.
  - apply Forall_cons_iff in F. destruct F as [Ff Fl].
    pose proof (filters_word_bound l Fl) as W.
    assert (P : 0 < 8 ^ Z.of_nat (length pre)) by (apply Z.pow_pos_nonneg; lia).
    cbn [filters_word] in B |- *.
    cbn [length seq fold_left].
    rewrite nth_middle, shiftl_slot.
    assert (U : uint16 (acc + f * 8 ^ Z.of_nat (length pre))
                = acc + f * 8 ^ Z.of_nat (length pre))
      by (apply Z.mod_small; nia).
    rewrite U.
    replace (pre ++ f :: l) with ((pre ++ [f]) ++ l)
      by (rewrite <- app_assoc; reflexivity).
    replace (S (length pre)) with (length (pre ++ [f]))
      by (rewrite length_app; cbn [length]; lia).
    rewrite IH; try assumption.
    + rewrite length_app. cbn [length].
      rewrite Nat2Z.inj_add. change (Z.of_nat 1) with 1.
      rewrite Z.pow_add_r by lia. change (8 ^ 1) with 8. lia.
    + nia.
    + rewrite length_app. cbn [length].
      rewrite Nat2Z.inj_add. change (Z.of_nat 1) with 1.
      rewrite Z.pow_add_r by lia. change (8 ^ 1) with 8. lia.
Qed.

Lemma encode_filters_filters_word params :
  length (p_filters params) = BLOSC_MAX_FILTERS ->
  (BLOSC_MAX_FILTERS <= 5)%nat ->
  Forall (fun f => 0 <= f <= 7) (p_filters params) ->
  encode_filters params = filters_word (p_filters params).
Proof.
  intros L M F. unfold encode_filters. rewrite <- L.
  pose proof (filters_word_bound _ F) as W.
  pose proof (pow8_le5 (length (p_filters params)) ltac:(lia)) as P.
  pose proof (encode_filters_loop (p_filters params) [] 0 F) as E.
  cbn [length app] in E. change (8 ^ Z.of_nat 0) with 1 in E.
  rewrite E; lia.
Qed.

(** The loop of [decode_filters] on the word of slots in [0..7]: each
    slot comes back modulo 4. *)
Lemma decode_filters_loop_word l :
  Forall (fun f => 0 <= f <= 7) l -> filters_word l < 2 ^ 16 ->
  decode_filters_loop (length l) (filters_word l)
  = map (fun f => f mod 4) l.
Proof.
  induction 1 as [|f l F Fl IH]; intros B; [ reflexivity | ].
  pose proof (filters_word_bound l Fl) as W.
  cbn [filters_word] in B |- *. cbn [length decode_filters_loop map].
  assert (E : Z.land (f + 8 * filters_word l) 3 = (f + 8 * filters_word l) mod 4)
    by (change 3 with (Z.ones 2); apply Z.land_ones; lia).
  rewrite E. clear E.
  rewrite Z.shiftr_div_pow2 by lia. change (2 ^ 3) with 8.
  replace (f + 8 * filters_word l) with (f + filters_word l * 8) by lia.
  rewrite Z.div_add, (Z.div_small f 8), Z.add_0_l by lia.
  replace (f + filters_word l * 8) with (f + (filters_word l * 2) * 4) by lia.
  rewrite Z.mod_add by lia.
  unfold uint8, uint16, uint.
  pose proof (Z.mod_pos_bound f 4 ltac:(lia)).
  rewrite (Z.mod_small (f mod 4)) by lia.
  rewrite (Z.mod_small (filters_word l)) by lia.
  rewrite IH by lia. reflexivity.
Qed.

(** X1: [decode_filters] returns [BLOSC_MAX_FILTERS] slots, and every
    slot it returns is in [0..3], whatever the word: the mask [0x3] keeps
    two bits of each 3-bit field. *)
Theorem decode_filters_slots (enc_filters : Z) :
  length (decode_filters enc_filters) = BLOSC_MAX_FILTERS
  /\ Forall (fun f => 0 <= f <= 3) (decode_filters enc_filters).
Proof.
  unfold decode_filters. generalize BLOSC_MAX_FILTERS as n.
  intros n. revert enc_filters.
  induction n as [|n IH]; intros enc; cbn [decode_filters_loop length].
  - split; [ reflexivity | constructor ].
  - destruct (IH (uint16 (Z.shiftr enc 3))) as [L F].
    split; [ rewrite L; reflexivity | ].
    constructor; [ | exact F ].
    assert (E : Z.land enc 3 = enc mod 4)
      by (change 3 with (Z.ones 2); apply Z.land_ones; lia).
    rewrite E. pose proof (Z.mod_pos_bound enc 4 ltac:(lia)).
    unfold uint8, uint. rewrite Z.mod_small by lia. lia.
Qed.

(** X2: for a pipeline of [BLOSC_MAX_FILTERS <= 5] slots, each in
    [0..7], no addition of [encode_filters] wraps: the word is the sum of
    the slots, slot [i] weighted by [8 ^ i], and it fits 15 bits. *)
Theorem encode_filters_weighted (params : schunk_params) :
  length (p_filters params) = BLOSC_MAX_FILTERS ->
  (BLOSC_MAX_FILTERS <= 5)%nat ->
  Forall (fun f => 0 <= f <= 7) (p_filters params) ->
  encode_filters params = filters_word (p_filters params)
  /\ 0 <= encode_filters params < 2 ^ 15.
Proof.
  intros L M F. rewrite (encode_filters_filters_word params L M F).
  split; [ reflexivity | ].
  pose proof (filters_word_bound _ F).
  pose proof (pow8_le5 (length (p_filters params)) ltac:(lia)). lia.
Qed.

Lemma filters_word_inj l :
  forall l', length l = length l' ->
    Forall (fun f => 0 <= f <= 7) l -> Forall (fun f => 0 <= f <= 7) l' ->
    filters_word l = filters_word l' -> l = l'.
Proof.
  induction l as [|f l IH]; intros [|f' l'] L F F' E; try discriminate.
  - reflexivity.
  - apply Forall_cons_iff in F, F'. destruct F as [Ff Fl], F' as [Ff' Fl'].
    cbn [filters_word] in E. cbn [length] in L.
    assert (f = f') by lia. subst f'.
    f_equal. apply IH; try assumption; lia.
Qed.

(** X3: on pipelines of at most five slots in [0..7], [encode_filters]
    loses nothing: two pipelines with the same word have the same
    slots. *)
Theorem encode_filters_injective (p q : schunk_params) :
  (BLOSC_MAX_FILTERS <= 5)%nat ->
  length (p_filters p) = BLOSC_MAX_FILTERS ->
  length (p_filters q) = BLOSC_MAX_FILTERS ->
  Forall (fun f => 0 <= f <= 7) (p_filters p) ->
  Forall (fun f => 0 <= f <= 7) (p_filters q) ->
  encode_filters p = encode_filters q ->
  p_filters p = p_filters q.
Proof.
  intros M Lp Lq Fp Fq E.
  rewrite (encode_filters_filters_word p Lp M Fp) in E.
  rewrite (encode_filters_filters_word q Lq M Fq) in E.
  apply filters_word_inj; try assumption. congruence.
Qed.

(** X4: [decode_filters] inverts [encode_filters] on the pipelines of at
    most five slots whose slots are all in [0..3]. *)
Theorem decode_encode_filters_below4 (params : schunk_params) :
  length (p_filters params) = BLOSC_MAX_FILTERS ->
  (BLOSC_MAX_FILTERS <= 5)%nat ->
  Forall (fun f => 0 <= f <= 3) (p_filters params) ->
  decode_filters (encode_filters params) = p_filters params.
Proof.
  intros L M F.
  assert (F7 : Forall (fun f => 0 <= f <= 7) (p_filters params)).
  { apply (Forall_impl _ (P := fun f => 0 <= f <= 3)); [ | exact F ].
    intros f; cbv beta; lia. }
  rewrite (encode_filters_filters_word params L M F7).
  unfold decode_filters. rewrite <- L.
  pose proof (filters_word_bound _ F7).
  pose proof (pow8_le5 (length (p_filters params)) ltac:(lia)).
  rewrite decode_filters_loop_word by (assumption || lia).
  clear - F. induction F as [|f l Ff _ IH]; [ reflexivity | ].
  cbn [map]. rewrite Z.mod_small by lia. f_equal. exact IH.
Qed.

End FilterWord.

(** ** The delta reference *)

Section Reference.
Context {blosc_h : BloscH} {codec_ops : Codec}.

(** What [blosc2_set_delta_ref] does to a super-chunk under DELTA that
    holds a reference: the 32-bit value at offset 4 of the old reference
    is subtracted from [cbytes], the result of the codec is added, and
    the new chunk is installed; the blocks of the old reference and of
    the decoded filters are freed and one block is allocated. *)
Lemma set_delta_ref_replace sc nbytes_ ref ps fc v cb fc' :
  let destsize := size_t (nbytes_ + BLOSC_MAX_OVERHEAD) in
  nth_error (decode_filters (filters sc)) 0 = Some BLOSC_DELTA ->
  filters_chunk sc = Some fc ->
  load_u32 fc 4 = Some v ->
  blosc_compress (codec ps) 0 0 1 nbytes_ ref (malloc destsize) destsize
  = (cb, fc') ->
  0 <= cb ->
  exists sc' ps',
    blosc2_set_delta_ref sc nbytes_ ref ps = Some (cb, sc', ps')
    /\ filters_chunk sc' = Some fc'
    /\ cbytes sc' = int64 (cbytes sc - v + cb)
    /\ reference_only sc sc'
    /\ heap_blocks ps' = heap_blocks ps.
Proof.
  intros destsize D F V C P. unfold blosc2_set_delta_ref.
  rewrite D, Z.eqb_refl, F, V. fold destsize.
  cbn [codec malloc_block free_block]. rewrite C.
  destruct (Z.ltb_spec cb 0); [ lia | ].
  eexists _, _. split; [ reflexivity | ].
  cbn [filters_chunk cbytes set_cbytes set_filters_chunk heap_blocks
       malloc_block free_block].
  split; [ reflexivity | ]. split; [ apply int64_add_l | ].
  split; [ destruct sc; reflexivity | lia ].
Qed.

End Reference.

(** C3: replacing the delta reference does not account [cbytes] once.
    On a fresh super-chunk under DELTA the first reference (4 bytes,
    a chunk of 20) brings [cbytes] from 96 to 116; the second call
    subtracts the 4 found at prefix offset 4 (the old reference's
    [nbytes]) instead of the 20 at offset 12, so that [cbytes] ends at
    132 with one 20-byte reference installed. *)
Theorem set_delta_ref_twice_cbytes :
  option_map
    (fun r : schunk_header * schunk_header =>
       let (sc1, sc2) := r in
       (cbytes (delta_schunk 5),
        option_map chunk_nbytes (filters_chunk sc1),
        option_map chunk_cbytes (filters_chunk sc1),
        cbytes sc1,
        option_map chunk_cbytes (filters_chunk sc2),
        cbytes sc2))
    (set_delta_ref_twice (delta_schunk 5) 4 (bytes [1; 2; 3; 4])
       4 (bytes [5; 6; 7; 8]) ps0)
  = Some (96, Some 4, Some 20, 116, Some 20, 132).
Proof. vm_compute. reflexivity. Qed.

(** ** Appending to a packed image under DELTA *)

Section NullTest.
Context {blosc_h : BloscH}.

(** The test of [blosc2_packed_append_buffer] for a missing reference
    compares [packed + offset] with [NULL]: for the offset 0 it compares
    the address of the image, which is not null. *)
Lemma is_null_offset_0 packed_addr :
  0 < packed_addr < 2 ^ 64 -> is_null packed_addr 0 = false.
Proof.
  intros A. unfold is_null. rewrite Z.add_0_r, uint64_small by lia.
  apply Z.eqb_neq. lia.
Qed.

End NullTest.

(** C4: [blosc2_packed_append_buffer] does not fail on an image under
    DELTA whose [filters_chunk] offset is 0.  The pointer that is tested
    against [NULL] is [packed + 0], so the test does not fire for an
    image at address 4096: the buffer is delta-encoded against the image
    header, compressed and appended, and a new image with one chunk is
    returned. *)
Theorem packed_append_buffer_delta_no_ref :
  option_map (fun enc => nth_error (decode_filters enc) 0)
    (load_u16 delta_image 8) = Some (Some BLOSC_DELTA)
  /\ load_u64 delta_image 40 = Some 0
  /\ load_i64 delta_image 16 = Some 0
  /\ exists new_packed ps,
       blosc2_packed_append_buffer 4096 delta_image 1 4
         (bytes [1; 2; 3; 4]) ps0 = Some (Some new_packed, ps)
       /\ new_packed <> delta_image
       /\ load_i64 new_packed 16 = Some 1.
Proof.
  split; [ vm_compute; reflexivity | ].
  split; [ vm_compute; reflexivity | ].
  split; [ vm_compute; reflexivity | ].
  assert (R : option_map
                (fun r : option buffer * process =>
                   option_map (fun p => load_i64 p 16) (fst r))
                (blosc2_packed_append_buffer 4096 delta_image 1 4
                   (bytes [1; 2; 3; 4]) ps0) = Some (Some (Some 1)))
    by (vm_compute; reflexivity).
  destruct (blosc2_packed_append_buffer 4096 delta_image 1 4
              (bytes [1; 2; 3; 4]) ps0) as [[[new_packed|] ps]|];
    simpl in R; try discriminate R.
  exists new_packed, ps. split; [ reflexivity | ].
  assert (L : load_i64 new_packed 16 = Some 1) by congruence.
  split; [ | exact L ].
  intros E. rewrite E in L. vm_compute in L. discriminate L.
Qed.

(** ** Retrieving a chunk of a live super-chunk *)

Section Retrieve.
Context {blosc_h : BloscH} {codec_ops : Codec}.

(** C7: [blosc2_decompress_chunk] answers [-10] to an index
    [nchunk >= nchunks]; for an index of a chunk it answers [-11] when
    the capacity [nbytes] of the destination is smaller than the
    uncompressed size read at offset 4 of the chunk's prefix.  In both
    cases the header and the destination buffer are returned as they
    were (the process keeps the block of the decoded filters, and the
    codec's settings are not touched). *)
Theorem decompress_chunk_errors (sc : schunk_header) (nchunk : Z)
    (dest : buffer) (nbytes_ : Z) (ps : process) :
  (nchunks sc <= nchunk ->
   blosc2_decompress_chunk sc nchunk dest nbytes_ ps
   = Some (-10, sc, dest, malloc_block ps))
  /\ (forall d src,
        0 <= nchunk < nchunks sc ->
        data sc = Some d ->
        nth_error d (Z.to_nat nchunk) = Some src ->
        (8 <= length src)%nat ->
        nbytes_ < chunk_nbytes src ->
        blosc2_decompress_chunk sc nchunk dest nbytes_ ps
        = Some (-11, sc, dest, malloc_block ps)).
Proof.
  unfold blosc2_decompress_chunk, index_guard. split.
  - intros G. destruct (Z.leb_spec (nchunks sc) nchunk); [ reflexivity | lia ].
  - intros d src R D S L C.
    destruct (Z.leb_spec (nchunks sc) nchunk); [ lia | ].
    rewrite D. unfold data_at.
    destruct (Z.ltb_spec nchunk 0); [ lia | ].
    rewrite S, (load_chunk_nbytes src L).
    destruct (Z.ltb_spec nbytes_ (chunk_nbytes src)); [ reflexivity | lia ].
Qed.

(** C10: the guard [nchunk >= nchunks] of both retrieve functions does
    not fire for a negative index (the count of chunks being
    non-negative).  [blosc2_decompress_chunk] goes on to read
    [data[nchunk]] outside the array: it has no defined result.
    [blosc2_packed_decompress_chunk] goes on to read the slot
    [data[nchunk]], which lies below the table: it has no defined result
    when that slot is outside the image, and whenever it returns,
    [*dest] has been assigned, which the return of [-10] at the guard
    never does. *)
Theorem negative_index_passes_guard (sc : schunk_header) (packed : buffer)
    (nchunk : Z) (dest : buffer) (nbytes_ : Z) (ps : process) :
  nchunk < 0 ->
  (0 <= nchunks sc ->
   index_guard nchunk (nchunks sc) = false
   /\ blosc2_decompress_chunk sc nchunk dest nbytes_ ps = None)
  /\ (forall nchunks_,
        load_i64 packed 16 = Some nchunks_ -> 0 <= nchunks_ ->
        index_guard nchunk nchunks_ = false
        /\ (forall data_,
              load_i64 packed 72 = Some data_ ->
              data_ + 8 * nchunk < data_
              /\ (load_i64 packed (data_ + 8 * nchunk) = None ->
                  blosc2_packed_decompress_chunk packed nchunk ps = None))
        /\ forall r d ps',
             blosc2_packed_decompress_chunk packed nchunk ps
             = Some (r, d, ps') ->
             d <> None).
Proof.
  intros N. split.
  - intros P.
    assert (G : index_guard nchunk (nchunks sc) = false)
      by (unfold index_guard; apply Z.leb_gt; lia).
    split; [ exact G | ].
    unfold blosc2_decompress_chunk. rewrite G.
    destruct (data sc) as [d|]; [ | reflexivity ].
    unfold data_at. destruct (Z.ltb_spec nchunk 0); [ reflexivity | lia ].
  - intros n L P.
    assert (G : index_guard nchunk n = false)
      by (unfold index_guard; apply Z.leb_gt; lia).
    split; [ exact G | ].
    split.
    { intros data_ L72. split; [ lia | ]. intros LN.
      unfold blosc2_packed_decompress_chunk. rewrite L.
      destruct (load_u16 packed 8); [ | reflexivity ].
      destruct (load_u64 packed 40); [ | reflexivity ].
      rewrite L72, G, LN. reflexivity. }
    intros r d ps'. unfold blosc2_packed_decompress_chunk.
    rewrite L, G.
    destruct (load_u16 packed 8); [ | discriminate ].
    destruct (load_u64 packed 40); [ | discriminate ].
    destruct (load_i64 packed 72) as [data_|]; [ | discriminate ].
    destruct (load_i64 packed (data_ + 8 * nchunk)) as [off|];
      [ | discriminate ].
    destruct (from_ptr packed off); [ | discriminate ].
    destruct (load_i32 packed (off + 4)) as [nb|]; [ | discriminate ].
    destruct (blosc_decompress _ _ _ _) as [chunksize dest'].
    destruct (chunksize <? 0); [ intros [= _ <- _]; discriminate | ].
    destruct (negb (chunksize =? nb)); [ intros [= _ <- _]; discriminate | ].
    destruct (nth_error _ 0) as [f0|]; [ | discriminate ].
    destruct (f0 =? BLOSC_DELTA).
    + destruct (from_ptr packed _); [ | discriminate ].
      intros [= _ <- _]; discriminate.
    + intros [= _ <- _]; discriminate.
Qed.

End Retrieve.

(** ** Appending to a live super-chunk *)

Section Append.
Context {blosc_h : BloscH} {codec_ops : Codec}.

Lemma sum_nbytes_app l c : sum_nbytes (l ++ [c]) = sum_nbytes l + chunk_nbytes c.
Proof. induction l as [|a l IH]; simpl; lia. Qed.

Lemma realloc_data_chunks sc :
  realloc_data (data sc) (Z.of_nat (length (chunks sc))) = chunks sc.
Proof.
  unfold realloc_data, chunks. rewrite Nat2Z.id.
  destruct (data sc) as [d|]; simpl.
  - rewrite firstn_all, Nat.sub_diag. apply app_nil_r.
  - reflexivity.
Qed.

(** A part of a loaded block is a block of the buffer. *)
Lemma load_sub m o n bs o' k :
  load m o n = Some bs -> 0 <= o' -> 0 <= k -> o' + k <= n ->
  load bs o' k = load m (o + o') k.
Proof.
  intros L H0 H1 H2. pose proof (load_length _ _ _ _ L) as LL.
  apply load_inv in L. destruct L as (? & ? & ? & ->).
  rewrite !load_Some by lia. f_equal.
  rewrite skipn_firstn_comm, firstn_firstn, skipn_skipn.
  f_equal; [ lia | f_equal; lia ].
Qed.

Lemma load_sint_sub k m o n bs o' :
  load m o n = Some bs -> 0 <= o' -> o' + Z.of_nat k <= n ->
  load_sint k bs o' = load_sint k m (o + o').
Proof.
  intros L H0 H1. unfold load_sint, load_uint.
  rewrite (load_sub _ _ _ _ _ _ L) by lia. reflexivity.
Qed.

Lemma int32_range z : - 2 ^ 31 <= int32 z < 2 ^ 31.
Proof.
  unfold int32, sint.
  pose proof (Z.mod_pos_bound (z + 2 ^ (32 - 1)) (2 ^ 32) eq_refl).
  change (2 ^ (32 - 1)) with (2 ^ 31) in *.
  change (2 ^ 32) with (2 * 2 ^ 31) in *. lia.
Qed.

Lemma load_i32_range m off v : load_i32 m off = Some v -> - 2 ^ 31 <= v < 2 ^ 31.
Proof.
  unfold load_i32, load_sint, load_uint.
  destruct (load m off (Z.of_nat 4)); [ | discriminate ].
  intros [= <-]. apply int32_range.
Qed.

Lemma chunk_cbytes_range c : - 2 ^ 31 <= chunk_cbytes c < 2 ^ 31.
Proof.
  unfold chunk_cbytes. destruct (load_i32 c 12) eqn:E.
  - apply (load_i32_range _ _ _ E).
  - lia.
Qed.

Lemma chunk_nbytes_range c : - 2 ^ 31 <= chunk_nbytes c < 2 ^ 31.
Proof.
  unfold chunk_nbytes. destruct (load_i32 c 4) eqn:E.
  - apply (load_i32_range _ _ _ E).
  - lia.
Qed.

Lemma size_t_nonneg z : 0 <= z < 2 ^ 63 -> size_t z = z.
Proof. intros; apply Z.mod_small; lia. Qed.

(** The copy that [blosc2_append_chunk] makes of a chunk has the prefix
    of the chunk. *)
Lemma chunk_copy_prefix chunk cc :
  16 <= chunk_cbytes chunk ->
  load chunk 0 (size_t (chunk_cbytes chunk)) = Some cc ->
  chunk_nbytes cc = chunk_nbytes chunk /\ chunk_cbytes cc = chunk_cbytes chunk.
Proof.
  intros W L. pose proof (chunk_cbytes_range chunk) as R.
  rewrite size_t_nonneg in L by lia.
  unfold chunk_nbytes, chunk_cbytes, load_i32.
  rewrite !(load_sint_sub 4 _ _ _ _ _ L) by lia. auto.
Qed.

Lemma append_chunk_counted sc chunk copy ps r sc' ps' :
  data_counted sc ->
  16 <= chunk_cbytes chunk ->
  blosc2_append_chunk sc chunk copy ps = Some (r, sc', ps') ->
  data_counted sc'.
Proof.
  intros (N & B & S) W. unfold blosc2_append_chunk.
  destruct (load_i32 chunk 4) as [nb|] eqn:E4; [ | discriminate ].
  destruct (load_i32 chunk 12) as [cb|] eqn:E12; [ | discriminate ].
  apply chunk_nbytes_load in E4. apply chunk_cbytes_load in E12. subst nb cb.
  destruct (if copy then _ else _) as [[chunk' ps1]|] eqn:EC; [ | discriminate ].
  destruct (Z.ltb_spec (nchunks sc) 0); [ discriminate | ].
  intros [= _ <- _].
  assert (L : Z.of_nat (length (chunks sc)) < 2 ^ 63).
  { destruct (Z.eq_dec (Z.of_nat (length (chunks sc))) (2 ^ 63)) as [E|]; [ | lia ].
    rewrite E in N. change (int64 (2 ^ 63)) with (- 2 ^ 63) in N. lia. }
  assert (N' : nchunks sc = Z.of_nat (length (chunks sc))).
  { rewrite N. apply int64_small. lia. }
  assert (NB : chunk_nbytes chunk' = chunk_nbytes chunk).
  { destruct copy.
    - destruct (load chunk 0 _) as [cc|] eqn:EL; [ | discriminate ].
      injection EC as <- _. apply (chunk_copy_prefix _ _ W EL).
    - injection EC as <- _. reflexivity. }
  unfold data_counted, chunks; simpl.
  rewrite N', realloc_data_chunks, length_app, sum_nbytes_app. simpl length.
  rewrite Nat2Z.inj_add. simpl Z.of_nat.
  split; [ reflexivity | ]. split; [ lia | ].
  rewrite S, NB. apply int64_add_l.
Qed.

Lemma reference_only_refl sc : reference_only sc sc.
Proof. destruct sc; reflexivity. Qed.

Lemma reference_only_fields sc sc' :
  reference_only sc sc' ->
  nchunks sc' = nchunks sc /\ nbytes sc' = nbytes sc /\ data sc' = data sc
  /\ filters sc' = filters sc /\ clevel sc' = clevel sc
  /\ compressor sc' = compressor sc.
Proof. intros ->. repeat split. Qed.

(** [blosc2_set_delta_ref] writes [filters_chunk] and [cbytes] only. *)
Lemma set_delta_ref_reference_only sc nbytes_ ref ps r sc' ps' :
  blosc2_set_delta_ref sc nbytes_ ref ps = Some (r, sc', ps') ->
  reference_only sc sc'.
Proof.
  unfold blosc2_set_delta_ref.
  destruct (nth_error _ 0) as [f0|]; [ | discriminate ].
  destruct (f0 =? BLOSC_DELTA).
  - destruct (filters_chunk sc) as [fc|] eqn:F.
    + destruct (load_u32 fc 4) as [v|]; [ | discriminate ].
      destruct (blosc_compress _ _ _ _ _ _ _ _) as [cb fc'].
      destruct (cb <? 0); intros [= _ <- _]; destruct sc; simpl in *;
        subst; reflexivity.
    + destruct (blosc_compress _ _ _ _ _ _ _ _) as [cb fc'].
      destruct (cb <? 0); intros [= _ <- _]; destruct sc; simpl in *;
        subst; reflexivity.
  - intros [= _ <- _]. apply reference_only_refl.
Qed.

Lemma data_counted_reference_only sc sc' :
  reference_only sc sc' -> data_counted sc -> data_counted sc'.
Proof.
  intros R. apply reference_only_fields in R.
  destruct R as (N & B & D & _). unfold data_counted, chunks.
  rewrite N, B, D. auto.
Qed.

Lemma append_buffer_filters_reference_only sc nbytes_ src dec ps :
  match append_buffer_filters sc nbytes_ src dec ps with
  | Some (inl (_, sc', _)) | Some (inr (_, sc', _)) => reference_only sc sc'
  | None => True
  end.
Proof.
  unfold append_buffer_filters.
  destruct (nth_error dec 0) as [f0|]; [ | exact I ].
  destruct (f0 =? BLOSC_DELTA); [ | apply reference_only_refl ].
  destruct (nth_error dec 1) as [f1|]; [ | exact I ].
  destruct (filters_chunk sc); [ apply reference_only_refl | ].
  destruct (blosc2_set_delta_ref sc nbytes_ src ps) as [[[ret sc'] ps']|] eqn:E;
    [ | exact I ].
  apply set_delta_ref_reference_only in E.
  destruct (ret <? 0); exact E.
Qed.

Lemma new_schunk_counted params ps :
  data_counted (fst (blosc2_new_schunk params ps)).
Proof. unfold data_counted, chunks; simpl. repeat split. lia. Qed.

Lemma append_buffer_counted sc typesize nbytes_ src ps r sc' ps' :
  data_counted sc ->
  blosc2_append_buffer sc typesize nbytes_ src ps = Some (r, sc', ps') ->
  data_counted sc'.
Proof.
  intros C. unfold blosc2_append_buffer.
  pose proof (append_buffer_filters_reference_only sc nbytes_ src
                (decode_filters (filters sc))
                (malloc_block (malloc_block ps))) as R.
  destruct (append_buffer_filters _ _ _ _ _) as [[[[ret sc1] ps1]|[[ds sc1] ps1]]|];
    [ | | discriminate ].
  - intros [= _ <- _]. apply (data_counted_reference_only _ _ R C).
  - destruct (blosc_compress _ _ _ _ _ _ _ _) as [cb chunk] eqn:EC.
    destruct (Z.ltb_spec cb 0).
    + intros [= _ <- _]. apply (data_counted_reference_only _ _ R C).
    + intros A.
      assert (C1 := data_counted_reference_only _ _ R C).
      (* without a copy the prefix of the stored chunk is the one read *)
      revert A. unfold blosc2_append_chunk.
      destruct (load_i32 chunk 4) as [nb|] eqn:E4; [ | discriminate ].
      destruct (load_i32 chunk 12) as [cb'|] eqn:E12; [ | discriminate ].
      apply chunk_nbytes_load in E4.
      destruct (Z.ltb_spec (nchunks sc1) 0); [ discriminate | ].
      intros [= _ <- _].
      destruct C1 as (N & B & S).
      assert (L : Z.of_nat (length (chunks sc1)) < 2 ^ 63).
      { destruct (Z.eq_dec (Z.of_nat (length (chunks sc1))) (2 ^ 63)) as [E|];
          [ | lia ].
        rewrite E in N. change (int64 (2 ^ 63)) with (- 2 ^ 63) in N. lia. }
      assert (N' : nchunks sc1 = Z.of_nat (length (chunks sc1))).
      { rewrite N. apply int64_small. lia. }
      unfold data_counted, chunks; simpl.
      rewrite N', realloc_data_chunks, length_app, sum_nbytes_app.
      simpl length. rewrite Nat2Z.inj_add. simpl Z.of_nat.
      split; [ reflexivity | ]. split; [ lia | ].
      rewrite S, E4. apply int64_add_l.
Qed.

Lemma reachable_counted sc : reachable sc -> data_counted sc.
Proof.
  induction 1 as [params ps
                 | sc chunk copy ps r sc' ps' _ IH W A
                 | sc nbytes_ ref ps r sc' ps' _ IH A
                 | sc typesize nbytes_ src ps r sc' ps' _ IH A].
  - apply new_schunk_counted.
  - apply (append_chunk_counted _ _ _ _ _ _ _ IH W A).
  - apply (data_counted_reference_only _ _
             (set_delta_ref_reference_only _ _ _ _ _ _ _ A) IH).
  - apply (append_buffer_counted _ _ _ _ _ _ _ _ IH A).
Qed.

(** C5 (amended): on every super-chunk made by [blosc2_new_schunk] and
    grown by the append operations, [nbytes] is the sum, as a 64-bit
    integer, of the [nbytes] of the data chunks.  The reference chunk
    installed under DELTA adds nothing to it. *)
Theorem reachable_nbytes (sc : schunk_header) :
  reachable sc -> nbytes sc = int64 (sum_nbytes (chunks sc)).
Proof. intros R. apply (reachable_counted _ R). Qed.

(** C6 (amended): when the compression of [blosc2_append_buffer] returns
    a negative code, the code is returned (as a [size_t]) and the header
    differs from the one passed at most in [filters_chunk] and [cbytes]:
    no chunk is appended and [nchunks], [nbytes] and [data] are as they
    were.  If a reference was installed already, or slot 0 is not DELTA,
    the header is the one passed and every block allocated by the call
    (the destination among them) has been freed.  On the first append
    under DELTA the reference installed before the compression stays:
    [filters_chunk] is the buffer that the compression of the reference
    has filled, the size that this compression has returned is added to
    [cbytes], and the block of the reference is kept. *)
Theorem append_buffer_compress_failure (sc : schunk_header)
    (typesize nbytes_ : Z) (src : buffer) (ps : process) (doshuffle : Z)
    (sc1 : schunk_header) (ps1 : process) :
  let destsize := size_t (nbytes_ + BLOSC_MAX_OVERHEAD) in
  append_buffer_filters sc nbytes_ src (decode_filters (filters sc))
    (malloc_block (malloc_block ps)) = Some (inr (doshuffle, sc1, ps1)) ->
  let code :=
    fst (blosc_compress (append_buffer_codec sc1 ps1) (clevel sc) doshuffle
           typesize nbytes_ src (malloc destsize) destsize) in
  code < 0 ->
  exists ps',
    blosc2_append_buffer sc typesize nbytes_ src ps
    = Some (size_t code, sc1, ps')
    /\ reference_only sc sc1
    /\ nchunks sc1 = nchunks sc /\ nbytes sc1 = nbytes sc
    /\ data sc1 = data sc
    /\ (filters_chunk sc <> None
        \/ nth_error (decode_filters (filters sc)) 0 <> Some BLOSC_DELTA ->
        sc1 = sc /\ heap_blocks ps' = heap_blocks ps)
    /\ (filters_chunk sc = None ->
        nth_error (decode_filters (filters sc)) 0 = Some BLOSC_DELTA ->
        let ref :=
          blosc_compress (codec ps) 0 0 1 nbytes_ src (malloc destsize)
            destsize in
        0 <= fst ref
        /\ filters_chunk sc1 = Some (snd ref)
        /\ cbytes sc1 = int64 (cbytes sc + fst ref)
        /\ heap_blocks ps' = heap_blocks ps + 1).
Proof.
  intros destsize F code Neg.
  pose proof (append_buffer_filters_reference_only sc nbytes_ src
                (decode_filters (filters sc))
                (malloc_block (malloc_block ps))) as R.
  rewrite F in R.
  exists (free_block
            (set_codec (append_buffer_codec sc1 (free_block ps1))
               (free_block ps1))).
  split.
  { unfold blosc2_append_buffer. fold destsize. rewrite F.
    subst code. cbn [codec set_codec free_block] in *.
    change (append_buffer_codec sc1
              {| codec := codec ps1; heap_blocks := heap_blocks ps1 - 1 |})
      with (append_buffer_codec sc1 ps1).
    destruct (blosc_compress _ _ _ _ _ _ _ _) as [cb chunk]. simpl in *.
    destruct (Z.ltb_spec cb 0); [ reflexivity | lia ]. }
  split; [ exact R | ].
  destruct (reference_only_fields _ _ R) as (N & B & D & _).
  split; [ exact N | ]. split; [ exact B | ]. split; [ exact D | ].
  clear Neg. clear code.
  revert F. unfold append_buffer_filters.
  destruct (nth_error (decode_filters (filters sc)) 0) as [f0|];
    [ | discriminate ].
  destruct (Z.eqb_spec f0 BLOSC_DELTA) as [-> | NE].
  - destruct (nth_error _ 1) as [f1|]; [ | discriminate ].
    destruct (filters_chunk sc) as [fc|] eqn:FC.
    + intros [= _ <- <-]. split.
      * intros _. split; [ reflexivity | simpl; lia ].
      * discriminate.
    + destruct (blosc2_set_delta_ref sc nbytes_ src _)
        as [[[ret sc'] ps'']|] eqn:E; [ | discriminate ].
      destruct (Z.ltb_spec ret 0); [ discriminate | ].
      intros [= _ <- <-]. split.
      * intros [C | C]; congruence.
      * intros _ _. revert E. unfold blosc2_set_delta_ref.
        destruct (nth_error _ 0) as [g0|]; [ | discriminate ].
        destruct (g0 =? BLOSC_DELTA); [ | intros [= <- _ _]; lia ].
        rewrite FC. subst destsize. cbv zeta.
        cbn [codec malloc_block free_block].
        destruct (blosc_compress _ _ _ _ _ _ _ _) as [cb fc'].
        destruct (Z.ltb_spec cb 0); [ intros [= <- _ _]; lia | ].
        intros [= <- <- <-]. simpl.
        split; [ lia | ]. split; [ reflexivity | ].
        split; [ reflexivity | lia ].
  - intros [= _ <- <-]. split.
    + intros _. split; [ reflexivity | simpl; lia ].
    + intros _ C. congruence.
Qed.

End Append.


(** ** The live super-chunk, operation by operation *)

Section Live.
Context {blosc_h : BloscH} {codec_ops : Codec}.

Lemma land_3_mod x : Z.land x 3 = x mod 4.
Proof. change 3 with (Z.ones 2). apply Z.land_ones. lia. Qed.

(** Slots 0 and 1 of the decoded pipeline, which pick the filter stage
    of the append and retrieve operations. *)
Lemma decode_filters_slot0 enc :
  (0 < BLOSC_MAX_FILTERS)%nat ->
  nth_error (decode_filters enc) 0 = Some (enc mod 4).
Proof.
  intros M. unfold decode_filters.
  destruct BLOSC_MAX_FILTERS as [|n]; [ lia | ].
  cbn [decode_filters_loop nth_error]. rewrite land_3_mod.
  pose proof (Z.mod_pos_bound enc 4 ltac:(lia)).
  unfold uint8, uint. rewrite Z.mod_small by lia. reflexivity.
Qed.

Lemma decode_filters_slot1 enc :
  (1 < BLOSC_MAX_FILTERS)%nat ->
  nth_error (decode_filters enc) 1 = Some (uint16 (Z.shiftr enc 3) mod 4).
Proof.
  intros M. unfold decode_filters.
  destruct BLOSC_MAX_FILTERS as [|[|n]]; [ lia | lia | ].
  cbn [decode_filters_loop nth_error]. rewrite land_3_mod.
  pose proof (Z.mod_pos_bound (uint16 (Z.shiftr enc 3)) 4 ltac:(lia)).
  unfold uint8, uint at 1. rewrite Z.mod_small by lia. reflexivity.
Qed.

Lemma sum_cbytes_app l c : sum_cbytes (l ++ [c]) = sum_cbytes l + chunk_cbytes c.
Proof. induction l as [|a l IH]; simpl; lia. Qed.

Lemma load_chunk_bytes chunk :
  0 <= chunk_cbytes chunk <= Z.of_nat (length chunk) ->
  load chunk 0 (size_t (chunk_cbytes chunk)) = Some (chunk_bytes chunk).
Proof.
  intros B. pose proof (chunk_cbytes_range chunk).
  rewrite size_t_nonneg by lia. rewrite load_Some by lia. reflexivity.
Qed.

Lemma append_chunk_appends (sc : schunk_header) (chunk : buffer) (copy : bool)
    (ps : process) :
  (16 <= length chunk)%nat ->
  (copy = true -> 0 <= chunk_cbytes chunk <= Z.of_nat (length chunk)) ->
  nchunks sc = Z.of_nat (length (chunks sc)) ->
  nchunks sc + 1 < 2 ^ 63 ->
  let stored := if copy then chunk_bytes chunk else chunk in
  exists sc' ps',
    blosc2_append_chunk sc chunk copy ps = Some (nchunks sc + 1, sc', ps')
    /\ data sc' = Some (chunks sc ++ [stored])
    /\ nchunks sc' = nchunks sc + 1
    /\ nbytes sc' = int64 (nbytes sc + chunk_nbytes chunk)
    /\ cbytes sc' = int64 (cbytes sc + chunk_cbytes chunk + sizeof_pointer)
    /\ ancillary sc' = ancillary sc
    /\ (version sc', compressor sc', clevel sc', filters sc', filters_meta sc')
       = (version sc, compressor sc, clevel sc, filters sc, filters_meta sc)
    /\ codec ps' = codec ps
    /\ heap_blocks ps'
       = heap_blocks ps + (if copy then 1 else 0)
         + match data sc with Some _ => 0 | None => 1 end.
Proof.
  intros L C N B stored. unfold blosc2_append_chunk. cbv zeta.
  rewrite (load_chunk_nbytes chunk) by lia.
  rewrite (load_chunk_cbytes chunk) by lia.
  assert (E : (if copy
               then chunk_copy <- load chunk 0 (size_t (chunk_cbytes chunk)) ;;
                    Some (chunk_copy, malloc_block ps)
               else Some (chunk, ps))
              = Some (stored, if copy then malloc_block ps else ps)).
  { subst stored. destruct copy; [ | reflexivity ].
    rewrite load_chunk_bytes by auto. reflexivity. }
  rewrite E. clear E.
  destruct (Z.ltb_spec (nchunks sc) 0); [ lia | ].
  replace (realloc_data (data sc) (nchunks sc)) with (chunks sc)
    by (rewrite N; symmetry; apply realloc_data_chunks).
  rewrite size_t_nonneg by lia.
  eexists _, _. split; [ reflexivity | ].
  cbn [data nchunks nbytes cbytes set_data set_nchunks set_nbytes set_cbytes
       version compressor clevel filters filters_meta].
  split; [ reflexivity | ].
  split; [ apply int64_small; lia | ].
  split; [ reflexivity | ]. split; [ reflexivity | ].
  split; [ reflexivity | ]. split; [ reflexivity | ].
  destruct copy, (data sc); cbn [codec heap_blocks malloc_block];
    split; (reflexivity || lia).
Qed.

(** X5: [blosc2_append_chunk], on a super-chunk whose [nchunks] is the
    length of its vector, returns the new count and stores the chunk (its
    first [cbytes] bytes when [copy] is set) behind the chunks that were
    there, which are kept.  [nbytes] and [cbytes] grow by the two sizes
    of the chunk's prefix, [cbytes] by one pointer more; the settings and
    the ancillary chunks are as they were, and the heap has grown by the
    copy and, at the first append, by the array. *)
Theorem append_chunk_spec (sc : schunk_header) (chunk : buffer) (copy : bool)
    (ps : process) :
  (16 <= length chunk)%nat ->
  (copy = true -> 0 <= chunk_cbytes chunk <= Z.of_nat (length chunk)) ->
  nchunks sc = Z.of_nat (length (chunks sc)) ->
  nchunks sc + 1 < 2 ^ 63 ->
  let stored := if copy then chunk_bytes chunk else chunk in
  exists sc' ps',
    blosc2_append_chunk sc chunk copy ps = Some (nchunks sc + 1, sc', ps')
    /\ data sc' = Some (chunks sc ++ [stored])
    /\ nchunks sc' = nchunks sc + 1
    /\ nbytes sc' = int64 (nbytes sc + chunk_nbytes chunk)
    /\ cbytes sc' = int64 (cbytes sc + chunk_cbytes chunk + sizeof_pointer)
    /\ ancillary sc' = ancillary sc
    /\ (version sc', compressor sc', clevel sc', filters sc', filters_meta sc')
       = (version sc, compressor sc, clevel sc, filters sc, filters_meta sc)
    /\ codec ps' = codec ps
    /\ heap_blocks ps'
       = heap_blocks ps + (if copy then 1 else 0)
         + match data sc with Some _ => 0 | None => 1 end.
Proof. exact (append_chunk_appends sc chunk copy ps). Qed.

Lemma decompress_chunk_runs (sc : schunk_header) (nchunk : Z)
    (dest : buffer) (nbytes_ : Z) (ps : process) (d : list buffer)
    (src : buffer) :
  0 <= nchunk < nchunks sc ->
  data sc = Some d ->
  nth_error d (Z.to_nat nchunk) = Some src ->
  (8 <= length src)%nat ->
  chunk_nbytes src <= nbytes_ ->
  let st := blosc_set_schunk sc (codec ps) in
  let out := blosc_decompress st src dest (size_t nbytes_) in
  exists ps',
    blosc2_decompress_chunk sc nchunk dest nbytes_ ps
    = Some (fst out, sc, snd out, ps')
    /\ codec ps' = st
    /\ heap_blocks ps' = heap_blocks ps.
Proof.
  intros R D S L C st out. unfold blosc2_decompress_chunk, index_guard.
  destruct (Z.leb_spec (nchunks sc) nchunk); [ lia | ].
  rewrite D. unfold data_at.
  destruct (Z.ltb_spec nchunk 0); [ lia | ].
  rewrite S, (load_chunk_nbytes src L).
  destruct (Z.ltb_spec nbytes_ (chunk_nbytes src)); [ lia | ].
  cbn [codec set_codec malloc_block]. fold st. fold out.
  destruct out as [chunksize dest']. eexists. split; [ reflexivity | ].
  cbn [codec heap_blocks free_block set_codec malloc_block fst snd].
  split; [ reflexivity | lia ].
Qed.

(** X6: for the index of a stored chunk and a capacity [nbytes] that is
    not smaller than the chunk's uncompressed size,
    [blosc2_decompress_chunk] returns what [blosc_decompress] returns for
    that chunk, the destination and the capacity, with this super-chunk
    as the codec's context; the super-chunk is as it was and the decoded
    filters have been freed. *)
Theorem decompress_chunk_success (sc : schunk_header) (nchunk : Z)
    (dest : buffer) (nbytes_ : Z) (ps : process) (d : list buffer)
    (src : buffer) :
  0 <= nchunk < nchunks sc ->
  data sc = Some d ->
  nth_error d (Z.to_nat nchunk) = Some src ->
  (8 <= length src)%nat ->
  chunk_nbytes src <= nbytes_ ->
  let st := blosc_set_schunk sc (codec ps) in
  let out := blosc_decompress st src dest (size_t nbytes_) in
  exists ps',
    blosc2_decompress_chunk sc nchunk dest nbytes_ ps
    = Some (fst out, sc, snd out, ps')
    /\ codec ps' = st
    /\ heap_blocks ps' = heap_blocks ps.
Proof.
  exact (decompress_chunk_runs sc nchunk dest nbytes_ ps d src).
Qed.

Lemma nth_error_snoc {A} (l : list A) (x : A) :
  nth_error (l ++ [x]) (length l) = Some x.
Proof.
  rewrite nth_error_app2 by lia. rewrite Nat.sub_diag. reflexivity.
Qed.

(** X8: when slot 0 of the decoded pipeline (the filters word modulo 4)
    is not [BLOSC_DELTA], [blosc2_set_delta_ref] returns [-1] and leaves
    the super-chunk as it was; the block of the decoded filters is not
    freed on this path. *)
Theorem set_delta_ref_not_delta (sc : schunk_header) (nbytes_ : Z)
    (ref : buffer) (ps : process) :
  (0 < BLOSC_MAX_FILTERS)%nat ->
  filters sc mod 4 <> BLOSC_DELTA ->
  blosc2_set_delta_ref sc nbytes_ ref ps = Some (-1, sc, malloc_block ps).
Proof.
  intros M D. unfold blosc2_set_delta_ref.
  rewrite decode_filters_slot0 by exact M.
  destruct (Z.eqb_spec (filters sc mod 4) BLOSC_DELTA); [ contradiction | ].
  reflexivity.
Qed.

Lemma set_delta_ref_first (sc : schunk_header) (nbytes_ : Z)
    (ref : buffer) (ps : process) :
  (0 < BLOSC_MAX_FILTERS)%nat ->
  filters sc mod 4 = BLOSC_DELTA ->
  filters_chunk sc = None ->
  let destsize := size_t (nbytes_ + BLOSC_MAX_OVERHEAD) in
  let out :=
    blosc_compress (codec ps) 0 0 1 nbytes_ ref (malloc destsize) destsize in
  exists ps',
    blosc2_set_delta_ref sc nbytes_ ref ps
    = Some (fst out,
            if fst out <? 0 then sc
            else set_cbytes (int64 (cbytes sc + fst out))
                   (set_filters_chunk (Some (snd out)) sc),
            ps')
    /\ codec ps' = codec ps
    /\ heap_blocks ps'
       = heap_blocks ps + (if fst out <? 0 then 0 else 1).
Proof.
  intros M D F destsize out. unfold blosc2_set_delta_ref.
  rewrite decode_filters_slot0 by exact M.
  rewrite D, Z.eqb_refl, F. fold destsize.
  cbn [codec malloc_block free_block]. fold out.
  destruct out as [cb fc]. cbn [fst snd].
  destruct (cb <? 0); eexists; (split; [ reflexivity | ]);
    cbn [codec heap_blocks free_block malloc_block];
    split; (reflexivity || lia).
Qed.

(** X9: the first [blosc2_set_delta_ref] on a super-chunk under DELTA
    compresses the reference with level 0, no shuffle and type size 1
    into a buffer of [nbytes + BLOSC_MAX_OVERHEAD] bytes.  A negative
    result is returned with the super-chunk and the heap as they were;
    otherwise the buffer becomes [filters_chunk], [cbytes] grows by the
    result, which is returned, and one block stays allocated. *)
Theorem set_delta_ref_install (sc : schunk_header) (nbytes_ : Z)
    (ref : buffer) (ps : process) :
  (0 < BLOSC_MAX_FILTERS)%nat ->
  filters sc mod 4 = BLOSC_DELTA ->
  filters_chunk sc = None ->
  let destsize := size_t (nbytes_ + BLOSC_MAX_OVERHEAD) in
  let out :=
    blosc_compress (codec ps) 0 0 1 nbytes_ ref (malloc destsize) destsize in
  exists ps',
    blosc2_set_delta_ref sc nbytes_ ref ps
    = Some (fst out,
            if fst out <? 0 then sc
            else set_cbytes (int64 (cbytes sc + fst out))
                   (set_filters_chunk (Some (snd out)) sc),
            ps')
    /\ codec ps' = codec ps
    /\ heap_blocks ps'
       = heap_blocks ps + (if fst out <? 0 then 0 else 1).
Proof. exact (set_delta_ref_first sc nbytes_ ref ps). Qed.

(** X10: when the compression of the first reference fails inside
    [blosc2_append_buffer], the negative code is returned as a [size_t]
    and the super-chunk is as it was, but the destination chunk and the
    decoded filters allocated by [blosc2_append_buffer] are not freed:
    two blocks stay allocated. *)
Theorem append_buffer_reference_failure (sc : schunk_header)
    (typesize nbytes_ : Z) (src : buffer) (ps : process) :
  (1 < BLOSC_MAX_FILTERS)%nat ->
  filters sc mod 4 = BLOSC_DELTA ->
  filters_chunk sc = None ->
  let destsize := size_t (nbytes_ + BLOSC_MAX_OVERHEAD) in
  let code :=
    fst (blosc_compress (codec ps) 0 0 1 nbytes_ src (malloc destsize)
           destsize) in
  code < 0 ->
  exists ps',
    blosc2_append_buffer sc typesize nbytes_ src ps
    = Some (size_t code, sc, ps')
    /\ codec ps' = codec ps
    /\ heap_blocks ps' = heap_blocks ps + 2.
Proof.
  intros M D F destsize code Neg.
  destruct (set_delta_ref_first sc nbytes_ src (malloc_block (malloc_block ps))
              ltac:(lia) D F) as (ps' & R & PC & PH).
  cbv zeta in R, PH. cbn [codec malloc_block] in R, PH. fold destsize in R, PH.
  fold code in R, PH.
  destruct (Z.ltb_spec code 0); [ | lia ].
  unfold blosc2_append_buffer, append_buffer_filters.
  rewrite decode_filters_slot0 by lia.
  rewrite D, Z.eqb_refl, decode_filters_slot1 by exact M.
  rewrite F, R.
  destruct (Z.ltb_spec code 0); [ | lia ].
  exists ps'. split; [ reflexivity | ].
  split; [ exact PC | ].
  rewrite PH. cbn [heap_blocks malloc_block]. lia.
Qed.

Lemma free_blocks_fold {A} (l : list A) (ps : process) :
  heap_blocks (fold_left (fun ps _ => free_block ps) l ps)
  = heap_blocks ps - Z.of_nat (length l)
  /\ codec (fold_left (fun ps _ => free_block ps) l ps) = codec ps.
Proof.
  revert ps. induction l as [|a l IH]; intros ps; cbn [fold_left length].
  - split; [ lia | reflexivity ].
  - destruct (IH (free_block ps)) as [A1 A2]. rewrite A1, A2.
    cbn [heap_blocks codec free_block]. split; [ lia | reflexivity ].
Qed.

Lemma free_chunk_heap (c : option buffer) (ps : process) :
  heap_blocks (free_chunk c ps)
  = heap_blocks ps - match c with Some _ => 1 | None => 0 end
  /\ codec (free_chunk c ps) = codec ps.
Proof. destruct c; cbn; split; (reflexivity || lia). Qed.

Lemma destroy_schunk_heap (sc : schunk_header) (ps : process) :
  (forall d, data sc = Some d -> Z.of_nat (length d) = Z.max 0 (nchunks sc)) ->
  nchunks sc <= INT_MAX ->
  exists ps',
    blosc2_destroy_schunk sc ps = Some (0, ps')
    /\ codec ps' = codec ps
    /\ heap_blocks ps' = heap_blocks ps - owned_blocks sc.
Proof.
  intros N M. unfold blosc2_destroy_schunk, owned_blocks, ancillary.
  destruct (free_chunk_heap (filters_chunk sc) ps) as [H1 C1].
  destruct (free_chunk_heap (codec_chunk sc)
              (free_chunk (filters_chunk sc) ps)) as [H2 C2].
  destruct (free_chunk_heap (metadata_chunk sc)
              (free_chunk (codec_chunk sc)
                 (free_chunk (filters_chunk sc) ps))) as [H3 C3].
  destruct (free_chunk_heap (userdata_chunk sc)
              (free_chunk (metadata_chunk sc)
                 (free_chunk (codec_chunk sc)
                    (free_chunk (filters_chunk sc) ps)))) as [H4 C4].
  set (ps4 := free_chunk (userdata_chunk sc) _) in *.
  assert (A : Z.of_nat
                (length
                   ((match filters_chunk sc with Some b => [b] | None => [] end)
                    ++ (match codec_chunk sc with Some b => [b] | None => [] end)
                    ++ (match metadata_chunk sc with Some b => [b] | None => [] end)
                    ++ (match userdata_chunk sc with Some b => [b] | None => [] end)))
              = heap_blocks ps - heap_blocks ps4).
  { rewrite H4, H3, H2, H1.
    destruct (filters_chunk sc), (codec_chunk sc), (metadata_chunk sc),
      (userdata_chunk sc); cbn [length app]; lia. }
  rewrite A.
  destruct (data sc) as [d|].
  - specialize (N d eq_refl).
    destruct (Z.ltb_spec (Z.of_nat (length d)) (nchunks sc)); [ lia | ].
    destruct (Z.ltb_spec INT_MAX (nchunks sc)); [ lia | ].
    cbn [orb]. eexists. split; [ reflexivity | ].
    destruct (free_blocks_fold (firstn (Z.to_nat (nchunks sc)) d) ps4)
      as [F1 F2].
    cbn [codec heap_blocks free_block]. rewrite F1, F2.
    rewrite length_firstn.
    split; [ congruence | lia ].
  - eexists. split; [ reflexivity | ].
    cbn [codec heap_blocks free_block]. split; [ congruence | lia ].
Qed.

(** X15: [blosc2_destroy_schunk], on a super-chunk whose [nchunks] is
    the length of its vector and fits the [int] counter of its loop,
    returns 0 and frees exactly the blocks the super-chunk owns: the
    header, each ancillary chunk that is present, the array and each
    chunk in it. *)
Theorem destroy_schunk_frees_owned (sc : schunk_header) (ps : process) :
  nchunks sc = Z.of_nat (length (chunks sc)) ->
  nchunks sc <= INT_MAX ->
  exists ps',
    blosc2_destroy_schunk sc ps = Some (0, ps')
    /\ codec ps' = codec ps
    /\ heap_blocks ps' = heap_blocks ps - owned_blocks sc.
Proof.
  intros N M. apply destroy_schunk_heap; [ | exact M ].
  intros d D. unfold chunks in N. rewrite D in N. lia.
Qed.

(** *** What an append keeps *)

Lemma ancillary_length_reference sc sc' :
  reference_only sc sc' ->
  Z.of_nat (length (ancillary sc'))
  = Z.of_nat (length (ancillary sc))
    + match filters_chunk sc' with Some _ => 1 | None => 0 end
    - match filters_chunk sc with Some _ => 1 | None => 0 end.
Proof.
  intros ->. unfold ancillary.
  cbn [filters_chunk codec_chunk metadata_chunk userdata_chunk set_cbytes
       set_filters_chunk].
  rewrite !length_app.
  destruct (filters_chunk sc'), (filters_chunk sc); cbn [length]; lia.
Qed.

(** The filter stage of [blosc2_append_buffer] when it goes on to the
    compression: the reference is the only thing it may have added. *)
Lemma append_buffer_filters_inr sc nbytes_ src ps ds sc1 ps1 :
  append_buffer_filters sc nbytes_ src (decode_filters (filters sc)) ps
  = Some (inr (ds, sc1, ps1)) ->
  reference_only sc sc1
  /\ codec ps1 = codec ps
  /\ heap_blocks ps1 - heap_blocks ps
     = Z.of_nat (length (ancillary sc1)) - Z.of_nat (length (ancillary sc)).
Proof.
  intros E.
  pose proof (append_buffer_filters_reference_only sc nbytes_ src
                (decode_filters (filters sc)) ps) as R.
  rewrite E in R. split; [ exact R | ].
  rewrite (ancillary_length_reference _ _ R).
  revert E. unfold append_buffer_filters.
  destruct (nth_error (decode_filters (filters sc)) 0) as [f0|] eqn:E0;
    [ | discriminate ].
  destruct (Z.eqb_spec f0 BLOSC_DELTA) as [-> | NE].
  - destruct (nth_error _ 1) as [f1|]; [ | discriminate ].
    destruct (filters_chunk sc) as [fc|] eqn:FC.
    + intros [= _ <- <-]. rewrite FC. split; [ reflexivity | lia ].
    + destruct (blosc2_set_delta_ref sc nbytes_ src ps)
        as [[[ret sc'] ps']|] eqn:S; [ | discriminate ].
      destruct (Z.ltb_spec ret 0); [ discriminate | ].
      intros [= _ <- <-]. revert S. unfold blosc2_set_delta_ref.
      rewrite E0, Z.eqb_refl, FC.
      destruct (blosc_compress _ _ _ _ _ _ _ _) as [cb fc'].
      destruct (Z.ltb_spec cb 0); [ intros [= <- _ _]; lia | ].
      intros [= _ <- <-].
      cbn [filters_chunk set_cbytes set_filters_chunk codec heap_blocks
           malloc_block free_block].
      split; [ reflexivity | lia ].
  - intros [= _ <- <-].
    destruct (filters_chunk sc); split; (reflexivity || lia).
Qed.

(** The filter stage returns early only on the first append under
    DELTA, when the compression of the reference fails: what it returns
    is the code of that compression, and the header is the one passed. *)
Lemma append_buffer_filters_inl sc nbytes_ src ps r sc1 ps1 :
  append_buffer_filters sc nbytes_ src (decode_filters (filters sc)) ps
  = Some (inl (r, sc1, ps1)) ->
  filters_chunk sc = None
  /\ nth_error (decode_filters (filters sc)) 0 = Some BLOSC_DELTA
  /\ sc1 = sc
  /\ fst (blosc_compress (codec ps) 0 0 1 nbytes_ src
            (malloc (size_t (nbytes_ + BLOSC_MAX_OVERHEAD)))
            (size_t (nbytes_ + BLOSC_MAX_OVERHEAD))) < 0
  /\ r = size_t (fst (blosc_compress (codec ps) 0 0 1 nbytes_ src
                        (malloc (size_t (nbytes_ + BLOSC_MAX_OVERHEAD)))
                        (size_t (nbytes_ + BLOSC_MAX_OVERHEAD)))).
Proof.
  unfold append_buffer_filters.
  destruct (nth_error (decode_filters (filters sc)) 0) as [f0|] eqn:E0;
    [ | discriminate ].
  destruct (Z.eqb_spec f0 BLOSC_DELTA) as [-> | NE]; [ | discriminate ].
  destruct (nth_error _ 1) as [f1|]; [ | discriminate ].
  destruct (filters_chunk sc) as [fc|] eqn:FC; [ discriminate | ].
  destruct (blosc2_set_delta_ref sc nbytes_ src ps)
    as [[[ret sc'] ps']|] eqn:S; [ | discriminate ].
  destruct (Z.ltb_spec ret 0); [ | discriminate ].
  intros [= <- <- _]. revert S. unfold blosc2_set_delta_ref.
  rewrite E0, Z.eqb_refl, FC. cbv zeta.
  cbn [codec malloc_block free_block].
  destruct (blosc_compress _ _ _ _ _ _ _ _) as [cb fc'].
  cbn [fst].
  destruct (Z.ltb_spec cb 0); intros [= <- <- _]; [ | lia ].
  repeat split; (reflexivity || assumption).
Qed.

Lemma append_buffer_appends_one_chunk (sc : schunk_header)
    (typesize nbytes_ : Z) (src : buffer) (ps : process) (r : Z)
    (sc' : schunk_header) (ps' : process) :
  nchunks sc = Z.of_nat (length (chunks sc)) ->
  nchunks sc + 1 < 2 ^ 63 ->
  blosc2_append_buffer sc typesize nbytes_ src ps = Some (r, sc', ps') ->
  (data sc' = data sc /\ nchunks sc' = nchunks sc /\ nbytes sc' = nbytes sc
   /\ exists code,
        code < 0 /\ r = size_t code
        /\ ((filters_chunk sc = None
             /\ nth_error (decode_filters (filters sc)) 0 = Some BLOSC_DELTA
             /\ sc' = sc
             /\ code
                = fst (blosc_compress (codec ps) 0 0 1 nbytes_ src
                         (malloc (size_t (nbytes_ + BLOSC_MAX_OVERHEAD)))
                         (size_t (nbytes_ + BLOSC_MAX_OVERHEAD))))
            \/ (exists doshuffle ps1,
                  append_buffer_filters sc nbytes_ src
                    (decode_filters (filters sc))
                    (malloc_block (malloc_block ps))
                  = Some (inr (doshuffle, sc', ps1))
                  /\ code
                     = fst (blosc_compress (append_buffer_codec sc' ps1)
                              (clevel sc) doshuffle typesize nbytes_ src
                              (malloc (size_t (nbytes_ + BLOSC_MAX_OVERHEAD)))
                              (size_t (nbytes_ + BLOSC_MAX_OVERHEAD))))))
  \/ (exists chunk,
        data sc' = Some (chunks sc ++ [chunk])
        /\ r = nchunks sc + 1
        /\ nchunks sc' = nchunks sc + 1
        /\ nbytes sc' = int64 (nbytes sc + chunk_nbytes chunk)
        /\ heap_blocks ps' - heap_blocks ps
           = owned_blocks sc' - owned_blocks sc).
Proof.
  intros N B. unfold blosc2_append_buffer.
  destruct (append_buffer_filters _ _ _ _ _)
    as [[[[ret sc1] ps1]|[[ds sc1] ps1]]|] eqn:F; [ | | discriminate ].
  - pose proof (append_buffer_filters_reference_only sc nbytes_ src
                  (decode_filters (filters sc))
                  (malloc_block (malloc_block ps))) as R.
    rewrite F in R.
    destruct (reference_only_fields _ _ R) as (N1 & B1 & D1 & _).
    destruct (append_buffer_filters_inl _ _ _ _ _ _ _ F)
      as (FC & E0 & Es & Neg & Er).
    cbn [codec malloc_block] in Neg, Er.
    intros [= <- <- <-]. left.
    split; [ exact D1 | ]. split; [ exact N1 | ]. split; [ exact B1 | ].
    eexists. split; [ exact Neg | ]. split; [ exact Er | ].
    left. repeat split; assumption.
  - destruct (append_buffer_filters_inr _ _ _ _ _ _ _ F) as (R & PC & PH).
    destruct (reference_only_fields _ _ R) as (N1 & B1 & D1 & _).
    destruct (blosc_compress _ _ _ _ _ _ _ _) as [cb chunk] eqn:EC.
    destruct (Z.ltb_spec cb 0).
    + intros [= <- <- <-]. left.
      split; [ exact D1 | ]. split; [ exact N1 | ]. split; [ exact B1 | ].
      exists cb. split; [ assumption | ]. split; [ reflexivity | ].
      right. exists ds, ps1. split; [ reflexivity | ].
      symmetry. exact (f_equal fst EC).
    + unfold blosc2_append_chunk.
      destruct (load_i32 chunk 4) as [nb|] eqn:E4; [ | discriminate ].
      destruct (load_i32 chunk 12) as [cb'|] eqn:E12; [ | discriminate ].
      apply chunk_nbytes_load in E4.
      destruct (Z.ltb_spec (nchunks sc1) 0); [ discriminate | ].
      intros [= <- <- <-]. right. exists chunk.
      cbn [data nchunks nbytes cbytes set_data set_nchunks set_nbytes
           set_cbytes].
      assert (C : chunks sc1 = chunks sc) by (unfold chunks; rewrite D1; reflexivity).
      rewrite N1, B1, E4.
      replace (realloc_data (data sc1) (nchunks sc)) with (chunks sc)
        by (rewrite N, <- C, D1; symmetry; rewrite <- D1; apply realloc_data_chunks).
      rewrite size_t_nonneg by lia.
      split; [ reflexivity | ]. split; [ reflexivity | ].
      split; [ apply int64_small; lia | ]. split; [ reflexivity | ].
      unfold owned_blocks.
      replace (ancillary
                 (set_cbytes (int64 (cbytes sc1 + cb' + sizeof_pointer))
                    (set_nbytes (int64 (nbytes sc + chunk_nbytes chunk))
                       (set_nchunks (int64 (nchunks sc + 1))
                          (set_data (Some (chunks sc ++ [chunk])) sc1)))))
        with (ancillary sc1) by reflexivity.
      cbn [data set_data set_nchunks set_nbytes set_cbytes].
      rewrite length_app. cbn [length].
      cbn [heap_blocks codec set_codec free_block malloc_block] in PH |- *.
      unfold chunks. rewrite D1.
      destruct (data sc) as [d|];
        cbn [heap_blocks set_codec free_block malloc_block length];
        rewrite ?Nat2Z.inj_add; lia.
Qed.

(** X11: [blosc2_append_buffer] either returns a negative code (as a
    [size_t]) with the chunk vector, [nchunks] and [nbytes] as they
    were, or appends exactly one chunk behind the chunks that were
    there, returns the new count, adds the chunk's [nbytes] to [nbytes],
    and leaves allocated exactly the blocks the super-chunk has gained
    (the chunk, the array at the first append, the reference when it was
    installed).  The negative code is the one the codec has returned:
    that of the compression of the reference, at the first append under
    DELTA, with the header as it was passed; or that of the compression
    of the data, under the settings of the header the filter stage has
    left. *)
Theorem append_buffer_appends_one (sc : schunk_header)
    (typesize nbytes_ : Z) (src : buffer) (ps : process) (r : Z)
    (sc' : schunk_header) (ps' : process) :
  let destsize := size_t (nbytes_ + BLOSC_MAX_OVERHEAD) in
  nchunks sc = Z.of_nat (length (chunks sc)) ->
  nchunks sc + 1 < 2 ^ 63 ->
  blosc2_append_buffer sc typesize nbytes_ src ps = Some (r, sc', ps') ->
  (data sc' = data sc /\ nchunks sc' = nchunks sc /\ nbytes sc' = nbytes sc
   /\ exists code,
        code < 0 /\ r = size_t code
        /\ ((filters_chunk sc = None
             /\ nth_error (decode_filters (filters sc)) 0 = Some BLOSC_DELTA
             /\ sc' = sc
             /\ code
                = fst (blosc_compress (codec ps) 0 0 1 nbytes_ src
                         (malloc destsize) destsize))
            \/ (exists doshuffle ps1,
                  append_buffer_filters sc nbytes_ src
                    (decode_filters (filters sc))
                    (malloc_block (malloc_block ps))
                  = Some (inr (doshuffle, sc', ps1))
                  /\ code
                     = fst (blosc_compress (append_buffer_codec sc' ps1)
                              (clevel sc) doshuffle typesize nbytes_ src
                              (malloc destsize) destsize))))
  \/ (exists chunk,
        data sc' = Some (chunks sc ++ [chunk])
        /\ r = nchunks sc + 1
        /\ nchunks sc' = nchunks sc + 1
        /\ nbytes sc' = int64 (nbytes sc + chunk_nbytes chunk)
        /\ heap_blocks ps' - heap_blocks ps
           = owned_blocks sc' - owned_blocks sc).
Proof.
  exact (append_buffer_appends_one_chunk sc typesize nbytes_ src ps r sc' ps').
Qed.

(** X12: on a pipeline without DELTA, the chunk that
    [blosc2_append_buffer] makes is compressed under the super-chunk's
    own settings (its compressor, its level, slot 0 as the shuffle), is
    stored last, and is the chunk that [blosc2_decompress_chunk] hands
    to the codec at the index [returned count - 1]. *)
Theorem append_buffer_then_decompress (sc : schunk_header)
    (typesize nbytes_ : Z) (src : buffer) (ps : process) (dest : buffer)
    (capacity : Z) :
  (0 < BLOSC_MAX_FILTERS)%nat ->
  filters sc mod 4 <> BLOSC_DELTA ->
  nchunks sc = Z.of_nat (length (chunks sc)) ->
  nchunks sc + 1 < 2 ^ 63 ->
  let destsize := size_t (nbytes_ + BLOSC_MAX_OVERHEAD) in
  let st := append_buffer_codec sc ps in
  let out :=
    blosc_compress st (clevel sc) (filters sc mod 4) typesize nbytes_ src
      (malloc destsize) destsize in
  0 <= fst out ->
  (16 <= length (snd out))%nat ->
  chunk_nbytes (snd out) <= capacity ->
  exists r sc' ps' ps'',
    blosc2_append_buffer sc typesize nbytes_ src ps = Some (r, sc', ps')
    /\ data sc' = Some (chunks sc ++ [snd out])
    /\ let res :=
         blosc_decompress (blosc_set_schunk sc' st) (snd out) dest
           (size_t capacity) in
       blosc2_decompress_chunk sc' (r - 1) dest capacity ps'
       = Some (fst res, sc', snd res, ps'').
Proof.
  intros MF ND N B destsize st out P L C.
  unfold blosc2_append_buffer, append_buffer_filters.
  rewrite decode_filters_slot0 by exact MF.
  destruct (Z.eqb_spec (filters sc mod 4) BLOSC_DELTA); [ contradiction | ].
  fold destsize.
  change (append_buffer_codec sc
            (free_block (malloc_block (malloc_block ps))))
    with st.
  cbn [codec set_codec]. fold out. destruct out as [cb chunk] eqn:EO. cbn [fst snd] in *.
  destruct (Z.ltb_spec cb 0); [ lia | ].
  match goal with
  | |- context [blosc2_append_chunk sc chunk false ?p] =>
      destruct (append_chunk_appends sc chunk false p) as
        (sc' & ps' & AP & D1 & N1 & _ & _ & _ & _ & PC & _);
        [ exact L | discriminate | exact N | exact B | ]
  end.
  cbn [codec] in PC.
  destruct (decompress_chunk_runs sc' (nchunks sc + 1 - 1) dest capacity
              ps' (chunks sc ++ [chunk]) chunk) as (ps'' & R & _);
    try assumption; try lia.
  - replace (nchunks sc + 1 - 1) with (nchunks sc) by lia.
    rewrite N, Nat2Z.id. apply nth_error_snoc.
  - exists (nchunks sc + 1), sc', ps', ps''.
    split; [ exact AP | ]. split; [ exact D1 | ].
    cbv zeta in R |- *. rewrite PC in R. exact R.
Qed.

(** *** The compressed size of a super-chunk without a reference *)

Lemma set_delta_ref_no_reference sc nbytes_ ref ps r sc' ps' :
  blosc2_set_delta_ref sc nbytes_ ref ps = Some (r, sc', ps') ->
  filters_chunk sc' = None -> sc' = sc.
Proof.
  unfold blosc2_set_delta_ref.
  destruct (nth_error _ 0) as [f0|]; [ | discriminate ].
  destruct (f0 =? BLOSC_DELTA); [ | intros [= _ <- _]; reflexivity ].
  destruct (filters_chunk sc) as [fc|] eqn:F.
  - destruct (load_u32 fc 4) as [v|]; [ | discriminate ].
    destruct (blosc_compress _ _ _ _ _ _ _ _) as [cb fc'].
    destruct (cb <? 0); intros [= _ <- _]; cbn; congruence.
  - destruct (blosc_compress _ _ _ _ _ _ _ _) as [cb fc'].
    destruct (cb <? 0); intros [= _ <- _]; [ reflexivity | discriminate ].
Qed.

Lemma append_chunk_cbytes_counted sc chunk copy ps r sc' ps' :
  data_counted sc -> cbytes_counted sc ->
  (copy = true -> 16 <= chunk_cbytes chunk) ->
  blosc2_append_chunk sc chunk copy ps = Some (r, sc', ps') ->
  cbytes_counted sc' /\ filters_chunk sc' = filters_chunk sc.
Proof.
  intros (N & B & _) CC W. unfold blosc2_append_chunk.
  destruct (load_i32 chunk 4) as [nb|] eqn:E4; [ | discriminate ].
  destruct (load_i32 chunk 12) as [cb|] eqn:E12; [ | discriminate ].
  apply chunk_cbytes_load in E12. subst cb.
  destruct (if copy then _ else _) as [[chunk' ps1]|] eqn:EC; [ | discriminate ].
  destruct (Z.ltb_spec (nchunks sc) 0); [ discriminate | ].
  intros [= _ <- _].
  assert (L : Z.of_nat (length (chunks sc)) < 2 ^ 63).
  { destruct (Z.eq_dec (Z.of_nat (length (chunks sc))) (2 ^ 63)) as [E|]; [ | lia ].
    rewrite E in N. change (int64 (2 ^ 63)) with (- 2 ^ 63) in N. lia. }
  assert (N' : nchunks sc = Z.of_nat (length (chunks sc))).
  { rewrite N. apply int64_small. lia. }
  assert (CB : chunk_cbytes chunk' = chunk_cbytes chunk).
  { destruct copy.
    - destruct (load chunk 0 _) as [cc|] eqn:EL; [ | discriminate ].
      injection EC as <- _. apply (chunk_copy_prefix _ _ (W eq_refl) EL).
    - injection EC as <- _. reflexivity. }
  split; [ | reflexivity ].
  unfold cbytes_counted, chunks; simpl.
  rewrite N', realloc_data_chunks, length_app, sum_cbytes_app. simpl length.
  rewrite CC, CB. int64_solve.
Qed.

Lemma append_buffer_filters_no_reference sc nbytes_ src dec ps :
  match append_buffer_filters sc nbytes_ src dec ps with
  | Some (inl (_, sc', _)) | Some (inr (_, sc', _)) =>
      filters_chunk sc' = None -> sc' = sc
  | None => True
  end.
Proof.
  unfold append_buffer_filters.
  destruct (nth_error dec 0) as [f0|]; [ | exact I ].
  destruct (f0 =? BLOSC_DELTA); [ | reflexivity ].
  destruct (nth_error dec 1) as [f1|]; [ | exact I ].
  destruct (filters_chunk sc); [ reflexivity | ].
  destruct (blosc2_set_delta_ref sc nbytes_ src ps) as [[[ret sc'] ps']|] eqn:E;
    [ | exact I ].
  destruct (ret <? 0); apply (set_delta_ref_no_reference _ _ _ _ _ _ _ E).
Qed.

Lemma append_chunk_filters_chunk sc chunk copy ps r sc' ps' :
  blosc2_append_chunk sc chunk copy ps = Some (r, sc', ps') ->
  filters_chunk sc' = filters_chunk sc.
Proof.
  unfold blosc2_append_chunk.
  destruct (load_i32 chunk 4); [ | discriminate ].
  destruct (load_i32 chunk 12); [ | discriminate ].
  destruct (if copy then _ else _) as [[? ?]|]; [ | discriminate ].
  destruct (nchunks sc <? 0); [ discriminate | ].
  intros [= _ <- _]. reflexivity.
Qed.

Lemma reachable_cbytes_counted sc :
  0 <= sizeof_schunk_header < 2 ^ 63 ->
  reachable sc -> filters_chunk sc = None -> cbytes_counted sc.
Proof.
  intros S.
  induction 1 as [params ps
                 | sc chunk copy ps r sc' ps' R IH W A
                 | sc nbytes_ ref ps r sc' ps' R IH A
                 | sc typesize nbytes_ src ps r sc' ps' R IH A]; intros F.
  - unfold cbytes_counted, chunks; simpl.
    rewrite !Z.add_0_r. symmetry. apply int64_small. lia.
  - pose proof (reachable_counted _ R) as C.
    rewrite (append_chunk_filters_chunk _ _ _ _ _ _ _ A) in F.
    apply (append_chunk_cbytes_counted _ _ _ _ _ _ _ C (IH F) (fun _ => W) A).
  - pose proof (set_delta_ref_no_reference _ _ _ _ _ _ _ A F) as E.
    subst sc'. apply IH, F.
  - pose proof (reachable_counted _ R) as C.
    revert A. unfold blosc2_append_buffer.
    pose proof (append_buffer_filters_no_reference sc nbytes_ src
                  (decode_filters (filters sc))
                  (malloc_block (malloc_block ps))) as K.
    destruct (append_buffer_filters _ _ _ _ _)
      as [[[[ret sc1] ps1]|[[ds sc1] ps1]]|]; [ | | discriminate ].
    + intros [= _ <- _]. specialize (K F). subst sc1. apply IH, F.
    + destruct (blosc_compress _ _ _ _ _ _ _ _) as [cb chunk].
      destruct (Z.ltb_spec cb 0).
      * intros [= _ <- _]. specialize (K F). subst sc1. apply IH, F.
      * intros A.
        rewrite (append_chunk_filters_chunk _ _ _ _ _ _ _ A) in F.
        specialize (K F). subst sc1.
        assert (W : false = true -> 16 <= chunk_cbytes chunk)
          by discriminate.
        apply (append_chunk_cbytes_counted _ _ _ _ _ _ _ C (IH F) W A).
Qed.

(** X14: on every super-chunk made by [blosc2_new_schunk] and grown by
    the append operations that holds no reference chunk, [cbytes] is the
    64-bit sum of [sizeof(schunk_header)], the [cbytes] of the data
    chunks and one pointer for each of them. *)
Theorem reachable_cbytes (sc : schunk_header) :
  0 <= sizeof_schunk_header < 2 ^ 63 ->
  reachable sc -> filters_chunk sc = None ->
  cbytes sc
  = int64 (sizeof_schunk_header + sum_cbytes (chunks sc)
           + Z.of_nat (length (chunks sc)) * sizeof_pointer).
Proof. exact (reachable_cbytes_counted sc). Qed.

(** Only [filters_chunk] is ever installed by the live operations. *)
Lemma reachable_other_ancillary sc :
  reachable sc ->
  codec_chunk sc = None /\ metadata_chunk sc = None
  /\ userdata_chunk sc = None.
Proof.
  assert (RO : forall sc sc', reference_only sc sc' ->
            codec_chunk sc = None /\ metadata_chunk sc = None
            /\ userdata_chunk sc = None ->
            codec_chunk sc' = None /\ metadata_chunk sc' = None
            /\ userdata_chunk sc' = None).
  { intros s s' ->. exact (fun x => x). }
  assert (AC : forall sc chunk copy ps r sc' ps',
            blosc2_append_chunk sc chunk copy ps = Some (r, sc', ps') ->
            codec_chunk sc = None /\ metadata_chunk sc = None
            /\ userdata_chunk sc = None ->
            codec_chunk sc' = None /\ metadata_chunk sc' = None
            /\ userdata_chunk sc' = None).
  { intros s chunk copy ps r s' ps'. unfold blosc2_append_chunk.
    destruct (load_i32 chunk 4); [ | discriminate ].
    destruct (load_i32 chunk 12); [ | discriminate ].
    destruct (if copy then _ else _) as [[? ?]|]; [ | discriminate ].
    destruct (nchunks s <? 0); [ discriminate | ].
    intros [= _ <- _]. exact (fun x => x). }
  induction 1 as [params ps
                 | sc chunk copy ps r sc' ps' R IH W A
                 | sc nbytes_ ref ps r sc' ps' R IH A
                 | sc typesize nbytes_ src ps r sc' ps' R IH A].
  - simpl. auto.
  - apply (AC _ _ _ _ _ _ _ A IH).
  - apply (RO _ _ (set_delta_ref_reference_only _ _ _ _ _ _ _ A) IH).
  - revert A. unfold blosc2_append_buffer.
    pose proof (append_buffer_filters_reference_only sc nbytes_ src
                  (decode_filters (filters sc))
                  (malloc_block (malloc_block ps))) as R1.
    destruct (append_buffer_filters _ _ _ _ _)
      as [[[[ret sc1] ps1]|[[ds sc1] ps1]]|]; [ | | discriminate ].
    + intros [= _ <- _]. apply (RO _ _ R1 IH).
    + destruct (blosc_compress _ _ _ _ _ _ _ _) as [cb chunk].
      destruct (cb <? 0).
      * intros [= _ <- _]. apply (RO _ _ R1 IH).
      * intros A. apply (AC _ _ _ _ _ _ _ A (RO _ _ R1 IH)).
Qed.

(** X13: on every super-chunk made by [blosc2_new_schunk] and grown by
    the append operations, [nchunks] is the number of chunks in the
    vector (as a 64-bit integer). *)
Theorem reachable_nchunks (sc : schunk_header) :
  reachable sc -> nchunks sc = int64 (Z.of_nat (length (chunks sc))).
Proof. intros R. apply (reachable_counted _ R). Qed.

(** *** The heap over the life of a super-chunk *)

Lemma set_delta_ref_owned sc nbytes_ ref ps r sc' ps' :
  blosc2_set_delta_ref sc nbytes_ ref ps = Some (r, sc', ps') ->
  0 <= r ->
  heap_blocks ps' - heap_blocks ps = owned_blocks sc' - owned_blocks sc
  /\ nchunks sc' = nchunks sc /\ data sc' = data sc.
Proof.
  intros E P.
  pose proof (set_delta_ref_reference_only _ _ _ _ _ _ _ E) as R.
  destruct (reference_only_fields _ _ R) as (N & _ & D & _).
  split; [ | auto ].
  unfold owned_blocks. rewrite D, (ancillary_length_reference _ _ R).
  revert E. unfold blosc2_set_delta_ref.
  destruct (nth_error _ 0) as [f0|]; [ | discriminate ].
  destruct (f0 =? BLOSC_DELTA); [ | intros [= <- _ _]; lia ].
  destruct (filters_chunk sc) as [fc|] eqn:F.
  - destruct (load_u32 fc 4) as [v|]; [ | discriminate ].
    destruct (blosc_compress _ _ _ _ _ _ _ _) as [cb fc'].
    destruct (Z.ltb_spec cb 0); [ intros [= <- _ _]; lia | ].
    intros [= _ <- <-].
    cbn [filters_chunk set_cbytes set_filters_chunk heap_blocks malloc_block
         free_block].
    destruct (data sc); lia.
  - destruct (blosc_compress _ _ _ _ _ _ _ _) as [cb fc'].
    destruct (Z.ltb_spec cb 0); [ intros [= <- _ _]; lia | ].
    intros [= _ <- <-].
    cbn [filters_chunk set_cbytes set_filters_chunk heap_blocks malloc_block
         free_block].
    destruct (data sc); lia.
Qed.

Lemma grown_owned ps0 sc ps :
  grown ps0 sc ps ->
  heap_blocks ps = heap_blocks ps0 + owned_blocks sc
  /\ nchunks sc = Z.of_nat (length (chunks sc)).
Proof.
  induction 1 as [params
                 | sc ps chunk r sc' ps' G [IH N] L C M A
                 | sc ps nbytes_ ref r sc' ps' G [IH N] A P
                 | sc ps typesize nbytes_ src r sc' ps' G [IH N] M A S].
  - unfold owned_blocks, ancillary. cbn. split; reflexivity.
  - destruct (append_chunk_appends sc chunk true ps L (fun _ => C) N)
      as (sc1 & ps1 & A1 & D1 & N1 & _ & _ & AN & _ & _ & H1);
      [ unfold INT_MAX in M; lia | ].
    rewrite A1 in A. injection A as _ <- <-.
    split.
    + unfold owned_blocks. rewrite AN, D1, H1, IH. unfold owned_blocks.
      rewrite length_app, Nat2Z.inj_add. cbn [length]. unfold chunks.
      destruct (data sc); cbn [length]; lia.
    + unfold chunks at 1. rewrite D1, N1, N, length_app, Nat2Z.inj_add.
      reflexivity.
  - destruct (set_delta_ref_owned _ _ _ _ _ _ _ A P) as (H1 & N1 & D1).
    split; [ lia | ]. unfold chunks. rewrite N1, D1. exact N.
  - destruct (append_buffer_appends_one_chunk sc typesize nbytes_ src ps r sc'
                ps' N ltac:(unfold INT_MAX in M; lia) A)
      as [(_ & N1 & _) | (chunk & D1 & _ & N1 & _ & H1)]; [ contradiction | ].
    split; [ lia | ].
    unfold chunks at 1. rewrite D1, N1, N, length_app, Nat2Z.inj_add.
    reflexivity.
Qed.

(** X16: over a run of calls that succeed (creation, appends of copied
    chunks, installations and replacements of the reference, appends of
    buffers), the blocks allocated since the creation are exactly the
    blocks the super-chunk owns, and [blosc2_destroy_schunk] brings the
    heap back to what it was before [blosc2_new_schunk]. *)
Theorem grown_destroy_balanced (ps0 : process) (sc : schunk_header)
    (ps : process) :
  grown ps0 sc ps -> nchunks sc <= INT_MAX ->
  exists ps',
    blosc2_destroy_schunk sc ps = Some (0, ps')
    /\ heap_blocks ps = heap_blocks ps0 + owned_blocks sc
    /\ heap_blocks ps' = heap_blocks ps0.
Proof.
  intros G M. destruct (grown_owned ps0 sc ps G) as [H N].
  destruct (destroy_schunk_heap sc ps) as (ps' & D & _ & H'); [ | exact M | ].
  - intros d E. unfold chunks in N. rewrite E in N. lia.
  - exists ps'. split; [ exact D | ]. split; [ exact H | lia ].
Qed.

End Live.

(** ** The append operations on the examples *)

Lemma delta_appended_reachable : reachable delta_appended.
Proof.
  unfold delta_appended.
  destruct (blosc2_append_buffer (delta_schunk 5) 1 4 (bytes [1; 2; 3; 4]) ps0)
    as [[[r sc] ps]|] eqn:E.
  - apply (reach_append_buffer _ _ _ _ _ _ _ _ (reach_new (delta_params 5) ps0) E).
  - apply (reach_new (delta_params 5) ps0).
Qed.

Lemma reachable_nbytes_witness :
  nbytes delta_appended = int64 (sum_nbytes (chunks delta_appended)).
Proof. apply (reachable_nbytes delta_appended delta_appended_reachable). Defined.

(** C5, as stated, fails: after the first append under DELTA the
    super-chunk holds one data chunk of 4 bytes and the reference chunk
    of 4 bytes, and [nbytes] is 4, not 8. *)
Lemma nbytes_without_reference :
  reachable delta_appended
  /\ sum_nbytes (chunks delta_appended) = 4
  /\ sum_nbytes (ancillary delta_appended) = 4
  /\ nbytes delta_appended = 4
  /\ nbytes delta_appended
     <> sum_nbytes (chunks delta_appended)
        + sum_nbytes (ancillary delta_appended).
Proof.
  split; [ exact delta_appended_reachable | ].
  split; [ vm_compute; reflexivity | ].
  split; [ vm_compute; reflexivity | ].
  split; [ vm_compute; reflexivity | ].
  vm_compute. discriminate.
Qed.

Lemma rejected_filters_stage_eq :
  rejected_filters_stage = Some (inr (1, rejected_header, rejected_process)).
Proof. reflexivity. Qed.

Lemma append_buffer_compress_failure_witness :
  exists ps',
    blosc2_append_buffer (delta_schunk 10) 1 4 (bytes [1; 2; 3; 4]) ps0
    = Some (size_t (-10), rejected_header, ps')
    /\ nchunks rejected_header = 0
    /\ filters_chunk rejected_header <> None.
Proof.
  destruct (append_buffer_compress_failure (delta_schunk 10) 1 4
              (bytes [1; 2; 3; 4]) ps0 1 rejected_header rejected_process
              rejected_filters_stage_eq)
    as (ps' & E & _ & N & _ & _ & _ & K).
  - vm_compute. reflexivity.
  - exists ps'. split; [ exact E | ]. split; [ exact N | ].
    destruct (K eq_refl eq_refl) as (_ & F & _). rewrite F. discriminate.
Defined.

(** C6, as stated, fails on the first append under DELTA: the
    compression (level 10) returns [-10], which is returned, and yet
    [filters_chunk] has been set and [cbytes] has grown from 96 to 116. *)
Lemma append_buffer_failure_keeps_reference :
  fst (blosc_compress (append_buffer_codec rejected_header rejected_process)
         (clevel (delta_schunk 10)) 1 1 4 (bytes [1; 2; 3; 4])
         (malloc 20) 20) = -10
  /\ filters_chunk (delta_schunk 10) = None
  /\ cbytes (delta_schunk 10) = 96
  /\ option_map
       (fun r : Z * schunk_header * process =>
          let '(ret, sc, ps) := r in
          (ret, nchunks sc, option_map chunk_cbytes (filters_chunk sc),
           cbytes sc))
       (blosc2_append_buffer (delta_schunk 10) 1 4 (bytes [1; 2; 3; 4]) ps0)
     = Some (size_t (-10), 0, Some 20, 116).
Proof. repeat split; vm_compute; reflexivity. Qed.

Lemma decompress_chunk_errors_witness :
  blosc2_decompress_chunk delta_appended 1 (bytes [9; 9; 9; 9]) 4 ps0
  = Some (-10, delta_appended, bytes [9; 9; 9; 9], malloc_block ps0)
  /\ blosc2_decompress_chunk delta_appended 0 (bytes [9; 9; 9; 9]) 3 ps0
     = Some (-11, delta_appended, bytes [9; 9; 9; 9], malloc_block ps0).
Proof.
  split.
  - apply (proj1 (decompress_chunk_errors delta_appended 1
                    (bytes [9; 9; 9; 9]) 4 ps0)).
    vm_compute. discriminate.
  - eapply (proj2 (decompress_chunk_errors delta_appended 0
                     (bytes [9; 9; 9; 9]) 3 ps0)).
    + vm_compute. split; [ discriminate | reflexivity ].
    + reflexivity.
    + reflexivity.
    + vm_compute. lia.
    + vm_compute. reflexivity.
Defined.

Lemma negative_index_passes_guard_witness :
  blosc2_decompress_chunk delta_appended (-1) (bytes [9; 9; 9; 9]) 4 ps0 = None
  /\ forall r d ps',
       blosc2_packed_decompress_chunk delta_appended_image (-1) ps0
       = Some (r, d, ps') -> d <> None.
Proof.
  destruct (negative_index_passes_guard delta_appended delta_appended_image
              (-1) (bytes [9; 9; 9; 9]) 4 ps0) as [A B].
  - lia.
  - split.
    + apply A. vm_compute. discriminate.
    + apply (B 1).
      * vm_compute. reflexivity.
      * lia.
Defined.

(** ** The packed image *)

Section Packing.
Context {blosc_h : BloscH} {codec_ops : Codec}.

Lemma sum_cbytes_ancillary sc :
  sum_cbytes (ancillary sc)
  = opt_cbytes (filters_chunk sc) + opt_cbytes (codec_chunk sc)
    + opt_cbytes (metadata_chunk sc) + opt_cbytes (userdata_chunk sc).
Proof.
  unfold ancillary.
  destruct (filters_chunk sc), (codec_chunk sc), (metadata_chunk sc),
    (userdata_chunk sc); simpl; lia.
Qed.

Lemma sum_nbytes_ancillary sc :
  sum_nbytes (ancillary sc)
  = opt_nbytes (filters_chunk sc) + opt_nbytes (codec_chunk sc)
    + opt_nbytes (metadata_chunk sc) + opt_nbytes (userdata_chunk sc).
Proof.
  unfold ancillary.
  destruct (filters_chunk sc), (codec_chunk sc), (metadata_chunk sc),
    (userdata_chunk sc); simpl; lia.
Qed.

Lemma wf_ancillary sc :
  Forall wf_chunk (ancillary sc) ->
  (forall c, filters_chunk sc = Some c -> wf_chunk c)
  /\ (forall c, codec_chunk sc = Some c -> wf_chunk c)
  /\ (forall c, metadata_chunk sc = Some c -> wf_chunk c)
  /\ (forall c, userdata_chunk sc = Some c -> wf_chunk c).
Proof.
  unfold ancillary. rewrite !Forall_app.
  intros (A & B & C & D).
  split; [ | split; [ | split ] ]; intros c E; rewrite E in *;
    match goal with F : Forall wf_chunk [c] |- _ => inversion F end;
    assumption.
Qed.

Lemma opt_cbytes_nonneg chunk :
  (forall c, chunk = Some c -> wf_chunk c) -> 0 <= opt_cbytes chunk.
Proof.
  destruct chunk as [c|]; simpl; [ | lia ].
  intros W. specialize (W c eq_refl). unfold wf_chunk in W. lia.
Qed.

Lemma sum_cbytes_nonneg l : Forall wf_chunk l -> 0 <= sum_cbytes l.
Proof.
  induction 1 as [|c l W _ IH]; simpl; [ lia | ].
  unfold wf_chunk in W. lia.
Qed.

Lemma wf_chunk_loads c :
  wf_chunk c ->
  load_i32 c 4 = Some (chunk_nbytes c)
  /\ load_i32 c 12 = Some (chunk_cbytes c)
  /\ load c 0 (size_t (chunk_cbytes c)) = Some (chunk_bytes c)
  /\ Z.of_nat (length (chunk_bytes c)) = chunk_cbytes c.
Proof.
  intros [A B]. pose proof (chunk_cbytes_range c) as R.
  split; [ apply load_chunk_nbytes; lia | ].
  split; [ apply load_chunk_cbytes; lia | ].
  rewrite size_t_nonneg by lia.
  split; [ rewrite load_Some by lia; reflexivity | ].
  unfold chunk_bytes. rewrite length_firstn. lia.
Qed.

(** [data[i]] along the vector. *)
Lemma next_int_Some i : i < INT_MAX -> next_int i = Some (i + 1).
Proof.
  intros L. unfold next_int.
  destruct (Z.leb_spec INT_MAX i); [ lia | reflexivity ].
Qed.

Lemma data_at_skipn (d : list buffer) i c l :
  0 <= i -> skipn (Z.to_nat i) d = c :: l ->
  data_at d i = Some c /\ skipn (Z.to_nat (i + 1)) d = l.
Proof.
  intros P E. unfold data_at.
  destruct (Z.ltb_spec i 0); [ lia | ].
  replace (Z.to_nat (i + 1)) with (S (Z.to_nat i)) by lia.
  revert d E. generalize (Z.to_nat i) as n.
  induction n as [|n IH]; intros [|a d] E; simpl in *; try discriminate.
  - injection E as -> ->. auto.
  - apply (IH d E).
Qed.

(** *** The length of the image *)

Lemma packed_length_loop_spec (d : list buffer) :
  forall l i length_,
    0 <= i -> skipn (Z.to_nat i) d = l -> Forall wf_chunk l ->
    i + Z.of_nat (length l) <= INT_MAX ->
    0 <= length_ ->
    length_ + sum_cbytes l + 8 * Z.of_nat (length l) < 2 ^ 63 ->
    packed_length_loop d (length l) i length_
    = Some (length_ + sum_cbytes l + 8 * Z.of_nat (length l)).
Proof.
  induction l as [|c l IH]; intros i len_ P E W M L B.
  - simpl. f_equal. lia.
  - destruct (data_at_skipn d i c l P E) as [D E'].
    apply Forall_cons_iff in W. destruct W as [Wc Wl].
    pose proof (sum_cbytes_nonneg l Wl) as N.
    destruct (wf_chunk_loads c Wc) as (_ & C12 & _).
    unfold wf_chunk in Wc.
    cbn [length] in B, M. rewrite Nat2Z.inj_succ in M.
    cbn [length packed_length_loop]. rewrite D, C12.
    rewrite next_int_Some by lia.
    cbn [sum_cbytes fold_right] in *. fold (sum_cbytes l) in *.
    rewrite Nat2Z.inj_succ in *.
    rewrite (int64_small (len_ + 8)) by lia.
    rewrite (int64_small (len_ + 8 + chunk_cbytes c)) by lia.
    rewrite IH by (assumption || lia). f_equal. lia.
Qed.

Lemma add_chunk_cbytes_spec chunk length_ :
  (forall c, chunk = Some c -> wf_chunk c) ->
  0 <= length_ -> length_ + opt_cbytes chunk < 2 ^ 63 ->
  add_chunk_cbytes chunk length_ = Some (length_ + opt_cbytes chunk).
Proof.
  intros W L B. destruct chunk as [c|]; simpl in *.
  - specialize (W c eq_refl).
    destruct (wf_chunk_loads c W) as (_ & -> & _).
    unfold wf_chunk in W. rewrite int64_small by lia. reflexivity.
  - f_equal. lia.
Qed.

Lemma get_packed_length_spec sc :
  wf_schunk sc -> blosc2_get_packed_length sc = Some (packed_size sc).
Proof.
  intros (WA & WD & N & M & HL & B).
  destruct (wf_ancillary sc WA) as (W1 & W2 & W3 & W4).
  pose proof (opt_cbytes_nonneg _ W1). pose proof (opt_cbytes_nonneg _ W2).
  pose proof (opt_cbytes_nonneg _ W3). pose proof (opt_cbytes_nonneg _ W4).
  pose proof (sum_cbytes_nonneg _ WD).
  unfold packed_size in *. rewrite sum_cbytes_ancillary in *.
  unfold blosc2_get_packed_length.
  rewrite (add_chunk_cbytes_spec _ _ W1) by lia.
  rewrite (add_chunk_cbytes_spec _ _ W2) by lia.
  rewrite (add_chunk_cbytes_spec _ _ W3) by lia.
  rewrite (add_chunk_cbytes_spec _ _ W4) by lia.
  rewrite N. rewrite Nat2Z.id. unfold chunks in *.
  destruct (data sc) as [d|].
  - rewrite (packed_length_loop_spec d d 0) by (auto; lia).
    f_equal. lia.
  - simpl. f_equal. lia.
Qed.

(** *** Writing the image *)

Lemma pack_copy_chunk_spec chunk packed offset cur nb :
  (forall c, chunk = Some c -> wf_chunk c) ->
  0 <= offset -> offset + 8 <= cur ->
  cur + opt_cbytes chunk <= Z.of_nat (length packed) ->
  cur + opt_cbytes chunk < 2 ^ 63 ->
  int64 nb = nb ->
  exists packed',
    pack_copy_chunk chunk packed offset cur nb
    = Some (packed', cur + opt_cbytes chunk, int64 (nb + opt_nbytes chunk))
    /\ length packed' = length packed
    /\ (forall off n,
          off + n <= cur -> off + n <= offset \/ offset + 8 <= off ->
          load packed' off n = load packed off n)
    /\ anc_at packed' offset chunk cur.
Proof.
  intros W O1 O2 B1 B2 NB. unfold pack_copy_chunk, anc_at.
  destruct chunk as [c|]; simpl opt_cbytes in *; simpl opt_nbytes.
  - specialize (W c eq_refl).
    destruct (wf_chunk_loads c W) as (L4 & L12 & LB & LL).
    unfold wf_chunk in W. rewrite L4, L12, LB.
    rewrite (size_t_nonneg cur) by lia.
    destruct (store packed cur (chunk_bytes c)) as [p1|] eqn:S1;
      [ | rewrite store_Some in S1 by lia; discriminate ].
    pose proof (store_length _ _ _ _ S1) as N1.
    destruct (store_int_Some 8 p1 offset cur) as [p2 S2]; [ lia | lia | ].
    unfold store_i64. rewrite S2.
    pose proof (store_length _ _ _ _ S2) as N2.
    exists p2. rewrite (int64_small (cur + chunk_cbytes c)) by lia.
    split; [ reflexivity | ]. split; [ congruence | ].
    split; [ | split ].
    + intros off n F1 F2.
      rewrite (load_store_int_other _ _ _ _ _ _ _ S2) by lia.
      apply (load_store_other _ _ _ _ _ _ S1). lia.
    + apply (load_i64_store _ _ _ _ S2). lia.
    + intros c' [= <-].
      rewrite (load_store_int_other _ _ _ _ _ _ _ S2) by lia.
      rewrite <- LL. apply (load_store_same _ _ _ _ S1).
  - destruct (store_int_Some 8 packed offset 0) as [p1 S1]; [ lia | lia | ].
    unfold store_i64. rewrite S1. exists p1.
    rewrite !Z.add_0_r, NB.
    split; [ reflexivity | ].
    split; [ apply (store_length _ _ _ _ S1) | ].
    split; [ | split ].
    + intros off n F1 F2.
      apply (load_store_int_other _ _ _ _ _ _ _ S1). lia.
    + apply (load_i64_store _ _ _ _ S1). lia.
    + discriminate.
Qed.

Lemma sum_cbytes_firstn_le l j :
  Forall wf_chunk l -> 0 <= sum_cbytes (firstn j l) <= sum_cbytes l.
Proof.
  intros W. revert j. induction W as [|c l Wc Wl IH]; intros [|j]; simpl;
    try lia.
  - pose proof (sum_cbytes_nonneg l Wl). unfold wf_chunk in Wc.
    fold (sum_cbytes l). lia.
  - specialize (IH j). unfold wf_chunk in Wc.
    fold (sum_cbytes l). fold (sum_cbytes (firstn j l)). lia.
Qed.

Lemma sum_cbytes_firstn_nth l j c :
  Forall wf_chunk l -> nth_error l j = Some c ->
  sum_cbytes (firstn j l) + chunk_cbytes c <= sum_cbytes l.
Proof.
  intros W. revert j. induction W as [|a l Wa Wl IH]; intros [|j] E;
    simpl in E; try discriminate.
  - injection E as ->. pose proof (sum_cbytes_nonneg l Wl).
    cbn [firstn sum_cbytes fold_right]. fold (sum_cbytes l). lia.
  - specialize (IH j E).
    cbn [firstn sum_cbytes fold_right].
    fold (sum_cbytes l). fold (sum_cbytes (firstn j l)). lia.
Qed.

Lemma pack_data_loop_spec (d : list buffer) (table : Z) :
  forall l i packed cur nb,
    0 <= i -> skipn (Z.to_nat i) d = l -> Forall wf_chunk l ->
    i + Z.of_nat (length l) <= INT_MAX ->
    0 <= cur -> cur + sum_cbytes l <= table ->
    table + 8 * (i + Z.of_nat (length l)) <= Z.of_nat (length packed) ->
    table + 8 * (i + Z.of_nat (length l)) < 2 ^ 63 ->
    int64 nb = nb ->
    exists packed',
      pack_data_loop d table (length l) i packed cur nb
      = Some (packed', cur + sum_cbytes l, int64 (nb + sum_nbytes l))
      /\ length packed' = length packed
      /\ (forall off n,
            off + n <= cur
            \/ table + 8 * (i + Z.of_nat (length l)) <= off
            \/ (cur + sum_cbytes l <= off /\ off + n <= table + 8 * i) ->
            load packed' off n = load packed off n)
      /\ (forall j c,
            nth_error l j = Some c ->
            let o := cur + sum_cbytes (firstn j l) in
            load_i64 packed' (table + 8 * (i + Z.of_nat j)) = Some o
            /\ load packed' o (chunk_cbytes c) = Some (chunk_bytes c)).
Proof.
  induction l as [|c l IH]; intros i packed cur nb P E W M C0 C1 B1 B2 NB.
  - exists packed.
    cbn [pack_data_loop length sum_cbytes sum_nbytes fold_right].
    rewrite !Z.add_0_r, NB.
    split; [ reflexivity | ]. split; [ reflexivity | ].
    split; [ reflexivity | ]. intros [|j] c'; discriminate.
  - destruct (data_at_skipn d i c l P E) as [D E'].
    apply Forall_cons_iff in W. destruct W as [Wc Wl].
    pose proof (sum_cbytes_nonneg l Wl) as N.
    destruct (wf_chunk_loads c Wc) as (L4 & L12 & LB & LL).
    unfold wf_chunk in Wc.
    cbn [length] in B1, B2, M. rewrite Nat2Z.inj_succ in B1, B2, M.
    cbn [sum_cbytes fold_right] in C1. fold (sum_cbytes l) in C1.
    cbn [length pack_data_loop]. rewrite D, L4, L12, LB.
    destruct (store packed cur (chunk_bytes c)) as [p1|] eqn:S1;
      [ | rewrite store_Some in S1 by lia; discriminate ].
    pose proof (store_length _ _ _ _ S1) as N1.
    destruct (store_int_Some 8 p1 (table + 8 * i) cur) as [p2 S2];
      [ lia | lia | ].
    rewrite S2. pose proof (store_length _ _ _ _ S2) as N2.
    rewrite (int64_small (cur + chunk_cbytes c)) by lia.
    rewrite next_int_Some by lia.
    destruct (IH (i + 1) p2 (cur + chunk_cbytes c)
                (int64 (nb + chunk_nbytes c)))
      as (p3 & R & N3 & F3 & A3); try assumption; try lia;
      try apply int64_idem.
    exists p3. rewrite R.
    split.
    { cbn [sum_cbytes sum_nbytes fold_right].
      fold (sum_cbytes l). fold (sum_nbytes l).
      rewrite int64_add_l. do 3 f_equal; lia. }
    split; [ congruence | ].
    cbn [sum_cbytes fold_right]. fold (sum_cbytes l).
    split.
    + intros off n F. rewrite F3 by lia.
      rewrite (load_store_int_other _ _ _ _ _ _ _ S2) by lia.
      apply (load_store_other _ _ _ _ _ _ S1). lia.
    + intros [|j] c' Hj; cbn [nth_error] in Hj; cbv zeta.
      * injection Hj as <-. cbn [firstn sum_cbytes fold_right].
        change (Z.of_nat 0) with 0. rewrite !Z.add_0_r. split.
        -- unfold load_i64. rewrite (load_sint_frame 8 p2 p3).
           ++ apply (load_i64_store _ _ _ _ S2). lia.
           ++ apply F3. lia.
        -- rewrite F3 by lia.
           rewrite (load_store_int_other _ _ _ _ _ _ _ S2) by lia.
           rewrite <- LL. apply (load_store_same _ _ _ _ S1).
      * destruct (A3 j c' Hj) as [A B]. cbv zeta in A, B.
        cbn [firstn sum_cbytes fold_right].
        fold (sum_cbytes (firstn j l)).
        replace (table + 8 * (i + Z.of_nat (S j)))
          with (table + 8 * (i + 1 + Z.of_nat j)) by lia.
        replace (cur + (chunk_cbytes c + sum_cbytes (firstn j l)))
          with (cur + chunk_cbytes c + sum_cbytes (firstn j l)) by lia.
        auto.
Qed.

Lemma header_prefix_length sc : length (header_prefix sc) = 40%nat.
Proof.
  unfold header_prefix.
  rewrite !length_app, !length_le_split, repeat_length. reflexivity.
Qed.

Lemma load_i64_store_other m off v m' off2 :
  store_int 8 m off v = Some m' ->
  off2 + 8 <= off \/ off + 8 <= off2 ->
  load_i64 m' off2 = load_i64 m off2.
Proof.
  intros S D. apply load_sint_frame.
  apply (load_store_int_other _ _ _ _ _ _ _ S). lia.
Qed.

Lemma load_i64_frame m m' off :
  load m' off 8 = load m off 8 -> load_i64 m' off = load_i64 m off.
Proof. exact (load_sint_frame 8 m m' off). Qed.

(** Moving a fact about the image across later writes. *)
Ltac frame_step :=
  match goal with
  | S : store_int _ ?p _ _ = Some ?p' |- context [load ?p' ?off ?n] =>
      rewrite (load_store_int_other _ _ _ _ _ off n S) by lia
  | S : store ?p _ _ = Some ?p' |- context [load ?p' ?off ?n] =>
      rewrite (load_store_other _ _ _ _ off n S) by lia
  | F : forall off n, _ -> load ?p' off n = load ?p off n
    |- context [load ?p' ?off ?n] =>
      rewrite (F off n) by lia
  | F : forall off n, _ -> _ -> load ?p' off n = load ?p off n
    |- context [load ?p' ?off ?n] =>
      rewrite (F off n) by lia
  end.

Ltac frame_i64 := apply load_i64_frame; repeat frame_step.

Lemma anc_at_frame p p' field chunk o :
  (forall c, chunk = Some c -> wf_chunk c) ->
  anc_at p field chunk o ->
  load p' field 8 = load p field 8 ->
  load p' o (opt_cbytes chunk) = load p o (opt_cbytes chunk) ->
  anc_at p' field chunk o.
Proof.
  intros W [A B] F1 F2. split.
  - rewrite <- A. apply load_i64_frame, F1.
  - intros c E. rewrite <- (B c E). subst chunk. exact F2.
Qed.

(** [blosc2_pack_schunk] writes the layout [image_of]. *)
Lemma pack_schunk_image sc ps :
  wf_schunk sc ->
  exists packed,
    blosc2_pack_schunk sc ps = Some (packed, malloc_block ps)
    /\ image_of sc packed.
Proof.
  intros WF. pose proof (get_packed_length_spec sc WF) as GL.
  destruct WF as (WA & WD & N & M & HL & B).
  destruct (wf_ancillary sc WA) as (W1 & W2 & W3 & W4).
  pose proof (opt_cbytes_nonneg _ W1) as P1.
  pose proof (opt_cbytes_nonneg _ W2) as P2.
  pose proof (opt_cbytes_nonneg _ W3) as P3.
  pose proof (opt_cbytes_nonneg _ W4) as P4.
  pose proof (sum_cbytes_nonneg _ WD) as P5.
  assert (PS : packed_size sc
               = BLOSC_HEADER_PACKED_LENGTH + opt_cbytes (filters_chunk sc)
                 + opt_cbytes (codec_chunk sc)
                 + opt_cbytes (metadata_chunk sc)
                 + opt_cbytes (userdata_chunk sc)
                 + sum_cbytes (chunks sc) + nchunks sc * 8).
  { unfold packed_size. rewrite sum_cbytes_ancillary. lia. }
  unfold image_of.
  set (o1 := BLOSC_HEADER_PACKED_LENGTH) in *.
  set (o2 := o1 + opt_cbytes (filters_chunk sc)) in *.
  set (o3 := o2 + opt_cbytes (codec_chunk sc)) in *.
  set (o4 := o3 + opt_cbytes (metadata_chunk sc)) in *.
  set (o5 := o4 + opt_cbytes (userdata_chunk sc)) in *.
  set (table := o5 + sum_cbytes (chunks sc)) in *.
  set (psz := packed_size sc) in *.
  assert (NN : 0 <= nchunks sc) by lia.
  unfold blosc2_pack_schunk. rewrite GL. fold o1.
  rewrite (size_t_nonneg psz) by lia.
  assert (L0 : Z.of_nat (length (malloc psz)) = psz).
  { unfold malloc. rewrite repeat_length. lia. }
  pose proof (header_prefix_length sc) as HP.
  destruct (store (malloc psz) 0 (header_prefix sc)) as [p0|] eqn:S0;
    [ | rewrite store_Some in S0 by lia; discriminate ].
  pose proof (store_length _ _ _ _ S0) as N0.
  destruct (pack_copy_chunk_spec (filters_chunk sc) p0 40 o1 o1 W1)
    as (p1 & R1 & N1 & F1 & A1); try lia;
    [ apply int64_small; subst o1; lia | ].
  rewrite R1. fold o2.
  destruct (pack_copy_chunk_spec (codec_chunk sc) p1 48 o2
              (int64 (o1 + opt_nbytes (filters_chunk sc))) W2)
    as (p2 & R2 & N2 & F2 & A2); try lia; [ apply int64_idem | ].
  rewrite R2. fold o3.
  destruct (pack_copy_chunk_spec (metadata_chunk sc) p2 56 o3
              (int64 (int64 (o1 + opt_nbytes (filters_chunk sc))
                      + opt_nbytes (codec_chunk sc))) W3)
    as (p3 & R3 & N3 & F3 & A3); try lia; [ apply int64_idem | ].
  rewrite R3. fold o4.
  destruct (pack_copy_chunk_spec (userdata_chunk sc) p3 64 o4
              (int64 (int64 (int64 (o1 + opt_nbytes (filters_chunk sc))
                             + opt_nbytes (codec_chunk sc))
                      + opt_nbytes (metadata_chunk sc))) W4)
    as (p4 & R4 & N4 & F4 & A4); try lia; [ apply int64_idem | ].
  rewrite R4. fold o5.
  set (nb4 := int64 (int64 (int64 (int64 (o1 + opt_nbytes (filters_chunk sc))
                                   + opt_nbytes (codec_chunk sc))
                            + opt_nbytes (metadata_chunk sc))
                     + opt_nbytes (userdata_chunk sc))).
  cbv zeta.
  rewrite (uint64_small (nchunks sc * 8)) by lia.
  replace (psz - nchunks sc * 8) with table by lia.
  rewrite (uint64_small table) by lia.
  destruct (store_int_Some 8 p4 72 table) as [p5 S5]; [ lia | lia | ].
  rewrite S5. pose proof (store_length _ _ _ _ S5) as N5.
  assert (DL : exists p6,
             match data sc with
             | Some d =>
                 pack_data_loop d table (Z.to_nat (nchunks sc)) 0 p5 o5 nb4
             | None => Some (p5, o5, nb4)
             end
             = Some (p6, table, int64 (nb4 + sum_nbytes (chunks sc)))
             /\ length p6 = length p5
             /\ (forall off n,
                   off + n <= o5 ->
                   load p6 off n = load p5 off n)
             /\ (forall j c,
                   nth_error (chunks sc) j = Some c ->
                   let o := o5 + sum_cbytes (firstn j (chunks sc)) in
                   load_i64 p6 (table + 8 * Z.of_nat j) = Some o
                   /\ load p6 o (chunk_cbytes c) = Some (chunk_bytes c))).
  { clear GL. unfold chunks in *. destruct (data sc) as [d|].
    - destruct (pack_data_loop_spec d table d 0 p5 o5 nb4)
        as (p6 & R6 & N6 & F6 & A6); try assumption; try lia;
        [ reflexivity | apply int64_idem | ].
      exists p6. rewrite N, Nat2Z.id, R6.
      split; [ reflexivity | ]. split; [ exact N6 | ].
      split; [ intros off n L; apply F6; lia | exact A6 ].
    - exists p5. simpl in *.
      split; [ unfold nb4 at 2; rewrite Z.add_0_r, int64_idem;
               do 3 f_equal; lia | ].
      split; [ reflexivity | ]. split; [ reflexivity | ].
      intros [|j] c; discriminate. }
  destruct DL as (p6 & R6 & N6 & F6 & A6). rewrite R6.
  replace (int64 (table + nchunks sc * 8)) with psz
    by (symmetry; rewrite int64_small by lia; lia).
  rewrite Z.eqb_refl. cbn [negb].
  destruct (store_int_Some 8 p6 16 (nchunks sc)) as [p7 S7]; [ lia | lia | ].
  destruct (store_int_Some 8 p7 24
              (int64 (int64 (nb4 + sum_nbytes (chunks sc)) + nchunks sc * 8)))
    as [p8 S8];
    [ lia | rewrite (store_length _ _ _ _ S7); lia | ].
  destruct (store_int_Some 8 p8 32 psz) as [p9 S9];
    [ lia
    | rewrite (store_length _ _ _ _ S8), (store_length _ _ _ _ S7); lia | ].
  unfold store_i64. rewrite S7, S8, S9.
  pose proof (store_length _ _ _ _ S7) as N7.
  pose proof (store_length _ _ _ _ S8) as N8.
  pose proof (store_length _ _ _ _ S9) as N9.
  exists p9. split; [ reflexivity | ].
  split; [ lia | ].
  split.
  { rewrite (load_i64_store_other _ _ _ _ 16 S9) by lia.
    rewrite (load_i64_store_other _ _ _ _ 16 S8) by lia.
    apply (load_i64_store _ _ _ _ S7). lia. }
  split.
  { rewrite (load_i64_store_other _ _ _ _ 24 S9) by lia.
    rewrite (load_i64_store _ _ _ _ S8) by apply int64_range.
    f_equal. unfold nb4, packed_nbytes.
    rewrite sum_nbytes_ancillary. subst o1. int64_solve. }
  split; [ apply (load_i64_store _ _ _ _ S9); lia | ].
  assert (FR : forall off n,
             off + n <= table -> 40 <= off ->
             load p9 off n = load p6 off n).
  { intros off n L1 L2. repeat frame_step. reflexivity. }
  split.
  { apply (anc_at_frame p1 p9 40 _ o1 W1 A1).
    - rewrite FR by lia. repeat frame_step. reflexivity.
    - rewrite FR by lia. repeat frame_step. reflexivity. }
  split.
  { apply (anc_at_frame p2 p9 48 _ o2 W2 A2).
    - rewrite FR by lia. repeat frame_step. reflexivity.
    - rewrite FR by lia. repeat frame_step. reflexivity. }
  split.
  { apply (anc_at_frame p3 p9 56 _ o3 W3 A3).
    - rewrite FR by lia. repeat frame_step. reflexivity.
    - rewrite FR by lia. repeat frame_step. reflexivity. }
  split.
  { apply (anc_at_frame p4 p9 64 _ o4 W4 A4).
    - rewrite FR by lia. repeat frame_step. reflexivity.
    - rewrite FR by lia. repeat frame_step. reflexivity. }
  split.
  { rewrite <- (load_i64_store _ _ _ _ S5 ltac:(lia)).
    apply load_i64_frame. rewrite FR by lia. repeat frame_step.
    reflexivity. }
  intros j c Hj. destruct (A6 j c Hj) as [Aj Bj]. cbv zeta in *.
  pose proof (sum_cbytes_firstn_le (chunks sc) j WD) as SJ.
  pose proof (sum_cbytes_firstn_nth (chunks sc) j c WD Hj) as CJ.
  assert (J : Z.of_nat j < Z.of_nat (length (chunks sc))).
  { apply Nat2Z.inj_lt, nth_error_Some. congruence. }
  assert (WC : wf_chunk c)
    by (apply (proj1 (Forall_forall _ _) WD), (nth_error_In _ _ Hj)).
  unfold wf_chunk in WC.
  split.
  - rewrite <- Aj. apply load_i64_frame. repeat frame_step. reflexivity.
  - rewrite <- Bj. apply FR; lia.
Qed.

(** C8: [blosc2_pack_schunk] returns an image whose length is the
    result of [blosc2_get_packed_length], and that length is
    [BLOSC_HEADER_PACKED_LENGTH] plus the [cbytes] of the ancillary
    chunks that are present, plus the [cbytes] of the data chunks, plus
    8 bytes per data chunk. *)
Theorem pack_schunk_length (sc : schunk_header) (ps : process) :
  wf_schunk sc ->
  exists packed ps',
    blosc2_pack_schunk sc ps = Some (packed, ps')
    /\ blosc2_get_packed_length sc = Some (Z.of_nat (length packed))
    /\ Z.of_nat (length packed)
       = BLOSC_HEADER_PACKED_LENGTH + sum_cbytes (ancillary sc)
         + sum_cbytes (chunks sc) + nchunks sc * 8.
Proof.
  intros WF. destruct (pack_schunk_image sc ps WF) as (packed & E & I).
  exists packed, (malloc_block ps). split; [ exact E | ].
  destruct I as (L & _). rewrite L.
  split; [ apply get_packed_length_spec, WF | reflexivity ].
Qed.

(** *** Reading the image *)

(** A chunk in the image shows the prefix fields of the chunk. *)
Lemma chunk_bytes_prefix c :
  wf_chunk c ->
  chunk_nbytes (chunk_bytes c) = chunk_nbytes c
  /\ chunk_cbytes (chunk_bytes c) = chunk_cbytes c.
Proof.
  intros W. destruct (wf_chunk_loads c W) as (_ & _ & L & _).
  unfold wf_chunk in W. apply (chunk_copy_prefix c _ (proj1 W) L).
Qed.

Lemma region_chunk_fields packed o c :
  wf_chunk c ->
  load packed o (chunk_cbytes c) = Some (chunk_bytes c) ->
  load_i32 packed (o + 4) = Some (chunk_nbytes c)
  /\ load_i32 packed (o + 12) = Some (chunk_cbytes c).
Proof.
  intros W L. destruct (chunk_bytes_prefix c W) as [E4 E12].
  destruct (wf_chunk_loads c W) as (_ & _ & _ & LL).
  unfold wf_chunk in W. unfold load_i32.
  rewrite <- !(load_sint_sub 4 _ _ _ _ _ L) by lia.
  fold load_i32.
  rewrite <- E4, <- E12.
  split; [ apply load_chunk_nbytes | apply load_chunk_cbytes ]; lia.
Qed.

Lemma unpack_copy_chunk_spec packed field chunk o sc nb cb ps :
  (forall c, chunk = Some c -> wf_chunk c) ->
  anc_at packed field chunk o -> 0 < o ->
  int64 nb = nb -> int64 cb = cb ->
  unpack_copy_chunk packed field sc nb cb ps
  = Some (option_map chunk_bytes chunk, count_chunk chunk sc,
          int64 (nb + opt_nbytes chunk), int64 (cb + opt_cbytes chunk),
          match chunk with Some _ => malloc_block ps | None => ps end).
Proof.
  intros W [A B] O NB CB. unfold unpack_copy_chunk. rewrite A.
  destruct chunk as [c|]; simpl.
  - specialize (W c eq_refl). specialize (B c eq_refl).
    destruct (region_chunk_fields packed o c W B) as [L4 L12].
    destruct (Z.eqb_spec o 0); [ lia | ].
    rewrite L4, L12. pose proof (chunk_cbytes_range c).
    unfold wf_chunk in W. rewrite size_t_nonneg by lia. rewrite B.
    reflexivity.
  - rewrite !Z.add_0_r, NB, CB. reflexivity.
Qed.

Lemma firstn_succ_set (slots : list buffer) n x :
  (n < length slots)%nat ->
  firstn (S n) (firstn n slots ++ x :: skipn (n + 1) slots)
  = firstn n slots ++ [x].
Proof.
  intros L. rewrite firstn_app, length_firstn.
  replace (S n - Init.Nat.min n (length slots))%nat with 1%nat by lia.
  rewrite firstn_all2 by (rewrite length_firstn; lia). reflexivity.
Qed.

Lemma unpack_data_loop_spec packed table (d : list buffer) (offs : nat -> Z) :
  (forall j c,
     nth_error d j = Some c ->
     load_i64 packed (table + 8 * Z.of_nat j) = Some (offs j)
     /\ load packed (offs j) (chunk_cbytes c) = Some (chunk_bytes c)) ->
  forall l i slots nb cb ps,
    0 <= i -> skipn (Z.to_nat i) d = l -> Forall wf_chunk l ->
    i + Z.of_nat (length l) <= INT_MAX ->
    length slots = (Z.to_nat i + length l)%nat ->
    int64 nb = nb -> int64 cb = cb ->
    exists ps',
      unpack_data_loop packed table (length l) i slots nb cb ps
      = Some (firstn (Z.to_nat i) slots ++ map chunk_bytes l,
              int64 (nb + sum_nbytes l), int64 (cb + sum_cbytes l), ps').
Proof.
  intros HT. induction l as [|c l IH];
    intros i slots nb cb ps P E W M LS NB CB.
  - exists ps. cbn [unpack_data_loop length map sum_nbytes sum_cbytes fold_right].
    cbn [length] in LS. rewrite Nat.add_0_r in LS.
    rewrite !Z.add_0_r, NB, CB, app_nil_r, <- LS, firstn_all. reflexivity.
  - destruct (data_at_skipn d i c l P E) as [D E'].
    apply Forall_cons_iff in W. destruct W as [Wc Wl].
    unfold data_at in D. destruct (Z.ltb_spec i 0); [ lia | ].
    destruct (HT _ _ D) as [T1 T2]. rewrite Z2Nat.id in T1 by lia.
    destruct (region_chunk_fields _ _ _ Wc T2) as [L4 L12].
    pose proof (chunk_cbytes_range c) as R. unfold wf_chunk in Wc.
    cbn [length] in LS, M. rewrite Nat2Z.inj_succ in M.
    cbn [unpack_data_loop length]. rewrite T1, L12.
    rewrite size_t_nonneg by lia. rewrite T2, L4.
    rewrite next_int_Some by lia.
    unfold set_slot.
    destruct (Z.leb_spec 0 i); [ | lia ].
    destruct (Z.ltb_spec i (Z.of_nat (length slots))); [ | lia ].
    cbn [andb].
    destruct (IH (i + 1)
                (firstn (Z.to_nat i) slots
                 ++ chunk_bytes c :: skipn (Z.to_nat i + 1) slots)
                (int64 (nb + chunk_nbytes c)) (int64 (cb + chunk_cbytes c))
                (malloc_block ps)) as [ps' R'];
      try assumption; try lia; try apply int64_idem.
    { rewrite length_app, length_firstn. cbn [length].
      rewrite length_skipn. lia. }
    exists ps'. rewrite R'.
    replace (Z.to_nat (i + 1)) with (S (Z.to_nat i)) by lia.
    rewrite firstn_succ_set by lia.
    cbn [map sum_nbytes sum_cbytes fold_right].
    fold (sum_nbytes l). fold (sum_cbytes l).
    rewrite <- app_assoc, !int64_add_l, <- !Z.add_assoc. reflexivity.
Qed.

Lemma is_null_false addr off :
  0 < addr -> 0 <= off -> addr + off < 2 ^ 64 -> is_null addr off = false.
Proof.
  intros A O B. unfold is_null. rewrite uint64_small by lia.
  apply Z.eqb_neq. lia.
Qed.

(** [blosc2_unpack_schunk] on an image with the layout of [sc]. *)
Lemma unpack_schunk_image sc packed addr ps :
  wf_schunk sc -> image_of sc packed ->
  0 < addr -> addr + packed_size sc < 2 ^ 64 ->
  exists sc' ps',
    blosc2_unpack_schunk addr packed ps = Some (sc', ps')
    /\ nchunks sc' = nchunks sc
    /\ nbytes sc' = int64 (packed_nbytes sc)
    /\ cbytes sc' = packed_size sc
    /\ filters_chunk sc' = option_map chunk_bytes (filters_chunk sc)
    /\ codec_chunk sc' = option_map chunk_bytes (codec_chunk sc)
    /\ metadata_chunk sc' = option_map chunk_bytes (metadata_chunk sc)
    /\ userdata_chunk sc' = option_map chunk_bytes (userdata_chunk sc)
    /\ data sc' = Some (map chunk_bytes (chunks sc)).
Proof.
  intros (WA & WD & N & M & HL & B)
         (L & I16 & I24 & I32 & A1 & A2 & A3 & A4 & I72 & IT) AD AB.
  destruct (wf_ancillary sc WA) as (W1 & W2 & W3 & W4).
  pose proof (opt_cbytes_nonneg _ W1) as P1.
  pose proof (opt_cbytes_nonneg _ W2) as P2.
  pose proof (opt_cbytes_nonneg _ W3) as P3.
  pose proof (opt_cbytes_nonneg _ W4) as P4.
  pose proof (sum_cbytes_nonneg _ WD) as P5.
  assert (PS : packed_size sc
               = BLOSC_HEADER_PACKED_LENGTH + opt_cbytes (filters_chunk sc)
                 + opt_cbytes (codec_chunk sc)
                 + opt_cbytes (metadata_chunk sc)
                 + opt_cbytes (userdata_chunk sc)
                 + sum_cbytes (chunks sc) + nchunks sc * 8).
  { unfold packed_size. rewrite sum_cbytes_ancillary. lia. }
  cbv zeta in *.
  set (o1 := BLOSC_HEADER_PACKED_LENGTH) in *.
  set (o2 := o1 + opt_cbytes (filters_chunk sc)) in *.
  set (o3 := o2 + opt_cbytes (codec_chunk sc)) in *.
  set (o4 := o3 + opt_cbytes (metadata_chunk sc)) in *.
  set (o5 := o4 + opt_cbytes (userdata_chunk sc)) in *.
  set (table := o5 + sum_cbytes (chunks sc)) in *.
  unfold blosc2_unpack_schunk. fold o1.
  destruct (load packed 0 40) as [hdr|] eqn:LH;
    [ | rewrite load_Some in LH by lia; discriminate ].
  set (sc0 := header_of_prefix hdr).
  assert (N0 : nchunks sc0 = nchunks sc).
  { pose proof (load_length _ _ _ _ LH) as LL.
    pose proof (load_sint_sub 8 _ _ _ _ 16 LH ltac:(lia) ltac:(lia)) as E.
    change (load_sint 8 packed (0 + 16)) with (load_i64 packed 16) in E.
    rewrite I16 in E.
    unfold load_sint, load_uint in E. rewrite load_Some in E by lia.
    injection E as E. exact E. }
  rewrite (unpack_copy_chunk_spec packed 40 _ o1 sc0 o1 o1 _ W1 A1)
    by (try apply int64_small; subst o1; lia).
  rewrite (unpack_copy_chunk_spec packed 48 _ o2 _ _ _ _ W2 A2)
    by (try apply int64_idem; lia).
  rewrite (unpack_copy_chunk_spec packed 56 _ o3 _ _ _ _ W3 A3)
    by (try apply int64_idem; lia).
  rewrite (unpack_copy_chunk_spec packed 64 _ o4 _ _ _ _ W4 A4)
    by (try apply int64_idem; lia).
  rewrite I72, I16, is_null_false by lia.
  match goal with
  | |- context [unpack_data_loop packed table _ 0 ?slots ?nb ?cb ?ps0] =>
      destruct (unpack_data_loop_spec packed table (chunks sc)
                  (fun j => o5 + sum_cbytes (firstn j (chunks sc))) IT
                  (chunks sc) 0 slots nb cb ps0) as [ps' R];
        try assumption; try lia; try reflexivity; try apply int64_idem
  end.
  { rewrite repeat_length, N, Nat2Z.id. reflexivity. }
  rewrite N, Nat2Z.id in *. rewrite R. rewrite I24, I32.
  cbn [firstn app].
  match goal with
  | |- context [negb (?a =? ?b) || negb (?c =? ?e)] =>
      assert (E1 : a = b); [ | assert (E2 : c = e) ]
  end.
  { unfold packed_nbytes.
    rewrite sum_nbytes_ancillary, N. subst o1. int64_solve. }
  { rewrite <- (int64_small (packed_size sc)) by lia.
    rewrite PS. subst o1 o2 o3 o4 o5 table. int64_solve. }
  rewrite <- E1, <- E2, !Z.eqb_refl. cbn [negb orb].
  eexists _, _. split; [ reflexivity | ].
  cbn [nchunks nbytes cbytes filters_chunk codec_chunk metadata_chunk
       userdata_chunk data set_cbytes set_nbytes set_data set_filters_chunk
       set_codec_chunk set_metadata_chunk set_userdata_chunk].
  clear - N0.
  destruct (filters_chunk sc), (codec_chunk sc), (metadata_chunk sc),
    (userdata_chunk sc);
    cbn [count_chunk option_map nchunks nbytes cbytes filters_chunk
         codec_chunk metadata_chunk userdata_chunk data set_cbytes
         set_nbytes set_data set_filters_chunk set_codec_chunk
         set_metadata_chunk set_userdata_chunk];
    (split; [ exact N0 | repeat (split; [ reflexivity | ]); reflexivity ]).
Qed.

(** C1 (amended): for a well-formed super-chunk [sc],
    [blosc2_pack_schunk] returns an image and [blosc2_unpack_schunk]
    rebuilds from it a super-chunk with the same [nchunks], whose
    ancillary chunks and data chunks are byte for byte the chunks of
    [sc] (the first [cbytes] bytes of each buffer), whose [cbytes] is the
    length of the image (so it is [sc]'s [cbytes] exactly when that
    equals the packed length), and whose [nbytes] is not [sc]'s but the
    64-bit sum of [BLOSC_HEADER_PACKED_LENGTH], the [nbytes] of the
    ancillary and data chunks, and 8 bytes per data chunk. *)
Theorem unpack_pack_schunk (sc : schunk_header) (addr : Z)
    (ps ps1 : process) :
  wf_schunk sc -> 0 < addr -> addr + packed_size sc < 2 ^ 64 ->
  exists packed ps' sc' ps'',
    blosc2_pack_schunk sc ps = Some (packed, ps')
    /\ blosc2_unpack_schunk addr packed ps1 = Some (sc', ps'')
    /\ nchunks sc' = nchunks sc
    /\ cbytes sc' = packed_size sc
    /\ (cbytes sc = packed_size sc -> cbytes sc' = cbytes sc)
    /\ nbytes sc' = int64 (packed_nbytes sc)
    /\ filters_chunk sc' = option_map chunk_bytes (filters_chunk sc)
    /\ codec_chunk sc' = option_map chunk_bytes (codec_chunk sc)
    /\ metadata_chunk sc' = option_map chunk_bytes (metadata_chunk sc)
    /\ userdata_chunk sc' = option_map chunk_bytes (userdata_chunk sc)
    /\ data sc' = Some (map chunk_bytes (chunks sc)).
Proof.
  intros WF A B.
  destruct (pack_schunk_image sc ps WF) as (packed & E & I).
  destruct (unpack_schunk_image sc packed addr ps1 WF I A B)
    as (sc' & ps'' & U & N & NB & CB & F1 & F2 & F3 & F4 & D).
  exists packed, (malloc_block ps), sc', ps''.
  repeat (split; [ assumption || congruence | ]). exact D.
Qed.

(** *** Appending a chunk to an image *)

Lemma load_app_l (m x : buffer) off k :
  off + k <= Z.of_nat (length m) -> load (m ++ x) off k = load m off k.
Proof.
  intros L. unfold load. rewrite length_app, Nat2Z.inj_add.
  destruct (Z.leb_spec 0 off); cbn [andb]; [ | reflexivity ].
  destruct (Z.leb_spec 0 k); cbn [andb]; [ | reflexivity ].
  destruct (Z.leb_spec (off + k) (Z.of_nat (length m))); [ | lia ].
  destruct (Z.leb_spec (off + k) (Z.of_nat (length m) + Z.of_nat (length x)));
    [ | lia ].
  f_equal. rewrite skipn_app, firstn_app, length_skipn.
  replace (Z.to_nat k - (length m - Z.to_nat off))%nat with 0%nat by lia.
  cbn [firstn]. apply app_nil_r.
Qed.

Lemma realloc_grow (m : buffer) n :
  Z.of_nat (length m) <= n ->
  realloc m n = m ++ repeat malloc_fill (Z.to_nat n - length m).
Proof.
  intros L. unfold realloc. rewrite firstn_all2 by lia. reflexivity.
Qed.

Lemma load_sint_uint k m off v :
  (0 < k)%nat -> load_sint k m off = Some v -> 0 <= v ->
  load_uint k m off = Some v.
Proof.
  intros K. unfold load_sint, load_uint.
  destruct (load m off (Z.of_nat k)) as [bs|] eqn:E; [ | discriminate ].
  intros [= <-] P. f_equal.
  pose proof (le_combine_bound bs) as R.
  rewrite (load_length _ _ _ _ E), Nat2Z.id in R.
  replace (8 * Z.of_nat k) with (Z.of_nat k * 8) in R by lia.
  unfold sint in *.
  assert (W : 2 ^ (Z.of_nat k * 8) = 2 * 2 ^ (Z.of_nat k * 8 - 1)).
  { replace (Z.of_nat k * 8) with (1 + (Z.of_nat k * 8 - 1)) at 1 by lia.
    rewrite Z.pow_add_r by lia. reflexivity. }
  set (h := 2 ^ (Z.of_nat k * 8 - 1)) in *.
  destruct (Z.lt_ge_cases (le_combine bs) h) as [C|C].
  - rewrite Z.mod_small by lia. lia.
  - exfalso. revert P.
    replace (le_combine bs + h) with (le_combine bs - h + 1 * (2 * h)) by lia.
    rewrite W, Z.mod_add by lia. rewrite Z.mod_small by lia. lia.
Qed.

Lemma load_uint_sint k m off u :
  load_uint k m off = Some u ->
  load_sint k m off = Some (sint (Z.of_nat k * 8) u).
Proof. unfold load_sint. intros ->. reflexivity. Qed.

(** C9: on an image whose [cbytes] field is its length, whose table of
    [nchunks] offsets sits at its end, [blosc2_packed_append_chunk]
    returns an image that is longer by the chunk and one offset.  The
    chunk is written where the table was (at the old length minus
    [nchunks * 8]), the old table is found [cbytes] bytes further, it is
    followed by a new entry holding the position of the chunk, and the
    header fields become [nchunks + 1], [nbytes + (chunk nbytes + 8)],
    [cbytes + (chunk cbytes + 8)] and, at byte 72, the old table
    position plus the chunk's [cbytes].  The bytes below the old table,
    these four fields apart, are as they were. *)
Theorem packed_append_chunk_spec (packed chunk : buffer)
    (nchunks_ nbytes_ table : Z) :
  let len := Z.of_nat (length packed) in
  load_i64 packed 16 = Some nchunks_ ->
  load_i64 packed 24 = Some nbytes_ ->
  load_i64 packed 32 = Some len ->
  load_i64 packed 72 = Some table ->
  0 <= nchunks_ -> table = len - nchunks_ * 8 -> 80 <= table ->
  wf_chunk chunk -> len + chunk_cbytes chunk + 8 < 2 ^ 63 ->
  exists packed',
    blosc2_packed_append_chunk packed chunk = Some packed'
    /\ Z.of_nat (length packed') = len + chunk_cbytes chunk + 8
    /\ load packed' (len - nchunks_ * 8) (chunk_cbytes chunk)
       = Some (chunk_bytes chunk)
    /\ load packed' (table + chunk_cbytes chunk) (nchunks_ * 8)
       = load packed table (nchunks_ * 8)
    /\ load_i64 packed' (table + chunk_cbytes chunk + nchunks_ * 8)
       = Some (len - nchunks_ * 8)
    /\ load_i64 packed' 16 = Some (nchunks_ + 1)
    /\ load_i64 packed' 24 = Some (int64 (nbytes_ + (chunk_nbytes chunk + 8)))
    /\ load_i64 packed' 32 = Some (len + (chunk_cbytes chunk + 8))
    /\ load_i64 packed' 72 = Some (table + chunk_cbytes chunk)
    /\ (forall off k,
          off + k <= 16 \/ (40 <= off /\ off + k <= 72)
          \/ (80 <= off /\ off + k <= table) ->
          load packed' off k = load packed off k).
Proof.
  intros len I16 I24 I32 I72 NN T HT W B.
  destruct (wf_chunk_loads chunk W) as (L4 & L12 & LB & LL).
  pose proof (chunk_cbytes_range chunk) as RC.
  pose proof (chunk_nbytes_range chunk) as RN.
  unfold wf_chunk in W.
  set (cb := chunk_cbytes chunk) in *.
  unfold blosc2_packed_append_chunk.
  rewrite I16, I32, I72, L4, L12. fold cb.
  rewrite (uint64_small (len - nchunks_ * 8)) by lia.
  rewrite (size_t_nonneg (len + cb + 8)) by lia.
  rewrite (size_t_nonneg (nchunks_ * 8)) by lia.
  rewrite realloc_grow by (fold len; lia).
  set (p1 := packed ++ repeat malloc_fill (Z.to_nat (len + cb + 8) - length packed)).
  assert (N1 : Z.of_nat (length p1) = len + cb + 8).
  { unfold p1. rewrite length_app, repeat_length. fold len. lia. }
  assert (F1 : forall off k, off + k <= len -> load p1 off k = load packed off k).
  { intros off k L. apply load_app_l. exact L. }
  destruct (load p1 table (nchunks_ * 8)) as [tb|] eqn:ET;
    [ | rewrite load_Some in ET by lia; discriminate ].
  assert (NT : Z.of_nat (length tb) = nchunks_ * 8).
  { rewrite (load_length _ _ _ _ ET). lia. }
  destruct (store p1 (table + cb) tb) as [p2|] eqn:S2;
    [ | rewrite store_Some in S2 by lia; discriminate ].
  pose proof (store_length _ _ _ _ S2) as N2.
  destruct (store_int_Some 8 p2 (table + cb + 8 * nchunks_)
              (len - nchunks_ * 8)) as [p3 S3]; [ lia | lia | ].
  rewrite S3. pose proof (store_length _ _ _ _ S3) as N3.
  rewrite LB.
  destruct (store p3 (len - nchunks_ * 8) (chunk_bytes chunk)) as [p4|] eqn:S4;
    [ | rewrite store_Some in S4 by lia; discriminate ].
  pose proof (store_length _ _ _ _ S4) as N4.
  (* the counters *)
  assert (E16 : load_i64 p4 16 = Some nchunks_).
  { rewrite <- I16. frame_i64. reflexivity. }
  rewrite E16.
  destruct (store_int_Some 8 p4 16 (nchunks_ + 1)) as [p5 S5]; [ lia | lia | ].
  rewrite S5. pose proof (store_length _ _ _ _ S5) as N5.
  destruct (load_uint 8 packed 24) as [v24|] eqn:U24;
    [ | unfold load_i64, load_sint in I24; rewrite U24 in I24; discriminate ].
  assert (E24 : load_u64 p5 24 = Some v24).
  { rewrite <- U24. apply (load_uint_frame 8). repeat frame_step.
    reflexivity. }
  rewrite E24.
  destruct (store_int_Some 8 p5 24 (v24 + (chunk_nbytes chunk + 8)))
    as [p6 S6]; [ lia | lia | ].
  rewrite S6. pose proof (store_length _ _ _ _ S6) as N6.
  assert (E32 : load_u64 p6 32 = Some len).
  { rewrite <- (load_sint_uint 8 _ _ _ ltac:(lia) I32 ltac:(lia)).
    apply (load_uint_frame 8). repeat frame_step. reflexivity. }
  rewrite E32.
  destruct (store_int_Some 8 p6 32 (len + (cb + 8))) as [p7 S7];
    [ lia | lia | ].
  rewrite S7. pose proof (store_length _ _ _ _ S7) as N7.
  assert (E72 : load_u64 p7 72 = Some table).
  { rewrite <- (load_sint_uint 8 _ _ _ ltac:(lia) I72 ltac:(lia)).
    apply (load_uint_frame 8). repeat frame_step. reflexivity. }
  rewrite E72.
  destruct (store_int_Some 8 p7 72 (table + cb)) as [p8 S8]; [ lia | lia | ].
  rewrite S8. pose proof (store_length _ _ _ _ S8) as N8.
  exists p8. split; [ reflexivity | ].
  split; [ lia | ].
  split.
  { repeat frame_step. rewrite <- LL. apply (load_store_same _ _ _ _ S4). }
  split.
  { repeat frame_step. rewrite <- (F1 table (nchunks_ * 8)) by lia.
    rewrite ET, <- NT. apply (load_store_same _ _ _ _ S2). }
  split.
  { replace (table + cb + nchunks_ * 8) with (table + cb + 8 * nchunks_)
      by lia.
    rewrite <- (load_i64_store _ _ _ _ S3 ltac:(lia)).
    frame_i64. reflexivity. }
  split.
  { rewrite <- (load_i64_store _ _ _ _ S5 ltac:(lia)).
    frame_i64. reflexivity. }
  split.
  { transitivity (load_i64 p6 24); [ frame_i64; reflexivity | ].
    unfold load_i64. rewrite (load_sint_store_int 8 _ _ _ _ ltac:(lia) S6).
    f_equal. unfold load_i64 in I24. rewrite (load_uint_sint _ _ _ _ U24) in I24.
    injection I24 as <-. change (sint (Z.of_nat 8 * 8)) with int64.
    int64_solve. }
  split.
  { rewrite <- (load_i64_store _ _ _ _ S7 ltac:(lia)).
    frame_i64. reflexivity. }
  split; [ apply (load_i64_store _ _ _ _ S8); lia | ].
  intros off k C. repeat frame_step. reflexivity.
Qed.

(** *** The image of a super-chunk with one more chunk *)

Lemma packed_size_snoc sc chunk :
  packed_size (snoc_chunk sc chunk) = packed_size sc + chunk_cbytes chunk + 8.
Proof.
  unfold packed_size.
  change (ancillary (snoc_chunk sc chunk)) with (ancillary sc).
  change (chunks (snoc_chunk sc chunk)) with (chunks sc ++ [chunk]).
  change (nchunks (snoc_chunk sc chunk)) with (nchunks sc + 1).
  rewrite sum_cbytes_app. lia.
Qed.

Lemma packed_nbytes_snoc sc chunk :
  packed_nbytes (snoc_chunk sc chunk)
  = packed_nbytes sc + chunk_nbytes chunk + 8.
Proof.
  unfold packed_nbytes.
  change (ancillary (snoc_chunk sc chunk)) with (ancillary sc).
  change (chunks (snoc_chunk sc chunk)) with (chunks sc ++ [chunk]).
  change (nchunks (snoc_chunk sc chunk)) with (nchunks sc + 1).
  rewrite sum_nbytes_app. lia.
Qed.

Lemma wf_schunk_snoc sc chunk :
  wf_schunk sc -> wf_chunk chunk ->
  nchunks sc + 1 <= INT_MAX ->
  packed_size sc + chunk_cbytes chunk + 8 < 2 ^ 63 ->
  wf_schunk (snoc_chunk sc chunk).
Proof.
  intros (WA & WD & N & M & HL & B) W M' B'.
  unfold wf_schunk. rewrite packed_size_snoc.
  split; [ exact WA | ].
  change (chunks (snoc_chunk sc chunk)) with (chunks sc ++ [chunk]).
  change (nchunks (snoc_chunk sc chunk)) with (nchunks sc + 1).
  split.
  { apply Forall_app.
    split; [ exact WD | constructor; [ exact W | constructor ] ]. }
  split.
  { rewrite length_app, Nat2Z.inj_add, <- N. reflexivity. }
  split; [ exact M' | ]. split; [ exact HL | exact B' ].
Qed.

Lemma load_i64_sub m o n bs o' :
  load m o n = Some bs -> 0 <= o' -> o' + 8 <= n ->
  load_i64 bs o' = load_i64 m (o + o').
Proof. intros L A B. apply (load_sint_sub 8 _ _ _ _ _ L); lia. Qed.

(** [blosc2_packed_append_chunk] on the image of [sc] writes the image
    of [sc] with the chunk at the end of its vector. *)
Lemma packed_append_chunk_image sc packed chunk :
  wf_schunk sc -> image_of sc packed -> wf_chunk chunk ->
  packed_size sc + chunk_cbytes chunk + 8 < 2 ^ 63 ->
  exists packed',
    blosc2_packed_append_chunk packed chunk = Some packed'
    /\ image_of (snoc_chunk sc chunk) packed'.
Proof.
  intros (WA & WD & N & M & HL & B)
         (L & I16 & I24 & I32 & A1 & A2 & A3 & A4 & I72 & IT) W B'.
  destruct (wf_ancillary sc WA) as (W1 & W2 & W3 & W4).
  pose proof (opt_cbytes_nonneg _ W1) as P1.
  pose proof (opt_cbytes_nonneg _ W2) as P2.
  pose proof (opt_cbytes_nonneg _ W3) as P3.
  pose proof (opt_cbytes_nonneg _ W4) as P4.
  pose proof (sum_cbytes_nonneg _ WD) as P5.
  assert (PS : packed_size sc
               = BLOSC_HEADER_PACKED_LENGTH + opt_cbytes (filters_chunk sc)
                 + opt_cbytes (codec_chunk sc)
                 + opt_cbytes (metadata_chunk sc)
                 + opt_cbytes (userdata_chunk sc)
                 + sum_cbytes (chunks sc) + nchunks sc * 8).
  { unfold packed_size. rewrite sum_cbytes_ancillary. lia. }
  unfold image_of. rewrite packed_size_snoc, packed_nbytes_snoc.
  replace (filters_chunk (snoc_chunk sc chunk)) with (filters_chunk sc)
    by reflexivity.
  replace (codec_chunk (snoc_chunk sc chunk)) with (codec_chunk sc)
    by reflexivity.
  replace (metadata_chunk (snoc_chunk sc chunk)) with (metadata_chunk sc)
    by reflexivity.
  replace (userdata_chunk (snoc_chunk sc chunk)) with (userdata_chunk sc)
    by reflexivity.
  replace (chunks (snoc_chunk sc chunk)) with (chunks sc ++ [chunk])
    by reflexivity.
  replace (nchunks (snoc_chunk sc chunk)) with (nchunks sc + 1)
    by reflexivity.
  rewrite sum_cbytes_app.
  cbv zeta in *.
  set (o1 := BLOSC_HEADER_PACKED_LENGTH) in *.
  set (o2 := o1 + opt_cbytes (filters_chunk sc)) in *.
  set (o3 := o2 + opt_cbytes (codec_chunk sc)) in *.
  set (o4 := o3 + opt_cbytes (metadata_chunk sc)) in *.
  set (o5 := o4 + opt_cbytes (userdata_chunk sc)) in *.
  set (table := o5 + sum_cbytes (chunks sc)) in *.
  set (n := nchunks sc) in *.
  set (len := packed_size sc) in *.
  assert (NN : 0 <= n) by lia.
  destruct (wf_chunk_loads chunk W) as (L4 & L12 & LB & LL).
  pose proof (chunk_cbytes_range chunk) as RC.
  pose proof (chunk_nbytes_range chunk) as RN.
  unfold wf_chunk in W.
  set (cb := chunk_cbytes chunk) in *.
  unfold blosc2_packed_append_chunk.
  rewrite I16, I32, I72, L4, L12. fold cb.
  replace (len - n * 8) with table by lia.
  rewrite (uint64_small table) by lia.
  rewrite (size_t_nonneg (len + cb + 8)) by lia.
  rewrite (size_t_nonneg (n * 8)) by lia.
  rewrite realloc_grow by lia.
  set (p1 := packed ++ repeat malloc_fill (Z.to_nat (len + cb + 8) - length packed)).
  assert (N1 : Z.of_nat (length p1) = len + cb + 8).
  { unfold p1. rewrite length_app, repeat_length. lia. }
  assert (F1 : forall off k, off + k <= len -> load p1 off k = load packed off k).
  { intros off k K. apply load_app_l. lia. }
  destruct (load p1 table (n * 8)) as [tb|] eqn:ET;
    [ | rewrite load_Some in ET by lia; discriminate ].
  assert (NT : Z.of_nat (length tb) = n * 8).
  { rewrite (load_length _ _ _ _ ET). lia. }
  destruct (store p1 (table + cb) tb) as [p2|] eqn:S2;
    [ | rewrite store_Some in S2 by lia; discriminate ].
  pose proof (store_length _ _ _ _ S2) as N2.
  destruct (store_int_Some 8 p2 (table + cb + 8 * n) table) as [p3 S3];
    [ lia | lia | ].
  rewrite S3. pose proof (store_length _ _ _ _ S3) as N3.
  rewrite LB.
  destruct (store p3 table (chunk_bytes chunk)) as [p4|] eqn:S4;
    [ | rewrite store_Some in S4 by lia; discriminate ].
  pose proof (store_length _ _ _ _ S4) as N4.
  assert (E16 : load_i64 p4 16 = Some n).
  { rewrite <- I16. frame_i64. reflexivity. }
  rewrite E16.
  destruct (store_int_Some 8 p4 16 (n + 1)) as [p5 S5]; [ lia | lia | ].
  rewrite S5. pose proof (store_length _ _ _ _ S5) as N5.
  destruct (load_uint 8 packed 24) as [v24|] eqn:U24;
    [ | unfold load_i64, load_sint in I24; rewrite U24 in I24; discriminate ].
  assert (E24 : load_u64 p5 24 = Some v24).
  { rewrite <- U24. apply (load_uint_frame 8). repeat frame_step.
    reflexivity. }
  rewrite E24.
  destruct (store_int_Some 8 p5 24 (v24 + (chunk_nbytes chunk + 8)))
    as [p6 S6]; [ lia | lia | ].
  rewrite S6. pose proof (store_length _ _ _ _ S6) as N6.
  assert (E32 : load_u64 p6 32 = Some len).
  { rewrite <- (load_sint_uint 8 _ _ _ ltac:(lia) I32 ltac:(lia)).
    apply (load_uint_frame 8). repeat frame_step. reflexivity. }
  rewrite E32.
  destruct (store_int_Some 8 p6 32 (len + (cb + 8))) as [p7 S7];
    [ lia | lia | ].
  rewrite S7. pose proof (store_length _ _ _ _ S7) as N7.
  assert (E72 : load_u64 p7 72 = Some table).
  { rewrite <- (load_sint_uint 8 _ _ _ ltac:(lia) I72 ltac:(lia)).
    apply (load_uint_frame 8). repeat frame_step. reflexivity. }
  rewrite E72.
  destruct (store_int_Some 8 p7 72 (table + cb)) as [p8 S8]; [ lia | lia | ].
  rewrite S8. pose proof (store_length _ _ _ _ S8) as N8.
  (* the part of the image below the old table, the counters apart *)
  assert (FR : forall off k,
             (40 <= off /\ off + k <= 72) \/ (80 <= off /\ off + k <= table) ->
             load p8 off k = load packed off k).
  { intros off k C. repeat frame_step. reflexivity. }
  exists p8. split; [ reflexivity | ].
  split; [ lia | ].
  split.
  { rewrite <- (load_i64_store _ _ _ _ S5 ltac:(lia)).
    frame_i64. reflexivity. }
  split.
  { transitivity (load_i64 p6 24); [ frame_i64; reflexivity | ].
    unfold load_i64. rewrite (load_sint_store_int 8 _ _ _ _ ltac:(lia) S6).
    f_equal. unfold load_i64 in I24. rewrite (load_uint_sint _ _ _ _ U24) in I24.
    injection I24 as I24. change (Z.of_nat 8 * 8) with 64 in *.
    change (sint 64) with int64 in *.
    rewrite <- (int64_add_l v24), I24, int64_add_l. f_equal. lia. }
  split.
  { replace (len + cb + 8) with (len + (cb + 8)) by lia.
    rewrite <- (load_i64_store _ _ _ _ S7 ltac:(lia)).
    frame_i64. reflexivity. }
  split.
  { apply (anc_at_frame packed p8 40 _ o1 W1 A1); apply FR; lia. }
  split.
  { apply (anc_at_frame packed p8 48 _ o2 W2 A2); apply FR; lia. }
  split.
  { apply (anc_at_frame packed p8 56 _ o3 W3 A3); apply FR; lia. }
  split.
  { apply (anc_at_frame packed p8 64 _ o4 W4 A4); apply FR; lia. }
  split.
  { rewrite (load_i64_store _ _ _ _ S8) by lia. f_equal. subst table cb. lia. }
  intros j c Hj.
  replace (o5 + (sum_cbytes (chunks sc) + cb))
    with (table + cb) by (subst table; lia).
  destruct (Nat.lt_ge_cases j (length (chunks sc))) as [J | J].
  - (* a chunk that was in the image *)
    rewrite nth_error_app1 in Hj by exact J.
    rewrite firstn_app.
    replace (j - length (chunks sc))%nat with 0%nat by lia.
    cbn [firstn]. rewrite app_nil_r.
    destruct (IT j c Hj) as [Tj Cj].
    pose proof (sum_cbytes_firstn_le (chunks sc) j WD) as SJ.
    pose proof (sum_cbytes_firstn_nth (chunks sc) j c WD Hj) as CJ.
    assert (WC : wf_chunk c)
      by (apply (proj1 (Forall_forall _ _) WD), (nth_error_In _ _ Hj)).
    unfold wf_chunk in WC.
    split.
    + rewrite <- Tj.
      transitivity (load_i64 tb (8 * Z.of_nat j)).
      * symmetry.
        replace (table + cb + 8 * Z.of_nat j)
          with (table + cb + 8 * Z.of_nat j + 0) by lia.
        assert (M2 : load p8 (table + cb) (n * 8) = Some tb).
        { repeat frame_step. rewrite <- NT.
          apply (load_store_same _ _ _ _ S2). }
        rewrite (load_i64_sub _ _ _ _ (8 * Z.of_nat j) M2) by lia.
        f_equal. lia.
      * rewrite (load_i64_sub _ _ _ _ (8 * Z.of_nat j) ET) by lia.
        apply load_i64_frame. apply F1. lia.
    + rewrite <- Cj. apply FR. lia.
  - (* the new chunk *)
    rewrite nth_error_app2 in Hj by exact J.
    destruct (j - length (chunks sc))%nat as [|k] eqn:K;
      [ | destruct k; discriminate ].
    injection Hj as <-.
    assert (JN : Z.of_nat j = n) by lia.
    rewrite firstn_app, firstn_all2 by lia. rewrite K. cbn [firstn].
    rewrite app_nil_r. fold table. rewrite JN.
    split.
    + rewrite <- (load_i64_store _ _ _ _ S3 ltac:(lia)).
      frame_i64. reflexivity.
    + fold cb. repeat frame_step. rewrite <- LL.
      apply (load_store_same _ _ _ _ S4).
Qed.

(** X20: [blosc2_pack_schunk] lays the image out as [image_of] says: the
    counters at 16, 24 and 32, the ancillary chunks one behind the other
    from [BLOSC_HEADER_PACKED_LENGTH], each with its offset (or 0) in
    its field at 40, 48, 56 or 64, the data chunks behind them in the
    order of the vector, and at the end the table of their offsets,
    whose position is at 72.  It allocates one block. *)
Theorem pack_schunk_layout (sc : schunk_header) (ps : process) :
  wf_schunk sc ->
  exists packed,
    blosc2_pack_schunk sc ps = Some (packed, malloc_block ps)
    /\ image_of sc packed.
Proof. apply pack_schunk_image. Qed.

(** X21: what [pack_copy_chunk] writes for an ancillary chunk,
    [unpack_copy_chunk] reads back from the same field: the first
    [cbytes] bytes of the chunk in a block of its own, or [NULL] for no
    chunk, with the counters advanced by the chunk's sizes on both
    sides. *)
Theorem pack_unpack_copy_chunk (chunk : option buffer) (packed : buffer)
    (offset cur nb : Z) (sc : schunk_header) (nbu cbu : Z) (ps : process) :
  (forall c, chunk = Some c -> wf_chunk c) ->
  0 <= offset -> offset + 8 <= cur ->
  cur + opt_cbytes chunk <= Z.of_nat (length packed) ->
  cur + opt_cbytes chunk < 2 ^ 63 ->
  int64 nb = nb -> int64 nbu = nbu -> int64 cbu = cbu ->
  exists packed' ps',
    pack_copy_chunk chunk packed offset cur nb
    = Some (packed', cur + opt_cbytes chunk, int64 (nb + opt_nbytes chunk))
    /\ unpack_copy_chunk packed' offset sc nbu cbu ps
       = Some (option_map chunk_bytes chunk, count_chunk chunk sc,
               int64 (nbu + opt_nbytes chunk),
               int64 (cbu + opt_cbytes chunk), ps')
    /\ heap_blocks ps'
       = heap_blocks ps + match chunk with Some _ => 1 | None => 0 end.
Proof.
  intros W O1 O2 B1 B2 NB NBU CBU.
  destruct (pack_copy_chunk_spec chunk packed offset cur nb W O1 O2 B1 B2 NB)
    as (packed' & P & _ & _ & A).
  exists packed'. eexists. split; [ exact P | ].
  split.
  - apply (unpack_copy_chunk_spec packed' offset chunk cur sc nbu cbu ps W A);
      (assumption || lia).
  - destruct chunk; cbn [heap_blocks malloc_block]; lia.
Qed.

(** X22: [blosc2_packed_append_chunk] keeps the layout: on the image of
    [sc] it returns the image of [sc] with the chunk at the end of its
    vector (every chunk and every table entry that was there is found
    again, the new entry is the last). *)
Theorem packed_append_chunk_keeps_image (sc : schunk_header)
    (packed chunk : buffer) :
  wf_schunk sc -> image_of sc packed -> wf_chunk chunk ->
  packed_size sc + chunk_cbytes chunk + 8 < 2 ^ 63 ->
  exists packed',
    blosc2_packed_append_chunk packed chunk = Some packed'
    /\ image_of (snoc_chunk sc chunk) packed'.
Proof. apply packed_append_chunk_image. Qed.

Lemma chunk_bytes_idem c : wf_chunk c -> chunk_bytes (chunk_bytes c) = chunk_bytes c.
Proof.
  intros W. destruct (chunk_bytes_prefix c W) as [_ E].
  unfold chunk_bytes at 1. rewrite E. unfold chunk_bytes.
  rewrite firstn_firstn. f_equal. lia.
Qed.

(** X23: appending a chunk to the image of a super-chunk and appending
    it (copied) to the super-chunk agree: the super-chunk unpacked from
    the grown image has the same [nchunks] and, byte for byte, the
    chunks and the reference of the grown live super-chunk, and its
    [cbytes] is the length of the image. *)
Theorem live_and_packed_append_agree (sc : schunk_header) (chunk : buffer)
    (addr : Z) (ps ps1 ps2 : process) :
  wf_schunk sc -> wf_chunk chunk ->
  nchunks sc + 1 <= INT_MAX ->
  packed_size sc + chunk_cbytes chunk + 8 < 2 ^ 63 ->
  0 < addr -> addr + packed_size sc + chunk_cbytes chunk + 8 < 2 ^ 64 ->
  exists r sc1 ps' packed ps1' packed' sc2 ps2',
    blosc2_append_chunk sc chunk true ps = Some (r, sc1, ps')
    /\ blosc2_pack_schunk sc ps1 = Some (packed, ps1')
    /\ blosc2_packed_append_chunk packed chunk = Some packed'
    /\ blosc2_unpack_schunk addr packed' ps2 = Some (sc2, ps2')
    /\ nchunks sc2 = nchunks sc1
    /\ data sc2 = option_map (map chunk_bytes) (data sc1)
    /\ filters_chunk sc2 = option_map chunk_bytes (filters_chunk sc1)
    /\ Z.of_nat (length packed') = cbytes sc2.
Proof.
  intros WF W M B A1 A2. pose proof W as [W16 WL].
  pose proof WF as (_ & _ & N & _).
  destruct (append_chunk_appends sc chunk true ps) as
    (sc1 & ps' & AP & D1 & N1 & _ & _ & AN & _);
    [ lia | intros _; lia | exact N | unfold INT_MAX in M; lia | ].
  destruct (pack_schunk_image sc ps1 WF) as (packed & PK & IM).
  destruct (packed_append_chunk_image sc packed chunk WF IM W B)
    as (packed' & PA & IM').
  pose proof (wf_schunk_snoc sc chunk WF W M B) as WF'.
  destruct (unpack_schunk_image (snoc_chunk sc chunk) packed' addr ps2 WF' IM')
    as (sc2 & ps2' & U & N2 & _ & C2 & F2 & _ & _ & _ & D2);
    [ lia | rewrite packed_size_snoc; lia | ].
  exists (nchunks sc + 1), sc1, ps', packed, (malloc_block ps1), packed',
    sc2, ps2'.
  split; [ exact AP | ]. split; [ exact PK | ]. split; [ exact PA | ].
  split; [ exact U | ].
  split; [ rewrite N2, N1; reflexivity | ].
  split.
  { rewrite D2, D1. cbn [option_map].
    change (chunks (snoc_chunk sc chunk)) with (chunks sc ++ [chunk]).
    rewrite !map_app. cbn [map]. rewrite chunk_bytes_idem by exact W.
    reflexivity. }
  split.
  { rewrite F2. change (filters_chunk (snoc_chunk sc chunk))
      with (filters_chunk sc).
    rewrite (append_chunk_filters_chunk _ _ _ _ _ _ _ AP). reflexivity. }
  rewrite C2. destruct IM' as (LL & _). exact LL.
Qed.

(** *** Retrieving a chunk from an image *)

Lemma load_uint_Some k m off :
  0 <= off -> off + Z.of_nat k <= Z.of_nat (length m) ->
  exists v, load_uint k m off = Some v.
Proof.
  intros H0 H1. unfold load_uint. rewrite load_Some by lia. eauto.
Qed.

(** X24: [blosc2_packed_decompress_chunk] answers [-10] to an index
    [nchunk >= nchunks] without assigning [*dest]; the block of the
    decoded filters is not freed on this path. *)
Theorem packed_decompress_chunk_out_of_range (packed : buffer)
    (nchunk nchunks_ : Z) (ps : process) :
  (80 <= length packed)%nat ->
  load_i64 packed 16 = Some nchunks_ ->
  nchunks_ <= nchunk ->
  blosc2_packed_decompress_chunk packed nchunk ps
  = Some (-10, None, malloc_block ps).
Proof.
  intros L I16 G. unfold blosc2_packed_decompress_chunk.
  destruct (load_uint_Some 2 packed 8) as [enc E8]; try lia.
  destruct (load_uint_Some 8 packed 40) as [fc E40]; try lia.
  destruct (load_sint_Some 8 packed 72) as [d E72]; try lia.
  unfold load_u16, load_u64, load_i64 in *. rewrite I16, E8, E40, E72.
  unfold index_guard. destruct (Z.leb_spec nchunks_ nchunk); [ | lia ].
  reflexivity.
Qed.

Lemma from_ptr_Some m off :
  0 <= off <= Z.of_nat (length m) ->
  from_ptr m off = Some (skipn (Z.to_nat off) m).
Proof.
  intros R. unfold from_ptr.
  destruct (Z.leb_spec 0 off); [ | lia ].
  destruct (Z.leb_spec off (Z.of_nat (length m))); [ | lia ].
  reflexivity.
Qed.

Lemma nth_error_chunks_index sc i c :
  wf_schunk sc -> 0 <= i ->
  nth_error (chunks sc) (Z.to_nat i) = Some c ->
  i < nchunks sc /\ wf_chunk c.
Proof.
  intros (_ & WD & N & _) P E. split.
  - assert (Z.to_nat i < length (chunks sc))%nat
      by (apply nth_error_Some; congruence).
    lia.
  - apply (proj1 (Forall_forall _ _) WD), (nth_error_In _ _ E).
Qed.

(** X25: on the image of [sc], for the index of a chunk,
    [blosc2_packed_decompress_chunk] finds the chunk through the table:
    the source handed to the codec starts with the chunk's bytes and the
    destination is a new block of the chunk's [nbytes].  A negative
    result of the codec is returned as it is, a size other than [nbytes]
    gives [-11], and in both cases the decoded filters are not freed;
    otherwise the size is returned and, under DELTA, the buffer has been
    decoded against the memory at the offset in field 40 (the reference
    chunk, or the start of the image when there is none). *)
Theorem packed_decompress_chunk_image (sc : schunk_header) (packed : buffer)
    (i : Z) (c : buffer) (enc : Z) (ps : process) :
  wf_schunk sc -> image_of sc packed ->
  0 <= i -> nth_error (chunks sc) (Z.to_nat i) = Some c ->
  load_u16 packed 8 = Some enc ->
  (0 < BLOSC_MAX_FILTERS)%nat ->
  let o := BLOSC_HEADER_PACKED_LENGTH + sum_cbytes (ancillary sc)
           + sum_cbytes (firstn (Z.to_nat i) (chunks sc)) in
  let ref :=
    match filters_chunk sc with
    | Some _ => BLOSC_HEADER_PACKED_LENGTH
    | None => 0
    end in
  let src := skipn (Z.to_nat o) packed in
  let nb := chunk_nbytes c in
  let out :=
    blosc_decompress (codec ps) src (malloc (size_t nb)) (size_t nb) in
  let decoded :=
    if enc mod 4 =? BLOSC_DELTA
    then delta_decoder8 (skipn (Z.to_nat ref) packed) 0 nb (snd out)
    else snd out in
  firstn (Z.to_nat (chunk_cbytes c)) src = chunk_bytes c
  /\ exists ps1 ps2,
       codec ps1 = codec ps /\ heap_blocks ps1 = heap_blocks ps + 1
       /\ codec ps2 = codec ps /\ heap_blocks ps2 = heap_blocks ps + 2
       /\ blosc2_packed_decompress_chunk packed i ps
          = if fst out <? 0 then Some (fst out, Some (snd out), ps2)
            else if fst out =? nb then Some (fst out, Some decoded, ps1)
            else Some (-11, Some (snd out), ps2).
Proof.
  intros WF IM P E E8 MF o ref src nb out decoded.
  destruct (nth_error_chunks_index sc i c WF P E) as [IN WC].
  destruct WF as (WA & WD & N & M & HL & B).
  destruct IM as (L & I16 & I24 & I32 & A1 & A2 & A3 & A4 & I72 & IT).
  destruct (wf_ancillary sc WA) as (W1 & W2 & W3 & W4).
  pose proof (opt_cbytes_nonneg _ W1) as P1.
  pose proof (opt_cbytes_nonneg _ W2) as P2.
  pose proof (opt_cbytes_nonneg _ W3) as P3.
  pose proof (opt_cbytes_nonneg _ W4) as P4.
  pose proof (sum_cbytes_nonneg _ WD) as P5.
  pose proof (sum_cbytes_firstn_le (chunks sc) (Z.to_nat i) WD) as SJ.
  pose proof (sum_cbytes_firstn_nth (chunks sc) (Z.to_nat i) c WD E) as CJ.
  cbv zeta in A1, A2, A3, A4, I72, IT.
  destruct (IT _ _ E) as [Ti Ci]. rewrite Z2Nat.id in Ti by lia.
  assert (EO : BLOSC_HEADER_PACKED_LENGTH + opt_cbytes (filters_chunk sc)
               + opt_cbytes (codec_chunk sc) + opt_cbytes (metadata_chunk sc)
               + opt_cbytes (userdata_chunk sc)
               + sum_cbytes (firstn (Z.to_nat i) (chunks sc)) = o).
  { subst o. rewrite sum_cbytes_ancillary. lia. }
  rewrite EO in Ti, Ci.
  assert (PS : packed_size sc
               = BLOSC_HEADER_PACKED_LENGTH + opt_cbytes (filters_chunk sc)
                 + opt_cbytes (codec_chunk sc)
                 + opt_cbytes (metadata_chunk sc)
                 + opt_cbytes (userdata_chunk sc)
                 + sum_cbytes (chunks sc) + nchunks sc * 8).
  { unfold packed_size. rewrite sum_cbytes_ancillary. lia. }
  unfold wf_chunk in WC.
  destruct (region_chunk_fields packed o c ltac:(exact WC) Ci) as [L4 _].
  split.
  { apply load_inv in Ci. destruct Ci as (_ & _ & _ & ->). reflexivity. }
  destruct A1 as [A1 _].
  assert (E40 : load_u64 packed 40 = Some ref).
  { apply (load_sint_uint 8); [ lia | | ].
    - unfold load_i64 in A1. rewrite A1. subst ref.
      destruct (filters_chunk sc); reflexivity.
    - subst ref. destruct (filters_chunk sc); lia. }
  unfold blosc2_packed_decompress_chunk.
  rewrite I16, E8, E40, I72.
  unfold index_guard. destruct (Z.leb_spec (nchunks sc) i); [ lia | ].
  rewrite Ti. rewrite from_ptr_Some by lia. fold src. rewrite L4. fold nb.
  cbn [codec malloc_block]. fold out.
  rewrite decode_filters_slot0 by exact MF.
  assert (RF : from_ptr packed ref = Some (skipn (Z.to_nat ref) packed)).
  { apply from_ptr_Some. subst ref. destruct (filters_chunk sc); lia. }
  rewrite RF.
  destruct out as [chunksize dest]. cbn [fst snd] in *.
  eexists (free_block (malloc_block (malloc_block ps))),
    (malloc_block (malloc_block ps)).
  cbn [codec heap_blocks malloc_block free_block].
  split; [ reflexivity | ]. split; [ lia | ].
  split; [ reflexivity | ]. split; [ lia | ].
  destruct (chunksize <? 0); [ reflexivity | ].
  destruct (chunksize =? nb); cbn [negb]; [ | reflexivity ].
  subst decoded. destruct (enc mod 4 =? BLOSC_DELTA); reflexivity.
Qed.

(** *** Appending a buffer to an image *)

(** X26: on a pipeline without DELTA, [blosc2_packed_append_buffer]
    compresses the buffer with the compressor and the level read at
    bytes 4 and 6 of the image and slot 0 as the shuffle.  A negative
    result gives [NULL]; otherwise the result is the image returned by
    [blosc2_packed_append_chunk] for the new chunk.  The three
    temporary blocks are freed in both cases. *)
Theorem packed_append_buffer_plain (packed_addr : Z) (packed : buffer)
    (typesize nbytes_ : Z) (src : buffer) (ps : process)
    (cname clevel_ enc : Z) :
  (48 <= length packed)%nat ->
  load_i16 packed 4 = Some cname ->
  load_i16 packed 6 = Some clevel_ ->
  load_u16 packed 8 = Some enc ->
  (0 < BLOSC_MAX_FILTERS)%nat ->
  enc mod 4 <> BLOSC_DELTA ->
  let destsize := size_t (nbytes_ + BLOSC_MAX_OVERHEAD) in
  let st :=
    blosc_set_compressor (blosc_compcode_to_compname cname) (codec ps) in
  let out :=
    blosc_compress st clevel_ (enc mod 4) typesize nbytes_ src
      (malloc destsize) destsize in
  exists ps',
    codec ps' = st /\ heap_blocks ps' = heap_blocks ps
    /\ blosc2_packed_append_buffer packed_addr packed typesize nbytes_ src ps
       = if fst out <? 0 then Some (None, ps')
         else new_packed <- blosc2_packed_append_chunk packed (snd out) ;;
              Some (Some new_packed, ps').
Proof.
  intros L E4 E6 E8 MF ND destsize st out.
  destruct (load_uint_Some 8 packed 40) as [fc E40]; try lia.
  unfold blosc2_packed_append_buffer.
  unfold load_u64 in *. rewrite E4, E6, E40, E8.
  rewrite decode_filters_slot0 by exact MF.
  destruct (Z.eqb_spec (enc mod 4) BLOSC_DELTA); [ contradiction | ].
  fold destsize. cbn [codec set_codec malloc_block]. fold st. fold out.
  destruct out as [cb chunk]. cbn [fst snd].
  eexists (free_block (free_block (free_block
             (set_codec st (malloc_block (malloc_block (malloc_block ps))))))).
  cbn [codec heap_blocks set_codec malloc_block free_block].
  split; [ reflexivity | ]. split; [ lia | ].
  destruct (cb <? 0); reflexivity.
Qed.

(** X27: under DELTA, on the image of a super-chunk that holds a
    reference, [blosc2_packed_append_buffer] encodes the buffer with
    [delta_encoder8] against the memory at [BLOSC_HEADER_PACKED_LENGTH],
    which starts with the reference chunk, compresses the encoded buffer
    with slot 1 as the shuffle, and appends the chunk as in the plain
    case. *)
Theorem packed_append_buffer_delta (sc : schunk_header) (packed_addr : Z)
    (packed : buffer) (typesize nbytes_ : Z) (src : buffer) (ps : process)
    (rc : buffer) (cname clevel_ enc : Z) :
  wf_schunk sc -> image_of sc packed ->
  filters_chunk sc = Some rc ->
  load_i16 packed 4 = Some cname ->
  load_i16 packed 6 = Some clevel_ ->
  load_u16 packed 8 = Some enc ->
  (1 < BLOSC_MAX_FILTERS)%nat ->
  enc mod 4 = BLOSC_DELTA ->
  0 < packed_addr -> packed_addr + BLOSC_HEADER_PACKED_LENGTH < 2 ^ 64 ->
  let destsize := size_t (nbytes_ + BLOSC_MAX_OVERHEAD) in
  let st :=
    blosc_set_compressor (blosc_compcode_to_compname cname) (codec ps) in
  let fc := skipn (Z.to_nat BLOSC_HEADER_PACKED_LENGTH) packed in
  let encoded :=
    delta_encoder8 fc 0 (int nbytes_) src (malloc (size_t nbytes_)) in
  let out :=
    blosc_compress st clevel_ (uint16 (Z.shiftr enc 3) mod 4) typesize
      nbytes_ encoded (malloc destsize) destsize in
  firstn (Z.to_nat (chunk_cbytes rc)) fc = chunk_bytes rc
  /\ exists ps',
       codec ps' = st /\ heap_blocks ps' = heap_blocks ps
       /\ blosc2_packed_append_buffer packed_addr packed typesize nbytes_
            src ps
          = if fst out <? 0 then Some (None, ps')
            else new_packed <- blosc2_packed_append_chunk packed (snd out) ;;
                 Some (Some new_packed, ps').
Proof.
  intros WF IM F E4 E6 E8 MF D AD AB destsize st fc encoded out.
  destruct WF as (WA & WD & N & M & HL & B).
  destruct IM as (L & _ & _ & _ & A1 & _).
  destruct (wf_ancillary sc WA) as (W1 & _).
  specialize (W1 rc F). pose proof W1 as [W16 WL].
  pose proof (sum_cbytes_nonneg _ WD) as P5.
  pose proof (sum_cbytes_nonneg _ WA) as P6.
  cbv zeta in A1. destruct A1 as [A1 R1]. rewrite F in A1.
  specialize (R1 rc F).
  assert (LP : BLOSC_HEADER_PACKED_LENGTH <= Z.of_nat (length packed)).
  { rewrite L. unfold packed_size. lia. }
  split.
  { apply load_inv in R1. destruct R1 as (_ & _ & _ & ->). reflexivity. }
  assert (E40 : load_u64 packed 40 = Some BLOSC_HEADER_PACKED_LENGTH)
    by (apply (load_sint_uint 8); [ lia | exact A1 | lia ]).
  unfold blosc2_packed_append_buffer.
  rewrite E4, E6, E40, E8.
  rewrite decode_filters_slot0 by lia.
  rewrite D, Z.eqb_refl, decode_filters_slot1 by exact MF.
  rewrite is_null_false by lia.
  rewrite from_ptr_Some by lia. fold fc.
  fold destsize. fold encoded. cbn [codec set_codec malloc_block].
  fold st. fold out.
  destruct out as [cb chunk]. cbn [fst snd].
  eexists (free_block (free_block (free_block
             (set_codec st (malloc_block (malloc_block (malloc_block ps))))))).
  cbn [codec heap_blocks set_codec malloc_block free_block].
  split; [ reflexivity | ]. split; [ lia | ].
  destruct (cb <? 0); reflexivity.
Qed.

(** *** The blocks of an unpacked super-chunk *)

Lemma unpack_copy_chunk_heap packed offset sc nb cb ps c sc' nb' cb' ps' :
  unpack_copy_chunk packed offset sc nb cb ps = Some (c, sc', nb', cb', ps') ->
  codec ps' = codec ps
  /\ heap_blocks ps'
     = heap_blocks ps + match c with Some _ => 1 | None => 0 end
  /\ sc' = set_cbytes (cbytes sc') (set_nbytes (nbytes sc') sc).
Proof.
  unfold unpack_copy_chunk.
  destruct (load_i64 packed offset) as [off|]; [ | discriminate ].
  destruct (off =? 0).
  - intros [= <- <- _ _ <-]. split; [ reflexivity | ].
    split; [ lia | destruct sc; reflexivity ].
  - destruct (load_i32 packed (off + 4)); [ | discriminate ].
    destruct (load_i32 packed (off + 12)); [ | discriminate ].
    destruct (load packed off _); [ | discriminate ].
    intros [= <- <- _ _ <-]. cbn [codec heap_blocks malloc_block].
    split; [ reflexivity | ]. split; [ lia | destruct sc; reflexivity ].
Qed.

Lemma set_slot_length a i x a' :
  set_slot a i x = Some a' -> length a' = length a.
Proof.
  unfold set_slot.
  destruct (Z.leb_spec 0 i); cbn [andb]; [ | discriminate ].
  destruct (Z.ltb_spec i (Z.of_nat (length a))); [ | discriminate ].
  intros [= <-]. rewrite length_app, length_firstn. cbn [length].
  rewrite length_skipn. lia.
Qed.

Lemma unpack_data_loop_heap packed data_ :
  forall n i slots nb cb ps slots' nb' cb' ps',
    unpack_data_loop packed data_ n i slots nb cb ps
    = Some (slots', nb', cb', ps') ->
    length slots' = length slots
    /\ codec ps' = codec ps
    /\ heap_blocks ps' = heap_blocks ps + Z.of_nat n
    /\ (n <> 0%nat -> i + Z.of_nat n <= INT_MAX).
Proof.
  induction n as [|n IH]; intros i slots nb cb ps slots' nb' cb' ps'.
  - cbn [unpack_data_loop]. intros [= <- _ _ <-].
    split; [ reflexivity | ]. split; [ reflexivity | ].
    split; [ cbn; lia | congruence ].
  - cbn [unpack_data_loop].
    destruct (load_i64 packed (data_ + 8 * i)) as [off|]; [ | discriminate ].
    destruct (load_i32 packed (off + 12)) as [cs|]; [ | discriminate ].
    destruct (load packed off (size_t cs)) as [nc|]; [ | discriminate ].
    destruct (set_slot slots i nc) as [slots1|] eqn:SS; [ | discriminate ].
    destruct (load_i32 packed (off + 4)) as [nbi|]; [ | discriminate ].
    unfold next_int.
    destruct (Z.leb_spec INT_MAX i); [ discriminate | ].
    intros R. destruct (IH _ _ _ _ _ _ _ _ _ R) as (A & C & HB & K).
    rewrite A, C, HB. cbn [codec heap_blocks malloc_block].
    split; [ apply (set_slot_length _ _ _ _ SS) | ].
    split; [ reflexivity | ]. split; [ lia | ].
    intros _. destruct n as [|n']; [ change (Z.of_nat 1) with 1; lia | ].
    specialize (K ltac:(discriminate)).
    rewrite (Nat2Z.inj_succ (S n')). lia.
Qed.

Lemma unpack_schunk_heap addr packed ps sc' ps' :
  blosc2_unpack_schunk addr packed ps = Some (sc', ps') ->
  (forall t, load_i64 packed 72 = Some t -> is_null addr t = false) ->
  codec ps' = codec ps
  /\ heap_blocks ps' = heap_blocks ps + owned_blocks sc'
  /\ (forall d, data sc' = Some d ->
                Z.of_nat (length d) = Z.max 0 (nchunks sc'))
  /\ nchunks sc' <= INT_MAX.
Proof.
  unfold blosc2_unpack_schunk. intros U NN. revert U.
  destruct (load packed 0 40) as [hdr|] eqn:LH; [ | discriminate ].
  set (sc0 := header_of_prefix hdr).
  destruct (unpack_copy_chunk packed 40 sc0 _ _ _)
    as [[[[[c1 sc1] nb1] cb1] ps1]|] eqn:U1; [ | discriminate ].
  destruct (unpack_copy_chunk packed 48 _ _ _ _)
    as [[[[[c2 sc2] nb2] cb2] ps2]|] eqn:U2; [ | discriminate ].
  destruct (unpack_copy_chunk packed 56 _ _ _ _)
    as [[[[[c3 sc3] nb3] cb3] ps3]|] eqn:U3; [ | discriminate ].
  destruct (unpack_copy_chunk packed 64 _ _ _ _)
    as [[[[[c4 sc4] nb4] cb4] ps4]|] eqn:U4; [ | discriminate ].
  destruct (unpack_copy_chunk_heap _ _ _ _ _ _ _ _ _ _ _ U1) as (C1 & H1 & S1).
  destruct (unpack_copy_chunk_heap _ _ _ _ _ _ _ _ _ _ _ U2) as (C2 & H2 & S2).
  destruct (unpack_copy_chunk_heap _ _ _ _ _ _ _ _ _ _ _ U3) as (C3 & H3 & S3).
  destruct (unpack_copy_chunk_heap _ _ _ _ _ _ _ _ _ _ _ U4) as (C4 & H4 & S4).
  destruct (load_i64 packed 72) as [data_|] eqn:E72; [ | discriminate ].
  destruct (load_i64 packed 16) as [n|] eqn:E16; [ | discriminate ].
  rewrite (NN data_ eq_refl).
  destruct (unpack_data_loop packed data_ (Z.to_nat n) 0 _ _ _ _)
    as [[[[slots nb5] cb5] ps5]|] eqn:UL; [ | discriminate ].
  destruct (unpack_data_loop_heap _ _ _ _ _ _ _ _ _ _ _ _ UL)
    as (LS & C5 & H5 & K5).
  rewrite repeat_length in LS.
  destruct (load_i64 packed 24) as [v24|]; [ | discriminate ].
  destruct (load_i64 packed 32) as [v32|]; [ | discriminate ].
  destruct (negb (v24 =? nb5) || negb (v32 =? cb5)); [ discriminate | ].
  intros [= <- <-].
  assert (N0 : nchunks sc0 = n).
  { pose proof (load_length _ _ _ _ LH) as LL.
    pose proof (load_sint_sub 8 _ _ _ _ 16 LH ltac:(lia) ltac:(lia)) as E.
    change (load_sint 8 packed (0 + 16)) with (load_i64 packed 16) in E.
    rewrite E16 in E.
    unfold load_sint, load_uint in E. rewrite load_Some in E by lia.
    injection E as E. exact E. }
  assert (N4 : nchunks sc4 = n).
  { rewrite S4, S3, S2, S1. exact N0. }
  assert (G1 : filters_chunk sc4 = c1)
    by (rewrite S4, S3, S2, S1; reflexivity).
  assert (G2 : codec_chunk sc4 = c2) by (rewrite S4, S3, S2; reflexivity).
  assert (G3 : metadata_chunk sc4 = c3) by (rewrite S4, S3; reflexivity).
  split.
  { rewrite C5. cbn [codec malloc_block]. rewrite C4, C3, C2, C1.
    reflexivity. }
  split.
  { unfold owned_blocks, ancillary.
    cbn [data filters_chunk codec_chunk metadata_chunk userdata_chunk
         set_cbytes set_nbytes set_data set_userdata_chunk].
    rewrite G1, G2, G3, !length_app.
    rewrite H5. cbn [heap_blocks malloc_block]. rewrite H4, H3, H2, H1.
    cbn [heap_blocks malloc_block]. rewrite LS.
    destruct c1, c2, c3, c4; cbn [length]; lia. }
  cbn [data nchunks set_cbytes set_nbytes set_data set_userdata_chunk].
  rewrite N4.
  split.
  { intros d [= <-]. rewrite LS. lia. }
  destruct (Z.to_nat n) as [|k] eqn:K; [ unfold INT_MAX; lia | ].
  specialize (K5 ltac:(discriminate)). lia.
Qed.

(** X28: whenever [blosc2_unpack_schunk] returns (the table pointer
    not being [NULL]), the blocks it has allocated are exactly the
    blocks the super-chunk it returns owns. *)
Theorem unpack_schunk_owned (packed_addr : Z) (packed : buffer)
    (ps : process) (sc' : schunk_header) (ps' : process) :
  blosc2_unpack_schunk packed_addr packed ps = Some (sc', ps') ->
  (forall t, load_i64 packed 72 = Some t -> is_null packed_addr t = false) ->
  codec ps' = codec ps
  /\ heap_blocks ps' = heap_blocks ps + owned_blocks sc'.
Proof.
  intros U NN.
  destruct (unpack_schunk_heap _ _ _ _ _ U NN) as (C & H & _). auto.
Qed.

(** X29: whenever [blosc2_unpack_schunk] returns (the table pointer
    not being [NULL]), the super-chunk it returns can be destroyed:
    [blosc2_destroy_schunk] returns 0 and the heap is what it was before
    the unpacking.  With a [NULL] table pointer the loop that copies the
    chunks is skipped and the property is lost: see
    [unpack_null_table_unbalanced]. *)
Theorem unpack_then_destroy (packed_addr : Z) (packed : buffer)
    (ps : process) (sc' : schunk_header) (ps' : process) :
  blosc2_unpack_schunk packed_addr packed ps = Some (sc', ps') ->
  (forall t, load_i64 packed 72 = Some t -> is_null packed_addr t = false) ->
  exists ps'',
    blosc2_destroy_schunk sc' ps' = Some (0, ps'')
    /\ codec ps'' = codec ps
    /\ heap_blocks ps'' = heap_blocks ps.
Proof.
  intros U NN.
  destruct (unpack_schunk_heap _ _ _ _ _ U NN) as (C & H & D & M).
  destruct (destroy_schunk_heap sc' ps' D M) as (ps'' & E & C' & H').
  exists ps''. split; [ exact E | ]. split; [ congruence | lia ].
Qed.

(** X30: [blosc2_unpack_schunk] returns only for an image whose
    counters agree with its content: the [nchunks], [nbytes] and
    [cbytes] of the super-chunk it returns are the values stored at
    bytes 16, 24 and 32 of the image (a failed assertion aborts the
    program otherwise). *)
Theorem unpack_schunk_checks_counters (packed_addr : Z) (packed : buffer)
    (ps : process) (sc' : schunk_header) (ps' : process) :
  blosc2_unpack_schunk packed_addr packed ps = Some (sc', ps') ->
  load_i64 packed 16 = Some (nchunks sc')
  /\ load_i64 packed 24 = Some (nbytes sc')
  /\ load_i64 packed 32 = Some (cbytes sc')
  /\ (40 <= length packed)%nat.
Proof.
  unfold blosc2_unpack_schunk.
  destruct (load packed 0 40) as [hdr|] eqn:LH; [ | discriminate ].
  set (sc0 := header_of_prefix hdr).
  destruct (unpack_copy_chunk packed 40 sc0 _ _ _)
    as [[[[[c1 sc1] nb1] cb1] ps1]|] eqn:U1; [ | discriminate ].
  destruct (unpack_copy_chunk packed 48 _ _ _ _)
    as [[[[[c2 sc2] nb2] cb2] ps2]|] eqn:U2; [ | discriminate ].
  destruct (unpack_copy_chunk packed 56 _ _ _ _)
    as [[[[[c3 sc3] nb3] cb3] ps3]|] eqn:U3; [ | discriminate ].
  destruct (unpack_copy_chunk packed 64 _ _ _ _)
    as [[[[[c4 sc4] nb4] cb4] ps4]|] eqn:U4; [ | discriminate ].
  destruct (unpack_copy_chunk_heap _ _ _ _ _ _ _ _ _ _ _ U1) as (_ & _ & S1).
  destruct (unpack_copy_chunk_heap _ _ _ _ _ _ _ _ _ _ _ U2) as (_ & _ & S2).
  destruct (unpack_copy_chunk_heap _ _ _ _ _ _ _ _ _ _ _ U3) as (_ & _ & S3).
  destruct (unpack_copy_chunk_heap _ _ _ _ _ _ _ _ _ _ _ U4) as (_ & _ & S4).
  destruct (load_i64 packed 72) as [data_|]; [ | discriminate ].
  destruct (load_i64 packed 16) as [n|] eqn:E16; [ | discriminate ].
  destruct (if is_null packed_addr data_ then _ else _)
    as [[[[slots nb5] cb5] ps5]|]; [ | discriminate ].
  destruct (load_i64 packed 24) as [v24|]; [ | discriminate ].
  destruct (load_i64 packed 32) as [v32|]; [ | discriminate ].
  destruct (Z.eqb_spec v24 nb5) as [-> | ]; [ | discriminate ].
  destruct (Z.eqb_spec v32 cb5) as [-> | ]; [ | discriminate ].
  intros [= <- _].
  cbn [nchunks nbytes cbytes set_cbytes set_nbytes set_data
       set_userdata_chunk].
  pose proof (load_length _ _ _ _ LH) as LL.
  pose proof (load_inv _ _ _ _ LH) as (_ & _ & LB & _).
  assert (N0 : nchunks sc0 = n).
  { pose proof (load_sint_sub 8 _ _ _ _ 16 LH ltac:(lia) ltac:(lia)) as E.
    change (load_sint 8 packed (0 + 16)) with (load_i64 packed 16) in E.
    rewrite E16 in E.
    unfold load_sint, load_uint in E. rewrite load_Some in E by lia.
    injection E as E. exact E. }
  assert (N4 : nchunks sc4 = n) by (rewrite S4, S3, S2, S1; exact N0).
  rewrite N4. split; [ reflexivity | ]. split; [ reflexivity | ].
  split; [ reflexivity | lia ].
Qed.

(** *** Retrieving what was appended *)

(** X7: a chunk that [blosc2_append_chunk] has appended is the one
    [blosc2_decompress_chunk] hands to the codec at the index
    [returned count - 1]. *)
Theorem append_chunk_then_decompress (sc : schunk_header) (chunk : buffer)
    (copy : bool) (ps : process) (dest : buffer) (nbytes_ : Z) :
  wf_chunk chunk ->
  nchunks sc = Z.of_nat (length (chunks sc)) ->
  nchunks sc + 1 < 2 ^ 63 ->
  chunk_nbytes chunk <= nbytes_ ->
  let stored := if copy then chunk_bytes chunk else chunk in
  exists r sc' ps' ps'',
    blosc2_append_chunk sc chunk copy ps = Some (r, sc', ps')
    /\ let out :=
         blosc_decompress (blosc_set_schunk sc' (codec ps)) stored dest
           (size_t nbytes_) in
       blosc2_decompress_chunk sc' (r - 1) dest nbytes_ ps'
       = Some (fst out, sc', snd out, ps'').
Proof.
  intros W N B C stored.
  pose proof W as [W1 W2].
  destruct (append_chunk_appends sc chunk copy ps) as
    (sc' & ps' & A & D & N' & _ & _ & _ & _ & PC & _); try lia.
  destruct (wf_chunk_loads chunk W) as (_ & _ & _ & LL).
  destruct (chunk_bytes_prefix chunk W) as [E4 _].
  destruct (decompress_chunk_runs sc' (nchunks sc + 1 - 1) dest nbytes_ ps'
              (chunks sc ++ [stored]) stored) as (ps'' & R & _); try lia;
    try assumption.
  - replace (nchunks sc + 1 - 1) with (nchunks sc) by lia.
    rewrite N, Nat2Z.id. apply nth_error_snoc.
  - subst stored. destruct copy; lia.
  - subst stored. destruct copy; [ rewrite E4 | ]; exact C.
  - exists (nchunks sc + 1), sc', ps', ps''. split; [ exact A | ].
    cbv zeta in R |- *. rewrite PC in R. exact R.
Qed.

(** *** The packed length and the live counters *)

Lemma wf_chunk_bytes c : wf_chunk c -> wf_chunk (chunk_bytes c).
Proof.
  intros W. destruct (chunk_bytes_prefix c W) as [_ E].
  destruct (wf_chunk_loads c W) as (_ & _ & _ & LL).
  unfold wf_chunk in *. rewrite E, LL. lia.
Qed.

(** X19: appending a chunk grows the result of
    [blosc2_get_packed_length] by the chunk's [cbytes] and the 8 bytes
    of its table entry. *)
Theorem append_chunk_packed_length (sc : schunk_header) (chunk : buffer)
    (copy : bool) (ps : process) :
  wf_schunk sc -> wf_chunk chunk ->
  nchunks sc + 1 <= INT_MAX ->
  packed_size sc + chunk_cbytes chunk + 8 < 2 ^ 63 ->
  exists r sc' ps' len,
    blosc2_append_chunk sc chunk copy ps = Some (r, sc', ps')
    /\ blosc2_get_packed_length sc = Some len
    /\ blosc2_get_packed_length sc' = Some (len + chunk_cbytes chunk + 8).
Proof.
  intros WF W M B. pose proof W as [W16 WL].
  pose proof WF as (WA & WD & N & M0 & HL & B0).
  destruct (append_chunk_appends sc chunk copy ps) as
    (sc' & ps' & AP & D1 & N1 & _ & _ & AN & _);
    [ lia | intros _; lia | exact N | unfold INT_MAX in M; lia | ].
  exists (nchunks sc + 1), sc', ps', (packed_size sc).
  split; [ exact AP | ].
  split; [ apply get_packed_length_spec, WF | ].
  set (stored := if copy then chunk_bytes chunk else chunk) in *.
  assert (WS : wf_chunk stored)
    by (subst stored; destruct copy; [ apply wf_chunk_bytes | ]; exact W).
  assert (CS : chunk_cbytes stored = chunk_cbytes chunk).
  { subst stored. destruct copy; [ | reflexivity ].
    apply (chunk_bytes_prefix chunk W). }
  assert (C1 : chunks sc' = chunks sc ++ [stored])
    by (unfold chunks at 1; rewrite D1; reflexivity).
  assert (PS : packed_size sc' = packed_size sc + chunk_cbytes chunk + 8).
  { unfold packed_size. rewrite AN, C1, N1, sum_cbytes_app, CS. lia. }
  rewrite <- PS. apply get_packed_length_spec.
  unfold wf_schunk. rewrite AN, C1, N1, PS.
  split; [ exact WA | ].
  split; [ apply Forall_app; split;
           [ exact WD | constructor; [ exact WS | constructor ] ] | ].
  split; [ rewrite length_app, Nat2Z.inj_add, <- N; reflexivity | ].
  split; [ exact M | ]. split; [ exact HL | exact B ].
Qed.

(** X17: the super-chunk made by [blosc2_new_schunk] is empty: no
    chunk, counters at 0 and [cbytes] at [sizeof(schunk_header)].  Its
    packed length is [BLOSC_HEADER_PACKED_LENGTH], every retrieval from
    it at a non-negative index answers [-10], destroying it frees the
    one block that was allocated, and its image is a bare header: no
    chunk, four offsets at 0 and the table at the end. *)
Theorem new_schunk_empty (params : schunk_params) (ps : process) :
  80 <= BLOSC_HEADER_PACKED_LENGTH < 2 ^ 63 ->
  let sc := fst (blosc2_new_schunk params ps) in
  (chunks sc = [] /\ ancillary sc = [] /\ nchunks sc = 0 /\ nbytes sc = 0
   /\ cbytes sc = sizeof_schunk_header)
  /\ blosc2_get_packed_length sc = Some BLOSC_HEADER_PACKED_LENGTH
  /\ (forall nchunk dest capacity ps1,
        0 <= nchunk ->
        blosc2_decompress_chunk sc nchunk dest capacity ps1
        = Some (-10, sc, dest, malloc_block ps1))
  /\ (exists ps',
        blosc2_destroy_schunk sc (snd (blosc2_new_schunk params ps))
        = Some (0, ps')
        /\ heap_blocks ps' = heap_blocks ps)
  /\ exists packed ps',
       blosc2_pack_schunk sc ps = Some (packed, ps')
       /\ Z.of_nat (length packed) = BLOSC_HEADER_PACKED_LENGTH
       /\ load_i64 packed 16 = Some 0
       /\ load_i64 packed 40 = Some 0 /\ load_i64 packed 48 = Some 0
       /\ load_i64 packed 56 = Some 0 /\ load_i64 packed 64 = Some 0
       /\ load_i64 packed 72 = Some BLOSC_HEADER_PACKED_LENGTH.
Proof.
  intros HB sc.
  assert (WF : wf_schunk sc).
  { unfold wf_schunk, packed_size, sc; cbn.
    split; [ constructor | ]. split; [ constructor | ].
    split; [ reflexivity | ]. split; [ unfold INT_MAX; lia | ].
    split; lia. }
  split; [ subst sc; cbn; auto | ].
  split; [ reflexivity | ].
  split.
  { intros nchunk dest capacity ps1 P.
    unfold blosc2_decompress_chunk, index_guard. subst sc.
    cbn [nchunks fst blosc2_new_schunk].
    destruct (Z.leb_spec 0 nchunk); [ reflexivity | lia ]. }
  split.
  { eexists. split; [ reflexivity | ]. cbn. lia. }
  destruct (pack_schunk_image sc ps WF) as (packed & E & I).
  destruct I as (L & I16 & _ & _ & [A1 _] & [A2 _] & [A3 _] & [A4 _] & I72 & _).
  exists packed, (malloc_block ps).
  split; [ exact E | ].
  split; [ rewrite L; unfold packed_size, sc; cbn; lia | ].
  split; [ exact I16 | ].
  split; [ exact A1 | ]. split; [ exact A2 | ]. split; [ exact A3 | ].
  split; [ exact A4 | ].
  rewrite I72. f_equal. subst sc. cbn. lia.
Qed.

(** X18: where the header structure is as long as the packed header
    and a pointer as wide as a table entry, the [cbytes] of a
    super-chunk grown by the append operations, with no reference
    chunk, is its packed length. *)
Theorem packed_length_is_cbytes (sc : schunk_header) :
  sizeof_schunk_header = BLOSC_HEADER_PACKED_LENGTH ->
  sizeof_pointer = 8 ->
  reachable sc -> filters_chunk sc = None -> wf_schunk sc ->
  blosc2_get_packed_length sc = Some (cbytes sc).
Proof.
  intros SH SP R F WF.
  rewrite (get_packed_length_spec sc WF). f_equal.
  destruct WF as (WA & WD & N & M & HL & B).
  destruct (reachable_other_ancillary sc R) as (F2 & F3 & F4).
  pose proof (sum_cbytes_nonneg _ WD) as P.
  assert (A : ancillary sc = [])
    by (unfold ancillary; rewrite F, F2, F3, F4; reflexivity).
  unfold packed_size in *. rewrite A in *. cbn [sum_cbytes fold_right] in *.
  rewrite (reachable_cbytes_counted sc) by (assumption || lia).
  rewrite SH, SP, <- N. rewrite int64_small by lia. lia.
Qed.

End Packing.

(** ** The packed image on the examples *)

Ltac by_compute :=
  vm_compute; repeat split; try reflexivity; try (intro; discriminate).

Lemma delta_appended_wf : wf_schunk delta_appended.
Proof.
  unfold wf_schunk.
  split; [ | split; [ | split; [ | split; [ | split ] ] ] ].
  - apply Forall_forall. intros c Hc. vm_compute in Hc.
    destruct Hc as [<- | []]. unfold wf_chunk. by_compute.
  - apply Forall_forall. intros c Hc. vm_compute in Hc.
    destruct Hc as [<- | []]. unfold wf_chunk. by_compute.
  - by_compute.
  - by_compute.
  - by_compute.
  - by_compute.
Qed.

(** C1, as stated, fails: the super-chunk with one chunk appended under
    DELTA has [nbytes = 4], and the super-chunk unpacked from its image
    has [nbytes = 112] (96 for the header, 4 for the reference, 4 for
    the chunk and 8 for its offset); [nchunks] and [cbytes] are the
    same. *)
Lemma unpack_pack_nbytes :
  (nchunks delta_appended, nbytes delta_appended, cbytes delta_appended)
  = (1, 4, 144)
  /\ option_map (fun sc' => (nchunks sc', nbytes sc', cbytes sc'))
       (unpack_pack delta_appended)
     = Some (1, 112, 144).
Proof. split; vm_compute; reflexivity. Qed.

Lemma unpack_pack_schunk_witness :
  exists sc',
    unpack_pack delta_appended = Some sc'
    /\ nchunks sc' = nchunks delta_appended
    /\ nbytes sc' = int64 (packed_nbytes delta_appended)
    /\ data sc' = Some (map chunk_bytes (chunks delta_appended)).
Proof.
  destruct (unpack_pack_schunk delta_appended 4096 ps0 ps0 delta_appended_wf)
    as (packed & ps' & sc' & ps'' & P & U & N & _ & _ & NB & _ & _ & _ & _ & D).
  - lia.
  - by_compute.
  - exists sc'. unfold unpack_pack. rewrite P, U. auto.
Defined.

Lemma pack_schunk_length_witness :
  exists packed,
    option_map fst (blosc2_pack_schunk delta_appended ps0) = Some packed
    /\ blosc2_get_packed_length delta_appended
       = Some (Z.of_nat (length packed)).
Proof.
  destruct (pack_schunk_length delta_appended ps0 delta_appended_wf)
    as (packed & ps' & P & G & _).
  exists packed. rewrite P. auto.
Defined.

Lemma packed_append_chunk_spec_witness :
  exists packed',
    blosc2_packed_append_chunk delta_appended_image small_chunk
    = Some packed'
    /\ Z.of_nat (length packed') = 144 + 18 + 8
    /\ load packed' 136 18 = Some small_chunk
    /\ load_i64 packed' 16 = Some 2.
Proof.
  destruct (packed_append_chunk_spec delta_appended_image small_chunk
              1 112 136)
    as (packed' & E & L & C & _ & _ & N & _); [ by_compute .. | ].
  exists packed'. split; [ exact E | ]. split; [ exact L | ].
  split; [ exact C | exact N ].
Defined.

(** ** The operations on the examples *)

Lemma slots_5 : Forall (fun f => 0 <= f <= 7) [3; 1; 0; 0; 0].
Proof. repeat constructor; lia. Qed.

Lemma encode_filters_weighted_witness :
  encode_filters (delta_params 5) = filters_word [3; 1; 0; 0; 0]
  /\ 0 <= encode_filters (delta_params 5) < 2 ^ 15.
Proof.
  apply (encode_filters_weighted (delta_params 5));
    [ reflexivity | cbn; lia | exact slots_5 ].
Defined.

Lemma encode_filters_injective_witness :
  p_filters (delta_params 5) = p_filters (delta_params 7).
Proof.
  apply (encode_filters_injective (delta_params 5) (delta_params 7));
    [ cbn; lia | reflexivity | reflexivity | exact slots_5 | exact slots_5
    | reflexivity ].
Defined.

Lemma decode_encode_filters_below4_witness :
  decode_filters (encode_filters (delta_params 5)) = [3; 1; 0; 0; 0].
Proof.
  apply (decode_encode_filters_below4 (delta_params 5));
    [ reflexivity | cbn; lia | repeat constructor; lia ].
Defined.

Lemma small_chunk_wf : wf_chunk small_chunk.
Proof. unfold wf_chunk. by_compute. Qed.

Lemma append_chunk_spec_witness :
  exists sc' ps',
    blosc2_append_chunk (delta_schunk 5) small_chunk true ps0
    = Some (1, sc', ps')
    /\ data sc' = Some [small_chunk]
    /\ nchunks sc' = 1
    /\ heap_blocks ps' = 2.
Proof.
  destruct (append_chunk_spec (delta_schunk 5) small_chunk true ps0)
    as (sc' & ps' & A & D & N & _ & _ & _ & _ & _ & H);
    [ cbn; lia | intros _; by_compute | reflexivity | by_compute | ].
  exists sc', ps'. split; [ exact A | ]. split; [ exact D | ].
  split; [ exact N | exact H ].
Defined.

Lemma delta_appended_data : data delta_appended = Some [delta_chunk0].
Proof. reflexivity. Qed.

Lemma decompress_chunk_success_witness :
  exists ps',
    blosc2_decompress_chunk delta_appended 0 (bytes [9; 9; 9; 9]) 4 ps0
    = Some (4, delta_appended, bytes [1; 2; 3; 4], ps')
    /\ heap_blocks ps' = 0.
Proof.
  destruct (decompress_chunk_success delta_appended 0 (bytes [9; 9; 9; 9]) 4
              ps0 [delta_chunk0] delta_chunk0)
    as (ps' & R & _ & H);
    [ by_compute | exact delta_appended_data | reflexivity
    | apply Nat.leb_le; vm_compute; reflexivity | by_compute | ].
  exists ps'. split; [ exact R | exact H ].
Defined.

Lemma append_chunk_then_decompress_witness :
  exists r sc' ps' ps'',
    blosc2_append_chunk (delta_schunk 5) small_chunk true ps0
    = Some (r, sc', ps')
    /\ blosc2_decompress_chunk sc' (r - 1) (bytes [9; 9]) 2 ps'
       = Some (2, sc', bytes [7; 7], ps'').
Proof.
  destruct (append_chunk_then_decompress (delta_schunk 5) small_chunk true ps0
              (bytes [9; 9]) 2)
    as (r & sc' & ps' & ps'' & A & R);
    [ exact small_chunk_wf | reflexivity | by_compute | by_compute | ].
  exists r, sc', ps', ps''. split; [ exact A | exact R ].
Defined.

Lemma set_delta_ref_not_delta_witness :
  blosc2_set_delta_ref plain_schunk 4 (bytes [1; 2; 3; 4]) ps0
  = Some (-1, plain_schunk, malloc_block ps0).
Proof.
  apply (set_delta_ref_not_delta plain_schunk 4 (bytes [1; 2; 3; 4]) ps0);
    [ cbn; lia | by_compute ].
Defined.

Lemma set_delta_ref_install_witness :
  exists sc' ps',
    blosc2_set_delta_ref (delta_schunk 5) 4 (bytes [1; 2; 3; 4]) ps0
    = Some (20, sc', ps')
    /\ cbytes sc' = 116
    /\ heap_blocks ps' = 1.
Proof.
  destruct (set_delta_ref_install (delta_schunk 5) 4 (bytes [1; 2; 3; 4]) ps0)
    as (ps' & R & _ & H); [ cbn; lia | reflexivity | reflexivity | ].
  eexists _, ps'. split; [ exact R | ]. split; [ reflexivity | exact H ].
Defined.

Lemma append_buffer_reference_failure_witness :
  exists ps',
    @blosc2_append_buffer blosc_h_64 reject_codec (delta_schunk 5) 1 4
      (bytes [1; 2; 3; 4]) reject_ps0
    = Some (size_t (-1), delta_schunk 5, ps')
    /\ heap_blocks ps' = 2.
Proof.
  destruct (@append_buffer_reference_failure blosc_h_64 reject_codec
              (delta_schunk 5) 1 4 (bytes [1; 2; 3; 4]) reject_ps0)
    as (ps' & R & _ & H);
    [ cbn; lia | reflexivity | reflexivity | reflexivity | ].
  exists ps'. split; [ exact R | exact H ].
Defined.

Lemma destroy_schunk_frees_owned_witness :
  exists ps',
    blosc2_destroy_schunk delta_appended ps0 = Some (0, ps')
    /\ heap_blocks ps' = - 4.
Proof.
  destruct (destroy_schunk_frees_owned delta_appended ps0)
    as (ps' & R & _ & H); [ reflexivity | by_compute | ].
  exists ps'. split; [ exact R | exact H ].
Defined.

Lemma plain_appended_reachable : reachable plain_appended.
Proof.
  unfold plain_appended.
  destruct (blosc2_append_buffer plain_schunk 1 4 (bytes [1; 2; 3; 4]) ps0)
    as [[[r sc] ps]|] eqn:E.
  - apply (reach_append_buffer _ _ _ _ _ _ _ _ (reach_new plain_params ps0) E).
  - apply (reach_new plain_params ps0).
Qed.

Lemma plain_appended_wf : wf_schunk plain_appended.
Proof.
  unfold wf_schunk.
  split; [ | split; [ | split; [ | split; [ | split ] ] ] ].
  - apply Forall_forall. intros c Hc. vm_compute in Hc. destruct Hc.
  - apply Forall_forall. intros c Hc. vm_compute in Hc.
    destruct Hc as [<- | []]. unfold wf_chunk. by_compute.
  - by_compute.
  - by_compute.
  - by_compute.
  - by_compute.
Qed.

Lemma delta_appended_eq :
  blosc2_append_buffer (delta_schunk 5) 1 4 (bytes [1; 2; 3; 4]) ps0
  = Some (1, delta_appended, delta_appended_process).
Proof. reflexivity. Qed.

Lemma append_buffer_appends_one_witness :
  exists chunk,
    data delta_appended = Some (chunks (delta_schunk 5) ++ [chunk])
    /\ nchunks delta_appended = nchunks (delta_schunk 5) + 1
    /\ heap_blocks delta_appended_process - heap_blocks ps0
       = owned_blocks delta_appended - owned_blocks (delta_schunk 5).
Proof.
  destruct (append_buffer_appends_one (delta_schunk 5) 1 4
              (bytes [1; 2; 3; 4]) ps0 1 delta_appended
              delta_appended_process)
    as [(_ & N & _) | (chunk & D & _ & N & _ & H)];
    [ reflexivity | by_compute | exact delta_appended_eq
    | vm_compute in N; discriminate N | ].
  exists chunk. split; [ exact D | ]. split; [ exact N | exact H ].
Defined.

Lemma reachable_cbytes_witness :
  cbytes plain_appended
  = int64 (sizeof_schunk_header + sum_cbytes (chunks plain_appended)
           + Z.of_nat (length (chunks plain_appended)) * sizeof_pointer).
Proof.
  apply (reachable_cbytes plain_appended);
    [ by_compute | exact plain_appended_reachable | reflexivity ].
Defined.

Lemma packed_length_is_cbytes_witness :
  blosc2_get_packed_length plain_appended = Some (cbytes plain_appended).
Proof.
  apply (packed_length_is_cbytes plain_appended);
    [ reflexivity | reflexivity | exact plain_appended_reachable
    | reflexivity | exact plain_appended_wf ].
Defined.

Lemma pack_schunk_layout_witness :
  exists packed,
    blosc2_pack_schunk delta_appended ps0 = Some (packed, malloc_block ps0)
    /\ image_of delta_appended packed.
Proof. apply (pack_schunk_layout delta_appended ps0 delta_appended_wf). Defined.

Lemma delta_appended_image_of : image_of delta_appended delta_appended_image.
Proof.
  destruct (pack_schunk_image delta_appended ps0 delta_appended_wf)
    as (packed & E & I).
  unfold delta_appended_image. rewrite E. exact I.
Qed.

Lemma pack_unpack_copy_chunk_witness :
  exists packed' ps',
    pack_copy_chunk (Some small_chunk) (malloc 128) 40 96 96
    = Some (packed', 96 + 18, int64 (96 + 2))
    /\ unpack_copy_chunk packed' 40 (delta_schunk 5) 96 96 ps0
       = Some (Some small_chunk, count_chunk (Some small_chunk) (delta_schunk 5),
               int64 (96 + 2), int64 (96 + 18), ps').
Proof.
  destruct (pack_unpack_copy_chunk (Some small_chunk) (malloc 128) 40 96 96
              (delta_schunk 5) 96 96 ps0)
    as (packed' & ps' & P & U & _);
    [ intros c [= <-]; exact small_chunk_wf
    | lia | lia | by_compute | by_compute | reflexivity | reflexivity
    | reflexivity | ].
  exists packed', ps'. split; [ exact P | exact U ].
Defined.

Lemma packed_append_chunk_keeps_image_witness :
  exists packed',
    blosc2_packed_append_chunk delta_appended_image small_chunk = Some packed'
    /\ image_of (snoc_chunk delta_appended small_chunk) packed'.
Proof.
  apply (packed_append_chunk_keeps_image delta_appended delta_appended_image
           small_chunk delta_appended_wf delta_appended_image_of
           small_chunk_wf).
  by_compute.
Defined.

Lemma live_and_packed_append_agree_witness :
  exists sc1 packed packed' sc2,
    option_map (fun r => snd (fst r))
      (blosc2_append_chunk delta_appended small_chunk true ps0) = Some sc1
    /\ option_map fst (blosc2_pack_schunk delta_appended ps0) = Some packed
    /\ blosc2_packed_append_chunk packed small_chunk = Some packed'
    /\ option_map fst (blosc2_unpack_schunk 4096 packed' ps0) = Some sc2
    /\ nchunks sc2 = nchunks sc1
    /\ data sc2 = option_map (map chunk_bytes) (data sc1).
Proof.
  destruct (live_and_packed_append_agree delta_appended small_chunk 4096
              ps0 ps0 ps0 delta_appended_wf small_chunk_wf)
    as (r & sc1 & ps' & packed & ps1' & packed' & sc2 & ps2'
        & A & P & PA & U & N & D & _);
    [ by_compute | by_compute | lia | by_compute | ].
  exists sc1, packed, packed', sc2.
  rewrite A, P, U. cbn [option_map fst snd].
  split; [ reflexivity | ]. split; [ reflexivity | ].
  split; [ exact PA | ]. split; [ reflexivity | ].
  split; [ exact N | exact D ].
Defined.

Lemma packed_decompress_chunk_out_of_range_witness :
  blosc2_packed_decompress_chunk delta_appended_image 1 ps0
  = Some (-10, None, malloc_block ps0).
Proof.
  apply (packed_decompress_chunk_out_of_range delta_appended_image 1 1 ps0);
    [ apply Nat.leb_le; vm_compute; reflexivity
    | vm_compute; reflexivity | lia ].
Defined.

Lemma delta_appended_chunk0 :
  nth_error (chunks delta_appended) (Z.to_nat 0) = Some delta_chunk0.
Proof. reflexivity. Qed.

Lemma packed_decompress_chunk_image_witness :
  exists ps',
    blosc2_packed_decompress_chunk delta_appended_image 0 ps0
    = Some (4, Some (bytes [0; 0; 0; 0]), ps')
    /\ heap_blocks ps' = 1.
Proof.
  destruct (packed_decompress_chunk_image delta_appended delta_appended_image
              0 delta_chunk0 11 ps0 delta_appended_wf delta_appended_image_of)
    as (_ & ps1 & ps2 & _ & H1 & _ & _ & R);
    [ lia | exact delta_appended_chunk0 | vm_compute; reflexivity
    | cbn; lia | ].
  exists ps1. split; [ exact R | exact H1 ].
Defined.

Lemma plain_image_header :
  (48 <= length plain_image)%nat
  /\ load_i16 plain_image 4 = Some 1
  /\ load_i16 plain_image 6 = Some 5
  /\ load_u16 plain_image 8 = Some 1.
Proof.
  split; [ apply Nat.leb_le; vm_compute; reflexivity | ].
  repeat split; vm_compute; reflexivity.
Qed.

Lemma packed_append_buffer_plain_witness :
  let out :=
    blosc_compress
      (blosc_set_compressor (blosc_compcode_to_compname 1) (codec ps0))
      5 (1 mod 4) 1 4 (bytes [5; 6; 7; 8])
      (malloc (size_t (4 + BLOSC_MAX_OVERHEAD)))
      (size_t (4 + BLOSC_MAX_OVERHEAD)) in
  exists ps',
    heap_blocks ps' = heap_blocks ps0
    /\ blosc2_packed_append_buffer 4096 plain_image 1 4 (bytes [5; 6; 7; 8]) ps0
       = if fst out <? 0 then Some (None, ps')
         else new_packed <- blosc2_packed_append_chunk plain_image (snd out) ;;
              Some (Some new_packed, ps').
Proof.
  destruct plain_image_header as (L & E4 & E6 & E8).
  destruct (packed_append_buffer_plain 4096 plain_image 1 4
              (bytes [5; 6; 7; 8]) ps0 1 5 1 L E4 E6 E8)
    as (ps' & _ & H & R); [ cbn; lia | by_compute | ].
  exists ps'. split; [ exact H | exact R ].
Defined.

Lemma delta_image_header :
  load_i16 delta_appended_image 4 = Some 1
  /\ load_i16 delta_appended_image 6 = Some 5
  /\ load_u16 delta_appended_image 8 = Some 11.
Proof. repeat split; vm_compute; reflexivity. Qed.

Lemma delta_appended_reference :
  filters_chunk delta_appended = Some delta_reference.
Proof. reflexivity. Qed.

Lemma packed_append_buffer_delta_witness :
  let encoded :=
    delta_encoder8
      (skipn (Z.to_nat BLOSC_HEADER_PACKED_LENGTH) delta_appended_image) 0
      (int 4) (bytes [5; 6; 7; 8]) (malloc (size_t 4)) in
  let out :=
    blosc_compress
      (blosc_set_compressor (blosc_compcode_to_compname 1) (codec ps0))
      5 (uint16 (Z.shiftr 11 3) mod 4) 1 4 encoded
      (malloc (size_t (4 + BLOSC_MAX_OVERHEAD)))
      (size_t (4 + BLOSC_MAX_OVERHEAD)) in
  encoded = bytes [4; 4; 4; 12]
  /\ exists ps',
       heap_blocks ps' = heap_blocks ps0
       /\ blosc2_packed_append_buffer 4096 delta_appended_image 1 4
            (bytes [5; 6; 7; 8]) ps0
          = if fst out <? 0 then Some (None, ps')
            else new_packed <-
                   blosc2_packed_append_chunk delta_appended_image (snd out) ;;
                 Some (Some new_packed, ps').
Proof.
  split; [ vm_compute; reflexivity | ].
  destruct delta_image_header as (E4 & E6 & E8).
  destruct (packed_append_buffer_delta delta_appended 4096
              delta_appended_image 1 4 (bytes [5; 6; 7; 8]) ps0
              delta_reference 1 5 11 delta_appended_wf
              delta_appended_image_of delta_appended_reference E4 E6 E8)
    as (_ & ps' & _ & H & R);
    [ cbn; lia | reflexivity | lia | by_compute | ].
  exists ps'. split; [ exact H | exact R ].
Defined.

Lemma delta_image_table_not_null :
  forall t, load_i64 delta_appended_image 72 = Some t -> is_null 4096 t = false.
Proof. intros t E. vm_compute in E. injection E as <-. reflexivity. Qed.

Lemma delta_image_unpacks :
  exists sc' ps', blosc2_unpack_schunk 4096 delta_appended_image ps0
                  = Some (sc', ps').
Proof.
  destruct (unpack_schunk_image delta_appended delta_appended_image 4096 ps0
              delta_appended_wf delta_appended_image_of)
    as (sc' & ps' & U & _); [ lia | by_compute | ].
  exists sc', ps'. exact U.
Qed.

Lemma unpack_schunk_owned_witness :
  exists sc' ps',
    blosc2_unpack_schunk 4096 delta_appended_image ps0 = Some (sc', ps')
    /\ heap_blocks ps' = heap_blocks ps0 + owned_blocks sc'.
Proof.
  destruct delta_image_unpacks as (sc' & ps' & U).
  exists sc', ps'. split; [ exact U | ].
  apply (unpack_schunk_owned 4096 delta_appended_image ps0 sc' ps' U
           delta_image_table_not_null).
Defined.

Lemma unpack_then_destroy_witness :
  exists sc' ps' ps'',
    blosc2_unpack_schunk 4096 delta_appended_image ps0 = Some (sc', ps')
    /\ blosc2_destroy_schunk sc' ps' = Some (0, ps'')
    /\ heap_blocks ps'' = heap_blocks ps0.
Proof.
  destruct delta_image_unpacks as (sc' & ps' & U).
  destruct (unpack_then_destroy 4096 delta_appended_image ps0 sc' ps' U
              delta_image_table_not_null) as (ps'' & D & _ & H).
  exists sc', ps', ps''. split; [ exact U | ]. split; [ exact D | exact H ].
Defined.

(** Why the table pointer must not be [NULL]: with it [NULL] and
    [nchunks] 1, the unpacking allocates the header, the reference and
    the array (3 blocks) and copies no chunk, the super-chunk owns 4
    blocks by its counters, and [blosc2_destroy_schunk] frees the slot
    that was never filled. *)
Lemma unpack_null_table_unbalanced :
  load_i64 null_table_image 72 = Some (-4096)
  /\ is_null 4096 (-4096) = true
  /\ option_map
       (fun r : schunk_header * process =>
          let '(sc, ps) := r in
          (nchunks sc, data sc, heap_blocks ps, owned_blocks sc,
           option_map (fun d : Z * process => (fst d, heap_blocks (snd d)))
             (blosc2_destroy_schunk sc ps)))
       (blosc2_unpack_schunk 4096 null_table_image ps0)
     = Some (1, Some [[]], 3, 4, Some (0, -1)).
Proof. repeat split; vm_compute; reflexivity. Qed.

Lemma append_chunk_packed_length_witness :
  exists r sc' ps',
    blosc2_append_chunk delta_appended small_chunk false ps0
    = Some (r, sc', ps')
    /\ blosc2_get_packed_length delta_appended = Some 144
    /\ blosc2_get_packed_length sc' = Some (144 + 18 + 8).
Proof.
  destruct (append_chunk_packed_length delta_appended small_chunk false ps0
              delta_appended_wf small_chunk_wf)
    as (r & sc' & ps' & len & A & G & G'); [ by_compute | by_compute | ].
  assert (E : len = 144).
  { assert (K : blosc2_get_packed_length delta_appended = Some 144)
      by (vm_compute; reflexivity).
    congruence. }
  subst len. exists r, sc', ps'.
  split; [ exact A | ]. split; [ exact G | exact G' ].
Defined.

Lemma append_buffer_then_decompress_witness :
  exists r sc' ps' ps'',
    blosc2_append_buffer plain_schunk 1 4 (bytes [1; 2; 3; 4]) ps0
    = Some (r, sc', ps')
    /\ blosc2_decompress_chunk sc' (r - 1) (bytes [9; 9; 9; 9]) 4 ps'
       = Some (4, sc', bytes [1; 2; 3; 4], ps'').
Proof.
  destruct (append_buffer_then_decompress plain_schunk 1 4
              (bytes [1; 2; 3; 4]) ps0 (bytes [9; 9; 9; 9]) 4)
    as (r & sc' & ps' & ps'' & A & _ & R);
    [ cbn; lia | by_compute | reflexivity | by_compute | by_compute
    | apply Nat.leb_le; vm_compute; reflexivity | by_compute | ].
  exists r, sc', ps', ps''. split; [ exact A | exact R ].
Defined.

Lemma new_schunk_empty_witness :
  blosc2_get_packed_length plain_schunk = Some 96
  /\ exists packed ps',
       blosc2_pack_schunk plain_schunk ps0 = Some (packed, ps')
       /\ Z.of_nat (length packed) = 96
       /\ load_i64 packed 72 = Some 96.
Proof.
  destruct (new_schunk_empty plain_params ps0)
    as (_ & G & _ & _ & packed & ps' & P & L & _ & _ & _ & _ & _ & T);
    [ by_compute | ].
  split; [ exact G | ].
  exists packed, ps'. split; [ exact P | ]. split; [ exact L | exact T ].
Defined.

Lemma reachable_nchunks_witness :
  nchunks delta_appended
  = int64 (Z.of_nat (length (chunks delta_appended))).
Proof. apply (reachable_nchunks delta_appended delta_appended_reachable). Defined.

Lemma delta_lifecycle_eq :
  blosc2_append_buffer (fst (blosc2_new_schunk (delta_params 5) ps0)) 1 4
    (bytes [1; 2; 3; 4]) (snd (blosc2_new_schunk (delta_params 5) ps0))
  = Some (1, delta_appended, delta_lifecycle_process).
Proof. reflexivity. Qed.

Lemma delta_appended_grown : grown ps0 delta_appended delta_lifecycle_process.
Proof.
  apply (grown_append_buffer ps0 _ _ 1 4 (bytes [1; 2; 3; 4]) 1 _ _
           (grown_new ps0 (delta_params 5))).
  - by_compute.
  - exact delta_lifecycle_eq.
  - vm_compute. discriminate.
Qed.

Lemma grown_destroy_balanced_witness :
  exists ps',
    blosc2_destroy_schunk delta_appended delta_lifecycle_process
    = Some (0, ps')
    /\ heap_blocks delta_lifecycle_process = 4
    /\ heap_blocks ps' = heap_blocks ps0.
Proof.
  destruct (grown_destroy_balanced ps0 delta_appended delta_lifecycle_process
              delta_appended_grown) as (ps' & D & H & H'); [ by_compute | ].
  exists ps'. split; [ exact D | ]. split; [ exact H | exact H' ].
Defined.

Lemma unpack_schunk_checks_counters_witness :
  exists sc' ps',
    blosc2_unpack_schunk 4096 delta_appended_image ps0 = Some (sc', ps')
    /\ load_i64 delta_appended_image 24 = Some (nbytes sc')
    /\ load_i64 delta_appended_image 32 = Some (cbytes sc').
Proof.
  destruct delta_image_unpacks as (sc' & ps' & U).
  destruct (unpack_schunk_checks_counters 4096 delta_appended_image ps0 sc'
              ps' U) as (_ & B & C & _).
  exists sc', ps'. split; [ exact U | ]. split; [ exact B | exact C ].
Defined.
